(** * VocAIbulary: the quiz core, embedded and checked

  A shallow embedding of the parts of the application that carry
  invariants: the vocabulary store ([data/oxford3000]), the distractor
  generator of [services/aiService.ts], the error classifier, rate
  limiter and retry wrapper of [utils/apiErrorHandler.js], the game
  state hook of [hooks/useGameState] and the grading and fallback code
  of [App.tsx].

  Conventions of the embedding.
  - JavaScript strings are [string]s: a character is a code unit from
    U+0000 to U+00FF, so the texts of the embedding are the Latin-1
    texts.  On them [toLowerCase] and [trim] are the JavaScript
    functions: [toLowerCase] maps [A-Z], U+00C0 .. U+00D6 and U+00D8 ..
    U+00DE to the letter 32 places up, and [trim] strips TAB, LF, VT,
    FF, CR, space and the no-break space U+00A0.  Text with a code unit
    beyond U+00FF is outside the embedding (the word store, the phrases
    and the messages of the code embedded here are ASCII).
  - [Date.now()] is an integer number of milliseconds ([Z]).  Every
    call of it is a reading of its own, handed to the function that
    makes the call; no order between readings is built in.  Counters
    are [Z] as well (they are doubles in the program, exact far beyond
    any count a session reaches).
  - [Math.random()] is read from an explicit finite supply of draws.  A
    draw [d] stands for the number [(d mod 2^53) / 2^53] of the unit
    interval, and [Math.floor(Math.random() * n)] is computed exactly. A
    computation that needs a draw when the supply is empty is [Starved]:
    it has not returned yet.
  - A thrown exception is an explicit result, [Threw]. *)

From Stdlib Require Import ZArith NArith Ascii String Lia.
From stdpp Require Import base decidable option numbers list strings pretty gmap.

Local Open Scope string_scope.

(* ================================================================== *)
(** ** JavaScript string primitives *)
(* ================================================================== *)

Module JsString.

(** The capital letters up to U+00FF: [A-Z], U+00C0 .. U+00D6 and
    U+00D8 .. U+00DE (U+00D7 is the multiplication sign). *)
Definition is_upper (c : ascii) : bool :=
  let n := nat_of_ascii c in
  ((65 <=? n)%nat && (n <=? 90)%nat)
  || ((192 <=? n)%nat && (n <=? 214)%nat)
  || ((216 <=? n)%nat && (n <=? 222)%nat).

Definition lower_char (c : ascii) : ascii :=
  if is_upper c then ascii_of_nat (nat_of_ascii c + 32) else c.

(** [s.toLowerCase()] *)
Fixpoint toLowerCase (s : string) : string :=
  match s with
  | EmptyString => EmptyString
  | String c r => String (lower_char c) (toLowerCase r)
  end.

(** The white space and line terminators up to U+00FF, which [trim]
    removes: U+0009 .. U+000D, U+0020 and U+00A0. *)
Definition is_space (c : ascii) : bool :=
  let n := nat_of_ascii c in
  ((9 <=? n)%nat && (n <=? 13)%nat) || (n =? 32)%nat || (n =? 160)%nat.

Fixpoint trimStart (s : string) : string :=
  match s with
  | EmptyString => EmptyString
  | String c r => if is_space c then trimStart r else s
  end.

Fixpoint trimEnd (s : string) : string :=
  match s with
  | EmptyString => EmptyString
  | String c r =>
      match trimEnd r with
      | EmptyString => if is_space c then EmptyString else String c EmptyString
      | r' => String c r'
      end
  end.

(** [s.trim()] *)
Definition trim (s : string) : string := trimEnd (trimStart s).

Fixpoint drop_chars (n : nat) (s : string) : string :=
  match n, s with
  | O, _ => s
  | S n', String _ r => drop_chars n' r
  | S _, EmptyString => EmptyString
  end.

(** [s.replace(pat, rep)] for a string pattern and a replacement free of
    [$]: only the first occurrence of [pat] is replaced. *)
Fixpoint replace (pat rep s : string) : string :=
  if String.prefix pat s then rep ++ drop_chars (String.length pat) s
  else match s with
       | EmptyString => EmptyString
       | String c r => String c (replace pat rep r)
       end.

(** The double-quote character, which a string literal cannot hold bare. *)
Definition dquote : string := String (ascii_of_nat 34) EmptyString.

End JsString.


(* ================================================================== *)
(** ** Error values, classification, rate limiting and retry
       ([utils/apiErrorHandler.js]) *)
(* ================================================================== *)

Module ApiErrorHandler.

(** [ErrorTypes] *)
Inductive ErrorType : Set :=
| NETWORK | AUTHENTICATION | RATE_LIMIT | QUOTA_EXCEEDED
| VALIDATION | SERVER | TIMEOUT | UNKNOWN.

#[export] Instance ErrorType_eq_dec : EqDecision ErrorType.
Proof. solve_decision. Defined.

(** The payload of an HTTP error response, as far as the handlers read
    it: [data?.error?.message], [data?.detail?.message], [data?.message]. *)
Record ResponseData : Set := {
  error_message : option string;
  detail_message : option string;
  data_message : option string
}.

Record HttpResponse : Set := { status : Z; data : ResponseData }.

(** An error object as the handlers see it: [error.name],
    [error.message], [error.response] and whether [error.request] is
    set. *)
Record JsError : Set := {
  name : string;
  message : string;
  response : option HttpResponse;
  request : bool
}.

(** [new Error(msg)] *)
Definition newError (msg : string) : JsError :=
  {| name := "Error"; message := msg; response := None; request := false |}.

(** The [TypeError] raised when a property of [undefined] is read. *)
Definition typeError (msg : string) : JsError :=
  {| name := "TypeError"; message := msg; response := None; request := false |}.

(** [class APIError extends Error]; the [timestamp] field (wall-clock
    text) is left out. *)
Record APIError : Set := {
  api_message : string;
  type : ErrorType;
  statusCode : option Z;
  originalError : option JsError
}.

(** What a [throw] can carry: an [APIError] instance, any other error
    object, or [undefined]. *)
Inductive Thrown : Set :=
| ThrownError (e : JsError)
| ThrownAPIError (e : APIError)
| ThrownUndefined.

(** [a || b] on strings that may be missing: the empty string is falsy. *)
Definition or_else (a : option string) (b : string) : string :=
  match a with
  | Some s => if String.eqb s "" then b else s
  | None => b
  end.

Definition or_opt (a b : option string) : option string :=
  match a with
  | Some s => if String.eqb s "" then b else a
  | None => b
  end.

Definition classifyHttpError (statusCode : Z) : ErrorType :=
  if (400 <=? statusCode)%Z && (statusCode <? 500)%Z then
    if (statusCode =? 401)%Z || (statusCode =? 403)%Z then AUTHENTICATION
    else if (statusCode =? 429)%Z then RATE_LIMIT
    else if (statusCode =? 422)%Z then VALIDATION
    else VALIDATION
  else if (500 <=? statusCode)%Z then SERVER
  else UNKNOWN.

Definition handleOpenAIError (error : JsError) : APIError :=
  if String.eqb (name error) "AbortError" then
    {| api_message := "Request timed out. Please try again.";
       type := TIMEOUT; statusCode := None; originalError := Some error |}
  else match response error with
  | Some r =>
      let message := or_else (error_message (data r)) "OpenAI API error occurred" in
      if (status r =? 401)%Z then
        {| api_message := "Invalid OpenAI API key. Please check your configuration.";
           type := AUTHENTICATION; statusCode := Some (status r);
           originalError := Some error |}
      else if (status r =? 429)%Z then
        {| api_message := "OpenAI rate limit exceeded. Please try again later.";
           type := RATE_LIMIT; statusCode := Some (status r);
           originalError := Some error |}
      else
        {| api_message := message; type := classifyHttpError (status r);
           statusCode := Some (status r); originalError := Some error |}
  | None =>
      if request error then
        {| api_message := "Network error. Please check your internet connection.";
           type := NETWORK; statusCode := None; originalError := Some error |}
      else
        {| api_message := or_else (Some (message error)) "An unexpected error occurred";
           type := UNKNOWN; statusCode := None; originalError := Some error |}
  end.

Definition handleElevenLabsError (error : JsError) : APIError :=
  if String.eqb (name error) "AbortError" then
    {| api_message := "Speech synthesis timed out. Please try again.";
       type := TIMEOUT; statusCode := None; originalError := Some error |}
  else match response error with
  | Some r =>
      let message :=
        or_else (or_opt (detail_message (data r)) (data_message (data r)))
                "ElevenLabs API error occurred" in
      if (status r =? 401)%Z then
        {| api_message := "Invalid ElevenLabs API key. Please check your configuration.";
           type := AUTHENTICATION; statusCode := Some (status r);
           originalError := Some error |}
      else if (status r =? 429)%Z then
        {| api_message := "ElevenLabs rate limit exceeded. Please try again later.";
           type := RATE_LIMIT; statusCode := Some (status r);
           originalError := Some error |}
      else if (status r =? 402)%Z then
        {| api_message := "Character quota exceeded. Please upgrade your ElevenLabs plan.";
           type := QUOTA_EXCEEDED; statusCode := Some (status r);
           originalError := Some error |}
      else
        {| api_message := message; type := classifyHttpError (status r);
           statusCode := Some (status r); originalError := Some error |}
  | None =>
      if request error then
        {| api_message := "Network error. Please check your internet connection.";
           type := NETWORK; statusCode := None; originalError := Some error |}
      else
        {| api_message :=
             or_else (Some (message error))
                     "An unexpected error occurred during speech synthesis";
           type := UNKNOWN; statusCode := None; originalError := Some error |}
  end.

(** *** [class RateLimiter] *)

Record RateLimiter : Set := {
  requestsPerMinute : Z;
  requests : list Z
}.

(** [new RateLimiter(requestsPerMinute = 60)] *)
Definition newRateLimiter (requestsPerMinute : option Z) : RateLimiter :=
  {| requestsPerMinute := default 60%Z requestsPerMinute; requests := [] |}.

(** The timestamps the filter of [canMakeRequest] keeps at time [now]. *)
Definition inWindow (now : Z) (rs : list Z) : list Z :=
  filter (λ timestamp, (timestamp > now - 60000)%Z) rs.

(** [canMakeRequest()], called when [Date.now()] reads [now]: the answer
    and the limiter as the call leaves it. *)
Definition canMakeRequest (now : Z) (rl : RateLimiter) : bool * RateLimiter :=
  let oneMinuteAgo := (now - 60000)%Z in
  let kept := filter (λ timestamp, (timestamp > oneMinuteAgo)%Z) (requests rl) in
  (bool_decide (Z.of_nat (length kept) < requestsPerMinute rl)%Z,
   {| requestsPerMinute := requestsPerMinute rl; requests := kept |}).

(** [recordRequest()] *)
Definition recordRequest (now : Z) (rl : RateLimiter) : RateLimiter :=
  {| requestsPerMinute := requestsPerMinute rl; requests := requests rl ++ [now] |}.

(** A JavaScript number that is an integer or [Infinity]. *)
Inductive JsNum : Set := Finite (z : Z) | Infinity.

(** [Math.min(...xs)]; [Infinity] for no argument. *)
Definition mathMin (xs : list Z) : JsNum :=
  foldr (λ x acc, match acc with
                  | Infinity => Finite x
                  | Finite m => Finite (Z.min x m)
                  end) Infinity xs.

(** [Math.max(0, oldestRequest + 60000 - Date.now())] *)
Definition waitFrom (now : Z) (oldestRequest : JsNum) : JsNum :=
  match oldestRequest with
  | Finite o => Finite (Z.max 0 (o + 60000 - now))
  | Infinity => Infinity
  end.

(** [getTimeUntilNextRequest()].  The clock is read twice: by
    [canMakeRequest] ([now]) and, when that refuses, in the subtraction
    ([later]). *)
Definition getTimeUntilNextRequest (now later : Z) (rl : RateLimiter)
    : JsNum * RateLimiter :=
  let '(ok, rl') := canMakeRequest now rl in
  if ok then (Finite 0, rl')
  else (waitFrom later (mathMin (requests rl')), rl').

(** *** [retryWithBackoff] *)

(** The outcome of awaiting a promise. *)
Inductive Settled (A : Type) : Type :=
| Fulfilled (a : A)
| Rejected (e : Thrown).
Arguments Fulfilled {A} a.
Arguments Rejected {A} e.

(** What a run of the wrapper did: how it settled, how many times it
    invoked [fn], which delays it slept, and the state [fn] left behind. *)
Record RetryRun (St A : Type) : Type := {
  settled : Settled A;
  invocations : nat;
  delays : list Z;
  final : St
}.
Arguments settled {St A} _.
Arguments invocations {St A} _.
Arguments delays {St A} _.
Arguments final {St A} _.

(** The test in the [catch] block that ends the retrying at once. *)
Definition nonRetryable (error : Thrown) : bool :=
  match error with
  | ThrownAPIError e =>
      bool_decide (type e = AUTHENTICATION) || bool_decide (type e = VALIDATION)
  | _ => false
  end.

(** The loop from iteration [attempt] on, with [more] iterations after
    it.  [fn k s] is the [k]-th invocation of the wrapped function in
    state [s] (its behaviour may change from call to call). *)
Fixpoint retryFrom {St A : Type} (fn : nat → St → Settled A * St)
    (baseDelay : Z) (attempt more : nat) (s : St) : RetryRun St A :=
  match fn attempt s with
  | (Fulfilled a, s') =>
      {| settled := Fulfilled a; invocations := 1; delays := []; final := s' |}
  | (Rejected error, s') =>
      if nonRetryable error then
        {| settled := Rejected error; invocations := 1; delays := []; final := s' |}
      else match more with
      | O => {| settled := Rejected error; invocations := 1; delays := []; final := s' |}
      | S more' =>
          let delay := (baseDelay * 2 ^ (Z.of_nat attempt - 1))%Z in
          let r := retryFrom fn baseDelay (S attempt) more' s' in
          {| settled := settled r; invocations := S (invocations r);
             delays := delay :: delays r; final := final r |}
      end
  end.

(** [retryWithBackoff(fn, maxAttempts = 3, baseDelay = 1000)].  With no
    attempt allowed the loop is skipped and [lastError], still
    [undefined], is thrown. *)
Definition retryWithBackoff {St A : Type} (fn : nat → St → Settled A * St)
    (maxAttempts : nat) (baseDelay : Z) (s : St) : RetryRun St A :=
  match maxAttempts with
  | O => {| settled := Rejected ThrownUndefined; invocations := 0;
            delays := []; final := s |}
  | S more => retryFrom fn baseDelay 1 more s
  end.

End ApiErrorHandler.

(* ================================================================== *)
(** ** [Math.random()] and computations that consume it *)
(* ================================================================== *)

Module JsMath.
Import ApiErrorHandler.

(** [Math.floor(Math.random() * n)] when [Math.random()] yields the
    draw [d]. *)
Definition floorRandomTimes (d : N) (n : nat) : nat :=
  N.to_nat ((d mod 2 ^ 53) * N.of_nat n / 2 ^ 53)%N.

(** [Math.random() - 0.5 > 0] *)
Definition overHalf (d : N) : bool := (2 ^ 52 <? d mod 2 ^ 53)%N.

(** How a computation that reads draws ends: it returns, it throws, or
    the supply runs dry while it is still running.  The draws not yet
    read are handed on. *)
Inductive Outcome (A : Type) : Type :=
| Returned (a : A) (rest : list N)
| Threw (e : Thrown) (rest : list N)
| Starved.
Arguments Returned {A} a rest.
Arguments Threw {A} e rest.
Arguments Starved {A}.

(** [[a[i], a[j]] = [a[j], a[i]]] *)
Definition swap (a : list string) (i j : nat) : list string :=
  match a !! i, a !! j with
  | Some ai, Some aj => <[j := ai]> (<[i := aj]> a)
  | _, _ => a
  end.

(** One insertion of [arr.sort(() => Math.random() - 0.5)]: [x] moves
    left past the elements already placed (held right to left) for as
    long as the comparator answers with a positive number. *)
Fixpoint insertLeftwards (x : string) (placed : list string) (draws : list N)
    : Outcome (list string) :=
  match placed with
  | [] => Returned [x] draws
  | y :: placed' =>
      match draws with
      | [] => Starved
      | d :: ds =>
          if overHalf d then
            match insertLeftwards x placed' ds with
            | Returned l rest => Returned (y :: l) rest
            | o => o
            end
          else Returned (x :: y :: placed') ds
      end
  end.

Fixpoint sortFrom (todo placed : list string) (draws : list N) : Outcome (list string) :=
  match todo with
  | [] => Returned (rev placed) draws
  | x :: todo' =>
      match insertLeftwards x placed draws with
      | Returned placed' rest => sortFrom todo' placed' rest
      | o => o
      end
  end.

(** [arr.sort(() => Math.random() - 0.5)].  The comparator is not
    consistent, so the language leaves the resulting order to the
    engine; an insertion sort that asks the comparator once per
    comparison stands for it.  What is proved below about the result
    holds for every rearrangement of [arr]. *)
Definition sortRandomly (arr : list string) (draws : list N) : Outcome (list string) :=
  sortFrom arr [] draws.

End JsMath.
(* ================================================================== *)
(** ** The vocabulary store ([data/oxford3000]) *)
(* ================================================================== *)

Module Oxford3000.

Inductive Level : Set := A1 | A2 | B1 | B2.

#[export] Instance Level_eq_dec : EqDecision Level.
Proof. solve_decision. Defined.

Record Word : Set := {
  word : string;
  level : Level;
  definition : string;
  example : string;
  partOfSpeech : string
}.

Definition oxford3000Words : list Word := [
  {| word := "about"; level := A1; definition := "on the subject of; concerning";
     example := "Tell me about your day."; partOfSpeech := "preposition" |};
  {| word := "above"; level := A1; definition := "in or to a higher position than something else";
     example := "The plane flew above the clouds."; partOfSpeech := "preposition" |};
  {| word := "across"; level := A1; definition := "from one side to the other of something";
     example := "We walked across the bridge."; partOfSpeech := "preposition" |};
  {| word := "after"; level := A1; definition := "following in time; later than";
     example := "We'll meet after lunch."; partOfSpeech := "preposition" |};
  {| word := "again"; level := A1; definition := "once more; another time";
     example := "Please say that again."; partOfSpeech := "adverb" |};
  {| word := "against"; level := A1; definition := "in opposition to";
     example := "He leaned against the wall."; partOfSpeech := "preposition" |};
  {| word := "all"; level := A1; definition := "the whole quantity or extent of";
     example := "All students must attend."; partOfSpeech := "determiner" |};
  {| word := "almost"; level := A1; definition := "not quite; very nearly";
     example := "I'm almost finished."; partOfSpeech := "adverb" |};
  {| word := "alone"; level := A1; definition := "having no one else present";
     example := "She lives alone."; partOfSpeech := "adjective" |};
  {| word := "along"; level := A1; definition := "in company with or at the same time as";
     example := "Come along with us."; partOfSpeech := "preposition" |};
  {| word := "already"; level := A1; definition := "before or by now or the time in question";
     example := "I've already eaten."; partOfSpeech := "adverb" |};
  {| word := "also"; level := A1; definition := "in addition; too";
     example := "She's also coming to the party."; partOfSpeech := "adverb" |};
  {| word := "although"; level := A1; definition := "in spite of the fact that";
     example := "Although it was raining, we went out."; partOfSpeech := "conjunction" |};
  {| word := "always"; level := A1; definition := "at all times; on all occasions";
     example := "She always arrives early."; partOfSpeech := "adverb" |};
  {| word := "among"; level := A1; definition := "situated more or less centrally in relation to several other things";
     example := "He was among friends."; partOfSpeech := "preposition" |};
  {| word := "and"; level := A1; definition := "used to connect words of the same part of speech";
     example := "Bread and butter."; partOfSpeech := "conjunction" |};
  {| word := "another"; level := A1; definition := "used to refer to an additional person or thing";
     example := "Would you like another cup of tea?"; partOfSpeech := "determiner" |};
  {| word := "answer"; level := A1; definition := "a thing said, written, or done to deal with or as a reaction to a question";
     example := "What's your answer to the question?"; partOfSpeech := "noun" |};
  {| word := "any"; level := A1; definition := "used to refer to one or some of a thing";
     example := "Do you have any questions?"; partOfSpeech := "determiner" |};
  {| word := "anyone"; level := A1; definition := "any person or people";
     example := "Anyone can learn to swim."; partOfSpeech := "pronoun" |};
  {| word := "accept"; level := A2; definition := "consent to receive or undertake something offered";
     example := "I accept your invitation."; partOfSpeech := "verb" |};
  {| word := "accident"; level := A2; definition := "an unfortunate incident that happens unexpectedly";
     example := "There was a car accident on the highway."; partOfSpeech := "noun" |};
  {| word := "according"; level := A2; definition := "as stated by or in";
     example := "According to the weather forecast, it will rain."; partOfSpeech := "preposition" |};
  {| word := "account"; level := A2; definition := "a report or description of an event";
     example := "Give me an account of what happened."; partOfSpeech := "noun" |};
  {| word := "achieve"; level := A2; definition := "successfully bring about or reach a desired objective";
     example := "She worked hard to achieve her goals."; partOfSpeech := "verb" |};
  {| word := "activity"; level := A2; definition := "a thing that a person or group does or has done";
     example := "Swimming is my favorite activity."; partOfSpeech := "noun" |};
  {| word := "actually"; level := A2; definition := "as the truth or facts of a situation; really";
     example := "I actually enjoyed the movie."; partOfSpeech := "adverb" |};
  {| word := "address"; level := A2; definition := "the particulars of the place where someone lives";
     example := "What's your home address?"; partOfSpeech := "noun" |};
  {| word := "admit"; level := A2; definition := "confess to be true or to be the case";
     example := "I admit I was wrong."; partOfSpeech := "verb" |};
  {| word := "adult"; level := A2; definition := "a person who is fully grown or developed";
     example := "Children must be accompanied by an adult."; partOfSpeech := "noun" |};
  {| word := "advance"; level := A2; definition := "move forward in a purposeful way";
     example := "The army began to advance."; partOfSpeech := "verb" |};
  {| word := "advantage"; level := A2; definition := "a condition or circumstance that puts one in a favorable position";
     example := "Being tall is an advantage in basketball."; partOfSpeech := "noun" |};
  {| word := "adventure"; level := A2; definition := "an unusual and exciting experience or activity";
     example := "Their trip to the Amazon was quite an adventure."; partOfSpeech := "noun" |};
  {| word := "advertise"; level := A2; definition := "describe or draw attention to a product or service";
     example := "They advertise their products on television."; partOfSpeech := "verb" |};
  {| word := "advice"; level := A2; definition := "guidance or recommendations offered with regard to prudent action";
     example := "Can you give me some advice?"; partOfSpeech := "noun" |};
  {| word := "affect"; level := A2; definition := "have an effect on; make a difference to";
     example := "The rain will affect our picnic plans."; partOfSpeech := "verb" |};
  {| word := "afford"; level := A2; definition := "have enough money to pay for";
     example := "I can't afford a new car right now."; partOfSpeech := "verb" |};
  {| word := "afraid"; level := A2; definition := "feeling fear or anxiety; frightened";
     example := "She's afraid of spiders."; partOfSpeech := "adjective" |};
  {| word := "agree"; level := A2; definition := "have the same opinion about something";
     example := "I agree with your decision."; partOfSpeech := "verb" |};
  {| word := "ahead"; level := A2; definition := "further forward in space; in the lead";
     example := "Go ahead, I'll catch up later."; partOfSpeech := "adverb" |};
  {| word := "ability"; level := B1; definition := "possession of the means or skill to do something";
     example := "She has the ability to solve complex problems."; partOfSpeech := "noun" |};
  {| word := "absolutely"; level := B1; definition := "with no qualification, restriction, or limitation; totally";
     example := "You're absolutely right about that."; partOfSpeech := "adverb" |};
  {| word := "academic"; level := B1; definition := "relating to education and scholarship";
     example := "He has strong academic credentials."; partOfSpeech := "adjective" |};
  {| word := "accompany"; level := B1; definition := "go somewhere with someone as a companion";
     example := "I'll accompany you to the meeting."; partOfSpeech := "verb" |};
  {| word := "accurate"; level := B1; definition := "correct in all details; exact";
     example := "Please provide accurate information."; partOfSpeech := "adjective" |};
  {| word := "acquire"; level := B1; definition := "buy or obtain an asset or object for oneself";
     example := "The company plans to acquire new technology."; partOfSpeech := "verb" |};
  {| word := "adapt"; level := B1; definition := "become adjusted to new conditions";
     example := "Animals must adapt to survive."; partOfSpeech := "verb" |};
  {| word := "adequate"; level := B1; definition := "satisfactory or acceptable in quality or quantity";
     example := "The salary is adequate for my needs."; partOfSpeech := "adjective" |};
  {| word := "administration"; level := B1; definition := "the process or activity of running a business or organization";
     example := "She works in hospital administration."; partOfSpeech := "noun" |};
  {| word := "adopt"; level := B1; definition := "choose to take up, follow, or use";
     example := "The company will adopt new policies."; partOfSpeech := "verb" |};
  {| word := "agriculture"; level := B1; definition := "the science or practice of farming";
     example := "Agriculture is important for food production."; partOfSpeech := "noun" |};
  {| word := "aircraft"; level := B1; definition := "an airplane, helicopter, or other machine capable of flight";
     example := "The aircraft landed safely."; partOfSpeech := "noun" |};
  {| word := "alternative"; level := B1; definition := "available as another possibility or choice";
     example := "We need an alternative solution."; partOfSpeech := "adjective" |};
  {| word := "amazing"; level := B1; definition := "causing great surprise or wonder; astonishing";
     example := "The view from the mountain was amazing."; partOfSpeech := "adjective" |};
  {| word := "analysis"; level := B1; definition := "detailed examination of the elements or structure of something";
     example := "The analysis revealed interesting patterns."; partOfSpeech := "noun" |};
  {| word := "ancient"; level := B1; definition := "belonging to the very distant past";
     example := "They visited ancient ruins in Greece."; partOfSpeech := "adjective" |};
  {| word := "annual"; level := B1; definition := "occurring once every year";
     example := "The company holds an annual meeting."; partOfSpeech := "adjective" |};
  {| word := "anxiety"; level := B1; definition := "a feeling of worry, nervousness, or unease";
     example := "She felt anxiety before the exam."; partOfSpeech := "noun" |};
  {| word := "apparent"; level := B1; definition := "clearly visible or understood; obvious";
     example := "It was apparent that he was tired."; partOfSpeech := "adjective" |};
  {| word := "appeal"; level := B1; definition := "make a serious or urgent request";
     example := "They appeal for donations to help the victims."; partOfSpeech := "verb" |};
  {| word := "abandon"; level := B2; definition := "cease to support or look after someone; desert";
     example := "They had to abandon their home due to flooding."; partOfSpeech := "verb" |};
  {| word := "abstract"; level := B2; definition := "existing in thought or as an idea but not having a physical existence";
     example := "Love is an abstract concept."; partOfSpeech := "adjective" |};
  {| word := "accelerate"; level := B2; definition := "begin to move more quickly";
     example := "The car began to accelerate down the highway."; partOfSpeech := "verb" |};
  {| word := "accommodate"; level := B2; definition := "provide lodging or sufficient space for";
     example := "The hotel can accommodate 200 guests."; partOfSpeech := "verb" |};
  {| word := "accumulate"; level := B2; definition := "gather together or acquire an increasing number or quantity of";
     example := "Snow began to accumulate on the ground."; partOfSpeech := "verb" |};
  {| word := "acknowledge"; level := B2; definition := "accept or admit the existence or truth of";
     example := "He acknowledged his mistake."; partOfSpeech := "verb" |};
  {| word := "advocate"; level := B2; definition := "publicly recommend or support";
     example := "She advocates for environmental protection."; partOfSpeech := "verb" |};
  {| word := "aesthetic"; level := B2; definition := "concerned with beauty or the appreciation of beauty";
     example := "The building has great aesthetic appeal."; partOfSpeech := "adjective" |};
  {| word := "allocate"; level := B2; definition := "distribute resources or duties for a particular purpose";
     example := "We need to allocate more funds to education."; partOfSpeech := "verb" |};
  {| word := "ambiguous"; level := B2; definition := "open to more than one interpretation; not having one obvious meaning";
     example := "His answer was ambiguous and confusing."; partOfSpeech := "adjective" |};
  {| word := "anticipate"; level := B2; definition := "regard as probable; expect or predict";
     example := "We anticipate a successful outcome."; partOfSpeech := "verb" |};
  {| word := "arbitrary"; level := B2; definition := "based on random choice or personal whim";
     example := "The decision seemed arbitrary and unfair."; partOfSpeech := "adjective" |};
  {| word := "articulate"; level := B2; definition := "having or showing the ability to speak fluently and coherently";
     example := "She's very articulate in her presentations."; partOfSpeech := "adjective" |};
  {| word := "assess"; level := B2; definition := "evaluate or estimate the nature, ability, or quality of";
     example := "Teachers assess students' progress regularly."; partOfSpeech := "verb" |};
  {| word := "attribute"; level := B2; definition := "regard something as being caused by";
     example := "She attributes her success to hard work."; partOfSpeech := "verb" |};
  {| word := "authentic"; level := B2; definition := "of undisputed origin; genuine";
     example := "This is an authentic Italian restaurant."; partOfSpeech := "adjective" |};
  {| word := "autonomous"; level := B2; definition := "having the freedom to act independently";
     example := "The region has autonomous status."; partOfSpeech := "adjective" |};
  {| word := "bias"; level := B2; definition := "prejudice in favor of or against one thing";
     example := "The judge showed bias in his decision."; partOfSpeech := "noun" |};
  {| word := "coherent"; level := B2; definition := "logical and consistent";
     example := "Please give a coherent explanation."; partOfSpeech := "adjective" |};
  {| word := "comprehensive"; level := B2; definition := "complete and including everything that is necessary";
     example := "We need a comprehensive plan."; partOfSpeech := "adjective" |}
].

Definition getWordsByLevel (lv : Level) : list Word :=
  filter (λ w, level w = lv) oxford3000Words.

Definition getRandomWord (lv : option Level) (draws : list N)
    : JsMath.Outcome (option Word) :=
  let words := match lv with
               | Some l => getWordsByLevel l
               | None => oxford3000Words
               end in
  match draws with
  | [] => JsMath.Starved
  | d :: ds => JsMath.Returned (words !! JsMath.floorRandomTimes d (length words)) ds
  end.

End Oxford3000.

(* ================================================================== *)
(** ** The challenge provider client ([services/aiService.ts]) *)
(* ================================================================== *)

Module AIService.
Import JsString ApiErrorHandler JsMath Oxford3000.

(** ['A1' | 'A2' | 'B1' | 'B2' | 'ALL'] *)
Inductive SelectedLevel : Set := Lv (l : Level) | ALL.

#[export] Instance SelectedLevel_eq_dec : EqDecision SelectedLevel.
Proof. solve_decision. Defined.

Record WordAndClueResponse : Set := {
  r_word : Word;
  r_clue : string;
  r_difficulty : Z;
  r_multipleChoiceOptions : list string
}.

(** The settings of [openAIConfig.rateLimits] the service reads. *)
Definition requestsPerMinute_config : Z := 60.
Definition retryAttempts : nat := 3.
Definition retryDelay : Z := 1000.

Record AIService : Set := {
  apiKey : string;
  rateLimiter : RateLimiter
}.

(** [new AIService(apiKey)] *)
Definition newAIService (apiKey : string) : AIService :=
  {| apiKey := apiKey;
     rateLimiter := newRateLimiter (Some requestsPerMinute_config) |}.

(** *** [generateMultipleChoiceOptions] *)

Definition levelWordsOf (lv : SelectedLevel) : list Word :=
  match lv with
  | ALL => oxford3000Words
  | Lv l => filter (λ w, level w = l) oxford3000Words
  end.

Definition samePartOfSpeechOf (correctWord : Word) (levelWords : list Word) : list Word :=
  filter (λ w, partOfSpeech w = partOfSpeech correctWord ∧ word w ≠ word correctWord)
         levelWords.

Definition availableWordsOf (correctWord : Word) (lv : SelectedLevel) : list Word :=
  let levelWords := levelWordsOf lv in
  let samePartOfSpeech := samePartOfSpeechOf correctWord levelWords in
  if (3 <=? length samePartOfSpeech)%nat then samePartOfSpeech else levelWords.

(** The first [while] loop: one draw per iteration. *)
Fixpoint pickIncorrect (availableWords : list Word) (draws : list N)
    (incorrectOptions : list string) (usedWords : gset string)
    : Outcome (list string * gset string) :=
  if (length incorrectOptions <? 3)%nat
     && (length incorrectOptions <? length availableWords)%nat then
    match draws with
    | [] => Starved
    | d :: ds =>
        match availableWords !! floorRandomTimes d (length availableWords) with
        | Some randomWord =>
            if decide (toLowerCase (word randomWord) ∈ usedWords) then
              pickIncorrect availableWords ds incorrectOptions usedWords
            else
              pickIncorrect availableWords ds
                (incorrectOptions ++ [word randomWord])
                ({[toLowerCase (word randomWord)]} ∪ usedWords)
        | None =>
            Threw (ThrownError (typeError "Cannot read properties of undefined")) ds
        end
    end
  else Returned (incorrectOptions, usedWords) draws.

Definition fallbackOptions : list string :=
  ["answer"; "option"; "choice"; "word"; "item"; "thing"; "place"; "time"].

(** [fallbackOptions[Math.floor(Math.random() * fallbackOptions.length)]];
    the index is below the length of the literal array, so the default
    is never read. *)
Definition randomFallback (d : N) : string :=
  nth (floorRandomTimes d (length fallbackOptions)) fallbackOptions "answer".

(** The second [while] loop. *)
Fixpoint fillGeneric (draws : list N)
    (incorrectOptions : list string) (usedWords : gset string)
    : Outcome (list string * gset string) :=
  if (length incorrectOptions <? 3)%nat then
    match draws with
    | [] => Starved
    | d :: ds =>
        let fallback := randomFallback d in
        if decide (fallback ∈ usedWords) then
          fillGeneric ds incorrectOptions usedWords
        else
          fillGeneric ds (incorrectOptions ++ [fallback]) ({[fallback]} ∪ usedWords)
    end
  else Returned (incorrectOptions, usedWords) draws.

(** The two loops and the [slice(0, 3)] of line 72, for a given
    [availableWords]. *)
Definition incorrectOptionsFrom (availableWords : list Word) (correctWord : Word)
    (draws : list N) : Outcome (list string) :=
  match pickIncorrect availableWords draws [] {[toLowerCase (word correctWord)]} with
  | Returned (incorrectOptions, usedWords) rest =>
      match fillGeneric rest incorrectOptions usedWords with
      | Returned (incorrectOptions', _) rest' => Returned (take 3 incorrectOptions') rest'
      | Threw e rest' => Threw e rest'
      | Starved => Starved
      end
  | Threw e rest => Threw e rest
  | Starved => Starved
  end.

(** Lines 36-72: the three incorrect options. *)
Definition incorrectOptionsFor (correctWord : Word) (lv : SelectedLevel)
    (draws : list N) : Outcome (list string) :=
  incorrectOptionsFrom (availableWordsOf correctWord lv) correctWord draws.

(** The Fisher-Yates loop [for (i = ...; i > 0; i--)], entered with
    counter [i]. *)
Fixpoint fisherYates (i : nat) (allOptions : list string) (draws : list N)
    : Outcome (list string) :=
  match i with
  | O => Returned allOptions draws
  | S i' =>
      match draws with
      | [] => Starved
      | d :: ds =>
          let j := floorRandomTimes d (i + 1) in
          fisherYates i' (swap allOptions i j) ds
      end
  end.

Definition generateMultipleChoiceOptions (correctWord : Word) (lv : SelectedLevel)
    (draws : list N) : Outcome (list string) :=
  match incorrectOptionsFor correctWord lv draws with
  | Returned incorrect rest =>
      let allOptions := word correctWord :: incorrect in
      fisherYates (length allOptions - 1) allOptions rest
  | o => o
  end.

(** *** [fetchWordAndClue] *)

Definition calculateDifficulty (lv : Level) : Z :=
  match lv with A1 => 1 | A2 => 2 | B1 => 3 | B2 => 4 end.

(** The object [JSON.parse] yields from the model's reply; a string
    field that is absent reads as the empty string. *)
Record ParsedResponse : Set := {
  p_word : string;
  p_level : option Level;
  p_definition : string;
  p_example : string;
  p_partOfSpeech : string;
  p_clue : string
}.

(** The body of a 2xx reply: either [choices[0].message.content] cannot
    be read, or it is text that [JSON.parse] accepts or refuses. *)
Inductive Body : Set :=
| NoContent
| Content (parsed : option ParsedResponse).

(** What one request does: [fetch] rejects (or the text of an error
    reply cannot be read); the reply has an error status; the reply is
    a 2xx one whose body [response.json()] cannot read, rejecting with
    [e]; or it is a 2xx reply whose body is JSON. *)
Inductive FetchReply : Set :=
| FetchRejects (e : JsError)
| HttpError (status : Z) (statusText : string)
| HttpOkUnreadable (e : JsError)
| HttpOk (body : Body).

(** The world as one attempt meets it: the clock and the reply. *)
Record Attempt : Set := { clock : Z; reply : FetchReply }.

(** The function handed to [retryWithBackoff] (lines 103-178).  It
    returns [response.json()], so a body that is not JSON rejects
    inside the retried function like any other failure. *)
Definition requestCompletion (world : nat → Attempt) (attempt : nat)
    (rl : RateLimiter) : Settled Body * RateLimiter :=
  let rl' := recordRequest (clock (world attempt)) rl in
  match reply (world attempt) with
  | FetchRejects e => (Rejected (ThrownError e), rl')
  | HttpError status statusText =>
      let msg :=
        if (status =? 401)%Z then
          "Invalid OpenAI API key. Please check your API key configuration."
        else if (status =? 429)%Z then
          "OpenAI rate limit exceeded. Please wait a moment and try again."
        else if (status =? 402)%Z then
          "OpenAI quota exceeded. Please check your billing and usage limits."
        else "OpenAI API error (" ++ pretty status ++ "): " ++ statusText in
      (Rejected (ThrownError (newError msg)), rl')
  | HttpOkUnreadable e => (Rejected (ThrownError e), rl')
  | HttpOk body => (Fulfilled body, rl')
  end.

Definition keyIsUsable (apiKey : string) : bool :=
  negb (String.eqb apiKey "")
  && negb (String.eqb apiKey "your_openai_api_key_here")
  && negb (String.length apiKey <? 20)%nat
  && String.prefix "sk-" apiKey.

(** [Math.ceil(waitTime / 1000)] as text. *)
Definition secondsText (waitTime : JsNum) : string :=
  match waitTime with
  | Finite w => pretty ((w + 999) / 1000)%Z
  | Infinity => "Infinity"
  end.

(** Lines 180-227: from the reply to the response object. *)
Definition buildResponse (lv : SelectedLevel) (body : Body) (draws : list N)
    : Outcome WordAndClueResponse :=
  match body with
  | NoContent =>
      Threw (ThrownError (typeError "Cannot read properties of undefined")) draws
  | Content None =>
      Threw (ThrownError
               (newError "OpenAI returned an invalid response format. Please try again."))
            draws
  | Content (Some parsedResponse) =>
      if String.eqb (p_word parsedResponse) ""
         || String.eqb (p_definition parsedResponse) ""
         || String.eqb (p_clue parsedResponse) "" then
        Threw (ThrownError
                 (newError "OpenAI returned incomplete data. Please try again."))
              draws
      else
        let w := {|
          word := toLowerCase (p_word parsedResponse);
          level := match p_level parsedResponse with
                   | Some l => l
                   | None => match lv with ALL => B1 | Lv l => l end
                   end;
          definition := p_definition parsedResponse;
          example := or_else (Some (p_example parsedResponse))
                       ("This is an example with " ++ p_word parsedResponse ++ ".");
          partOfSpeech := or_else (Some (p_partOfSpeech parsedResponse)) "word"
        |} in
        match generateMultipleChoiceOptions w lv draws with
        | Returned multipleChoiceOptions rest =>
            Returned {| r_word := w; r_clue := p_clue parsedResponse;
                        r_difficulty := calculateDifficulty (level w);
                        r_multipleChoiceOptions := multipleChoiceOptions |} rest
        | Threw e rest => Threw e rest
        | Starved => Starved
        end
  end.

(** The [catch] of line 228: every error of the [try] block leaves as a
    plain [Error] built from the classified one. *)
Definition rethrow (error : Thrown) : Thrown :=
  match error with
  | ThrownError e =>
      ThrownError (newError ("OpenAI API Error: " ++ api_message (handleOpenAIError e)
                             ++ ". VocabAI requires a working OpenAI connection."))
  | ThrownAPIError e =>
      ThrownError (newError ("OpenAI API Error: " ++ or_else (Some (api_message e))
                                                       "An unexpected error occurred"
                             ++ ". VocabAI requires a working OpenAI connection."))
  | ThrownUndefined =>
      ThrownError (typeError "Cannot read properties of undefined")
  end.

(** [fetchWordAndClue(level)].  The limiter is asked when the clock
    reads [now]; when it refuses, [getTimeUntilNextRequest] reads the
    clock twice more, [later]. *)
Definition fetchWordAndClue (svc : AIService) (lv : SelectedLevel) (now : Z)
    (later : Z * Z) (world : nat → Attempt) (draws : list N)
    : Outcome WordAndClueResponse * AIService :=
  if negb (keyIsUsable (apiKey svc)) then
    (Threw (ThrownError (newError
       "Valid OpenAI API key is required for VocabAI to function. Please configure your API key."))
       draws, svc)
  else
    let '(ok, rl) := canMakeRequest now (rateLimiter svc) in
    if negb ok then
      let '(waitTime, rl') := getTimeUntilNextRequest (fst later) (snd later) rl in
      (Threw (ThrownError (newError
         ("OpenAI rate limit exceeded. Please wait " ++ secondsText waitTime
          ++ " seconds and try again."))) draws,
       {| apiKey := apiKey svc; rateLimiter := rl' |})
    else
      let run := retryWithBackoff (requestCompletion world) retryAttempts retryDelay rl in
      let svc' := {| apiKey := apiKey svc; rateLimiter := final run |} in
      match settled run with
      | Rejected error => (Threw (rethrow error) draws, svc')
      | Fulfilled body =>
          match buildResponse lv body draws with
          | Returned r rest => (Returned r rest, svc')
          | Threw error rest => (Threw (rethrow error) rest, svc')
          | Starved => (Starved, svc')
          end
      end.

End AIService.

(* ================================================================== *)
(** ** The game state hook ([useGameState]) *)
(* ================================================================== *)

Module GameState.
Import Oxford3000 AIService.

(** ['full' | 'concise' | 'disabled'] *)
Inductive SpeechMode : Set := full | concise | disabled.

#[export] Instance SpeechMode_eq_dec : EqDecision SpeechMode.
Proof. solve_decision. Defined.

Record GameStats : Set := {
  totalAttempted : Z;
  correctAnswers : Z;
  incorrectAnswers : Z;
  currentStreak : Z;
  bestStreak : Z
}.

Record GameState : Set := {
  currentWord : option Word;
  currentClue : string;
  isPlaying : bool;
  gameStats : GameStats;
  selectedLevel : SelectedLevel;
  showAnswer : bool;
  lastAnswer : string;
  isCorrect : option bool;
  speechMode : SpeechMode;
  multipleChoiceOptions : list string;
  selectedChoice : option string
}.

Definition initialStats : GameStats := {|
  totalAttempted := 0;
  correctAnswers := 0;
  incorrectAnswers := 0;
  currentStreak := 0;
  bestStreak := 0
|}.

Definition initialState : GameState := {|
  currentWord := None;
  currentClue := "";
  isPlaying := false;
  gameStats := initialStats;
  selectedLevel := ALL;
  showAnswer := false;
  lastAnswer := "";
  isCorrect := None;
  speechMode := disabled;
  multipleChoiceOptions := [];
  selectedChoice := None
|}.

(** The state the hook starts from: [savedSpeechMode || 'disabled']. *)
Definition startState (savedSpeechMode : option SpeechMode) : GameState := {|
  currentWord := currentWord initialState;
  currentClue := currentClue initialState;
  isPlaying := isPlaying initialState;
  gameStats := gameStats initialState;
  selectedLevel := selectedLevel initialState;
  showAnswer := showAnswer initialState;
  lastAnswer := lastAnswer initialState;
  isCorrect := isCorrect initialState;
  speechMode := default disabled savedSpeechMode;
  multipleChoiceOptions := multipleChoiceOptions initialState;
  selectedChoice := selectedChoice initialState
|}.

(** The statistics part of [updateStats]. *)
Definition bumpStats (isCorrect : bool) (stats : GameStats) : GameStats :=
  let totalAttempted' := (totalAttempted stats + 1)%Z in
  if isCorrect then
    let correctAnswers' := (correctAnswers stats + 1)%Z in
    let currentStreak' := (currentStreak stats + 1)%Z in
    {| totalAttempted := totalAttempted';
       correctAnswers := correctAnswers';
       incorrectAnswers := incorrectAnswers stats;
       currentStreak := currentStreak';
       bestStreak := Z.max (bestStreak stats) currentStreak' |}
  else
    {| totalAttempted := totalAttempted';
       correctAnswers := correctAnswers stats;
       incorrectAnswers := (incorrectAnswers stats + 1)%Z;
       currentStreak := 0;
       bestStreak := bestStreak stats |}.

Definition updateStats (isCorrect : bool) (prev : GameState) : GameState := {|
  currentWord := currentWord prev;
  currentClue := currentClue prev;
  isPlaying := isPlaying prev;
  gameStats := bumpStats isCorrect (gameStats prev);
  selectedLevel := selectedLevel prev;
  showAnswer := true;
  lastAnswer := lastAnswer prev;
  isCorrect := Some isCorrect;
  speechMode := speechMode prev;
  multipleChoiceOptions := multipleChoiceOptions prev;
  selectedChoice := selectedChoice prev
|}.

Definition resetGame (prev : GameState) : GameState := {|
  currentWord := currentWord initialState;
  currentClue := currentClue initialState;
  isPlaying := isPlaying initialState;
  gameStats := gameStats initialState;
  selectedLevel := selectedLevel initialState;
  showAnswer := showAnswer initialState;
  lastAnswer := lastAnswer initialState;
  isCorrect := isCorrect initialState;
  speechMode := speechMode prev;
  multipleChoiceOptions := multipleChoiceOptions initialState;
  selectedChoice := selectedChoice initialState
|}.

Definition nextWord (prev : GameState) : GameState := {|
  currentWord := currentWord prev;
  currentClue := currentClue prev;
  isPlaying := isPlaying prev;
  gameStats := gameStats prev;
  selectedLevel := selectedLevel prev;
  showAnswer := false;
  lastAnswer := "";
  isCorrect := None;
  speechMode := speechMode prev;
  multipleChoiceOptions := [];
  selectedChoice := None
|}.

(** [updateGameState({ lastAnswer, selectedChoice })] *)
Definition setAnswer (answer : string) (prev : GameState) : GameState := {|
  currentWord := currentWord prev;
  currentClue := currentClue prev;
  isPlaying := isPlaying prev;
  gameStats := gameStats prev;
  selectedLevel := selectedLevel prev;
  showAnswer := showAnswer prev;
  lastAnswer := answer;
  isCorrect := isCorrect prev;
  speechMode := speechMode prev;
  multipleChoiceOptions := multipleChoiceOptions prev;
  selectedChoice := Some answer
|}.

(** The [updateGameState] call that [startGame] makes on both of its
    paths. *)
Definition setChallenge (w : Word) (clue : string) (options : list string)
    (prev : GameState) : GameState := {|
  currentWord := Some w;
  currentClue := clue;
  isPlaying := true;
  gameStats := gameStats prev;
  selectedLevel := selectedLevel prev;
  showAnswer := false;
  lastAnswer := "";
  isCorrect := None;
  speechMode := speechMode prev;
  multipleChoiceOptions := options;
  selectedChoice := None
|}.

(** [updateGameState({ selectedLevel: level })] *)
Definition setLevel (lv : SelectedLevel) (prev : GameState) : GameState := {|
  currentWord := currentWord prev;
  currentClue := currentClue prev;
  isPlaying := isPlaying prev;
  gameStats := gameStats prev;
  selectedLevel := lv;
  showAnswer := showAnswer prev;
  lastAnswer := lastAnswer prev;
  isCorrect := isCorrect prev;
  speechMode := speechMode prev;
  multipleChoiceOptions := multipleChoiceOptions prev;
  selectedChoice := selectedChoice prev
|}.

(** [updateGameState({ speechMode: mode })] *)
Definition setSpeechMode (mode : SpeechMode) (prev : GameState) : GameState := {|
  currentWord := currentWord prev;
  currentClue := currentClue prev;
  isPlaying := isPlaying prev;
  gameStats := gameStats prev;
  selectedLevel := selectedLevel prev;
  showAnswer := showAnswer prev;
  lastAnswer := lastAnswer prev;
  isCorrect := isCorrect prev;
  speechMode := mode;
  multipleChoiceOptions := multipleChoiceOptions prev;
  selectedChoice := selectedChoice prev
|}.

(** Every state update the application performs through the hook. *)
Inductive Action : Set :=
| SetLevel (lv : SelectedLevel)
| SetSpeechMode (mode : SpeechMode)
| SetChallenge (w : Word) (clue : string) (options : list string)
| SetAnswer (answer : string)
| UpdateStats (isCorrect : bool)
| NextWord
| ResetGame.

Definition applyAction (prev : GameState) (a : Action) : GameState :=
  match a with
  | SetLevel lv => setLevel lv prev
  | SetSpeechMode mode => setSpeechMode mode prev
  | SetChallenge w clue options => setChallenge w clue options prev
  | SetAnswer answer => setAnswer answer prev
  | UpdateStats isCorrect => updateStats isCorrect prev
  | NextWord => nextWord prev
  | ResetGame => resetGame prev
  end.

(** The state a session is in after a history of updates, oldest first. *)
Definition stateAfter (savedSpeechMode : option SpeechMode) (history : list Action)
    : GameState :=
  foldl applyAction (startState savedSpeechMode) history.

End GameState.

(* ================================================================== *)
(** ** The application component ([App.tsx]) *)
(* ================================================================== *)

Module App.
Import JsString ApiErrorHandler JsMath Oxford3000 AIService GameState.

Inductive AppState : Set :=
| setup | playing | listening_for_answer | feedback | listening_for_command.

Record AppModel : Set := {
  appState : AppState;
  gameState : GameState.GameState;
  aiService : option AIService.AIService;
  currentInstruction : string
}.

(** The comparison all three answer handlers make:
    [answer.toLowerCase().trim() === currentWord.word.toLowerCase()]. *)
Definition gradeAnswer (currentWord : Word) (answer : string) : bool :=
  String.eqb (trim (toLowerCase answer)) (toLowerCase (word currentWord)).

Definition graded (isCorrect : bool) (answer : string) (app : AppModel) : AppModel := {|
  appState := feedback;
  gameState := updateStats isCorrect (setAnswer answer (gameState app));
  aiService := aiService app;
  currentInstruction := currentInstruction app
|}.

(** [handleManualAnswer(answer)] *)
Definition handleManualAnswer (answer : string) (app : AppModel) : AppModel :=
  match currentWord (gameState app) with
  | None => app
  | Some w =>
      if decide (speechMode (gameState app) ≠ disabled) then app
      else graded (gradeAnswer w answer) answer app
  end.

(** [handleMultipleChoiceAnswer(selectedOption)] *)
Definition handleMultipleChoiceAnswer (selectedOption : string) (app : AppModel)
    : AppModel :=
  match currentWord (gameState app) with
  | None => app
  | Some w => graded (gradeAnswer w selectedOption) selectedOption app
  end.

(** The part of [startListeningForAnswer] that follows a transcript.
    Without a current word the right-hand side of [===] is [undefined]
    and the answer counts as wrong. *)
Definition heardAnswer (transcript : string) (app : AppModel) : AppModel :=
  let isCorrect := match currentWord (gameState app) with
                   | Some w => gradeAnswer w transcript
                   | None => false
                   end in
  graded isCorrect transcript app.

Definition instructionFor (mode : SpeechMode) : string :=
  match mode with
  | concise => "Listen to the clue, then choose your answer or speak it."
  | full => "Listen carefully to the clue and context, then select your answer from the options below or speak it clearly."
  | disabled => "Read the clue and context below, then select your answer from the multiple choice options."
  end.

Definition fallbackInstructionFor (mode : SpeechMode) : string :=
  match mode with
  | disabled => "Read the clue and context below, then select your answer from the options."
  | _ => "Listen carefully to the clue, then choose your answer or speak it clearly."
  end.

Definition fallbackClueFor (w : Word) : string :=
  "This word means " ++ dquote ++ definition w ++ dquote
  ++ ". Complete this sentence: " ++ dquote
  ++ replace (word w) "____" (example w) ++ dquote.

(** The [catch] block of [startGame] (lines 246-291).  Speaking the
    clue may fail or not; both branches end in [listening_for_answer]. *)
Definition startGameFallback (app : AppModel) (draws : list N) : Outcome AppModel :=
  let gs := gameState app in
  match getRandomWord (match selectedLevel gs with
                       | ALL => None
                       | Lv l => Some l
                       end) draws with
  | Returned None rest =>
      Threw (ThrownError (typeError "Cannot read properties of undefined")) rest
  | Returned (Some w) rest =>
      let fallbackClue := fallbackClueFor w in
      let allWords := [word w; "example"; "answer"; "question"] in
      match sortRandomly allWords rest with
      | Returned shuffledOptions rest' =>
          Returned {| appState := listening_for_answer;
                      gameState := setChallenge w fallbackClue shuffledOptions gs;
                      aiService := aiService app;
                      currentInstruction := fallbackInstructionFor (speechMode gs) |}
                   rest'
      | Threw e rest' => Threw e rest'
      | Starved => Starved
      end
  | Threw e rest => Threw e rest
  | Starved => Starved
  end.

Definition withService (svc : option AIService.AIService) (app : AppModel) : AppModel := {|
  appState := appState app;
  gameState := gameState app;
  aiService := svc;
  currentInstruction := currentInstruction app
|}.

(** [startGame()]; [now] and [later] are the clock readings of
    [fetchWordAndClue]. *)
Definition startGame (app : AppModel) (now : Z) (later : Z * Z)
    (world : nat → Attempt) (draws : list N) : Outcome AppModel :=
  let gs := gameState app in
  match aiService app with
  | None => startGameFallback app draws
  | Some svc =>
      match fetchWordAndClue svc (selectedLevel gs) now later world draws with
      | (Returned wordAndClue rest, svc') =>
          Returned {| appState := listening_for_answer;
                      gameState := setChallenge (r_word wordAndClue) (r_clue wordAndClue)
                                     (r_multipleChoiceOptions wordAndClue) gs;
                      aiService := Some svc';
                      currentInstruction := instructionFor (speechMode gs) |}
                   rest
      | (Threw _ rest, svc') => startGameFallback (withService (Some svc') app) rest
      | (Starved, _) => Starved
      end
  end.

(** [handleCompleteReset()], as far as the game state goes. *)
Definition handleCompleteReset (app : AppModel) : AppModel := {|
  appState := setup;
  gameState := resetGame (gameState app);
  aiService := aiService app;
  currentInstruction := ""
|}.

End App.

(* ================================================================== *)
(** ** More string primitives *)
(* ================================================================== *)

Module JsText.

(** [hay.includes(needle)] *)
Fixpoint includes (needle hay : string) : bool :=
  String.prefix needle hay
  || match hay with
     | EmptyString => false
     | String _ r => includes needle r
     end.

(** [a || b] on strings: an empty [a] is falsy. *)
Definition orString (a b : string) : string :=
  if String.eqb a "" then b else a.

End JsText.

(* ================================================================== *)
(** ** The speech provider settings ([config/elevenlabs.config.js]) *)
(* ================================================================== *)

Module ElevenLabsConfig.
Import JsString.

Record Voice : Set := {
  v_id : string;
  v_name : string;
  v_gender : string;
  v_accent : string;
  v_description : string
}.

#[export] Instance Voice_eq_dec : EqDecision Voice.
Proof. solve_decision. Defined.

Definition rachel : Voice := {|
  v_id := "21m00Tcm4TlvDq8ikWAM"; v_name := "Rachel"; v_gender := "female";
  v_accent := "american";
  v_description := "Professional, clear voice - perfect for learning"
|}.

Definition adam : Voice := {|
  v_id := "pNInz6obpgDQGcFmaJgB"; v_name := "Adam"; v_gender := "male";
  v_accent := "american"; v_description := "Deep, authoritative voice"
|}.

Definition bella : Voice := {|
  v_id := "EXAVITQu4vr4xnSDxMaL"; v_name := "Bella"; v_gender := "female";
  v_accent := "american"; v_description := "Young, friendly voice"
|}.

(** [elevenLabsConfig.voices], its own properties in order. *)
Definition voices : list (string * Voice) :=
  [("rachel", rachel); ("adam", adam); ("bella", bella)].

Definition defaultVoiceId : string := "21m00Tcm4TlvDq8ikWAM".

(** [elevenLabsConfig.rateLimits] *)
Definition requestsPerMinute_config : Z := 60.
Definition retryAttempts : nat := 5.
Definition retryDelay : Z := 1500.

(** What reading a property of [voices] yields: one of its voices, or a
    member every object inherits. *)
Inductive Property : Set :=
| OwnVoice (v : Voice)
| Inherited (key : string).

(** [elevenLabsConfig.voices[key]] for a [key] in lower case.  Of the
    members an object literal inherits, [constructor] and [__proto__]
    are the two whose names have no capital letter; both are truthy. *)
Definition voicesAt (key : string) : option Property :=
  match list_find (λ kv, fst kv = key) voices with
  | Some (_, (_, v)) => Some (OwnVoice v)
  | None =>
      if String.eqb key "constructor" || String.eqb key "__proto__"
      then Some (Inherited key) else None
  end.

(** [getVoiceConfig(voiceIdentifier = 'rachel')] *)
Definition getVoiceConfig (voiceIdentifier : option string) : Property :=
  let voiceIdentifier := default "rachel" voiceIdentifier in
  match voicesAt (toLowerCase voiceIdentifier) with
  | Some voiceByName => voiceByName
  | None =>
      match list_find (λ kv, v_id (snd kv) = voiceIdentifier) voices with
      | Some (_, (_, voiceById)) => OwnVoice voiceById
      | None => OwnVoice rachel
      end
  end.

End ElevenLabsConfig.

(* ================================================================== *)
(** ** The speech service ([services/speechService.ts]) *)
(* ================================================================== *)

Module SpeechService.
Import JsString JsText ApiErrorHandler GameState ElevenLabsConfig.

(** An audio [Blob], as the bytes it holds. *)
Record Blob : Set := { audioBytes : list N }.

Record SpeechService : Set := {
  apiKey : string;
  rateLimiter : RateLimiter;
  speechMode : SpeechMode;
  audioCache : gmap string Blob
}.

(** [Object.values(this.commonPhrases)], in the order of the literal. *)
Definition commonPhrases : list string :=
  ["Excellent!"; "Not quite right."; "Listening..."; "Next word"; "Go home";
   "Try again"; "Well done!"; "Keep going!"; "Almost there!"; "Good job!";
   "Let's begin."; "Your turn."; "Please speak clearly.";
   "I didn't understand that."; "Say next word to continue.";
   "Say go home to return to the main menu."].

Definition priorityPhrases : list string :=
  ["Excellent!"; "Not quite right."; "Let's begin."; "Please speak clearly.";
   "Say next word to continue."; "Say go home to return to the main menu."].

(** The service as the constructor leaves it, before the pre-caching
    it starts has done anything. *)
Definition newSpeechService (apiKey : string) (speechMode : option SpeechMode)
    : SpeechService :=
  {| apiKey := apiKey;
     rateLimiter := newRateLimiter (Some requestsPerMinute_config);
     speechMode := default full speechMode;
     audioCache := ∅ |}.

Definition setSpeechMode (mode : SpeechMode) (svc : SpeechService) : SpeechService :=
  {| apiKey := apiKey svc; rateLimiter := rateLimiter svc;
     speechMode := mode; audioCache := audioCache svc |}.

Definition withLimiter (rl : RateLimiter) (svc : SpeechService) : SpeechService :=
  {| apiKey := apiKey svc; rateLimiter := rl;
     speechMode := speechMode svc; audioCache := audioCache svc |}.

Definition withCache (cache : gmap string Blob) (svc : SpeechService) : SpeechService :=
  {| apiKey := apiKey svc; rateLimiter := rateLimiter svc;
     speechMode := speechMode svc; audioCache := cache |}.

(** [clearCache()] *)
Definition clearCache (svc : SpeechService) : SpeechService := withCache ∅ svc.

(** [getCacheStats()] *)
Definition getCacheStats (svc : SpeechService) : nat * list string :=
  (size (audioCache svc), fst <$> map_to_list (audioCache svc)).

(** The test both [preCacheCommonPhrases] and [speakText] make of the
    key: present, not the placeholder, ten characters at least. *)
Definition keyIsUsable (apiKey : string) : bool :=
  negb (String.eqb apiKey "")
  && negb (String.eqb apiKey "your_elevenlabs_api_key_here")
  && negb (String.length apiKey <? 10)%nat.

(** What one [fetch] of the synthesis endpoint does; a 2xx reply is
    given by what reading its body as a blob will yield. *)
Inductive SpeechReply : Set :=
| SpeechRejects (e : JsError)
| SpeechHttpError (status : Z) (statusText : string)
| SpeechOk (body : Settled Blob).

Record SpeechAttempt : Set := { s_clock : Z; s_reply : SpeechReply }.

(** One call of [generateAudioBlob] as the world meets it: the clock
    when the limiter is asked, the two readings
    [getTimeUntilNextRequest] takes when it has refused, and the
    attempts. *)
Record Call : Type := {
  c_now : Z;
  c_later : Z * Z;
  c_world : nat → SpeechAttempt
}.

(** The function handed to [retryWithBackoff] (lines 214-266). *)
Definition requestSpeech (world : nat → SpeechAttempt) (attempt : nat)
    (rl : RateLimiter) : Settled (Settled Blob) * RateLimiter :=
  let rl' := recordRequest (s_clock (world attempt)) rl in
  match s_reply (world attempt) with
  | SpeechRejects e => (Rejected (ThrownError e), rl')
  | SpeechHttpError status statusText =>
      let msg :=
        if (status =? 401)%Z then
          "Invalid ElevenLabs API key. Please check your API key configuration."
        else if (status =? 429)%Z then
          "ElevenLabs rate limit exceeded. Please wait a moment and try again."
        else if (status =? 402)%Z then
          "ElevenLabs quota exceeded. Please check your billing and usage limits."
        else "ElevenLabs API error (" ++ pretty status ++ "): " ++ statusText in
      (Rejected (ThrownError (newError msg)), rl')
  | SpeechOk body => (Fulfilled body, rl')
  end.

(** [Math.ceil(waitTime / 1000)] as text. *)
Definition secondsText (waitTime : JsNum) : string :=
  match waitTime with
  | Finite w => pretty ((w + 999) / 1000)%Z
  | Infinity => "Infinity"
  end.

(** [generateAudioBlob(text, voiceId)].  The text and the voice go into
    the request only; what comes back is the world's. *)
Definition generateAudioBlob (call : Call) (svc : SpeechService)
    : Settled Blob * SpeechService :=
  let '(ok, rl) := canMakeRequest (c_now call) (rateLimiter svc) in
  if negb ok then
    let '(waitTime, rl') :=
      getTimeUntilNextRequest (fst (c_later call)) (snd (c_later call)) rl in
    (Rejected (ThrownError (newError
       ("ElevenLabs rate limit exceeded. Please wait " ++ secondsText waitTime
        ++ " seconds."))),
     withLimiter rl' svc)
  else
    let run := retryWithBackoff (requestSpeech (c_world call))
                 retryAttempts retryDelay rl in
    let svc' := withLimiter (final run) svc in
    match settled run with
    | Fulfilled body => (body, svc')
    | Rejected error => (Rejected error, svc')
    end.

(** [cachePhrase(text)] *)
Definition cachePhrase (text : string) (call : Call) (svc : SpeechService)
    : SpeechService :=
  match audioCache svc !! text with
  | Some _ => svc
  | None =>
      match generateAudioBlob call svc with
      | (Fulfilled audioBlob, svc') => withCache (<[text := audioBlob]> (audioCache svc')) svc'
      | (Rejected _, svc') => svc'
      end
  end.

(** The loop of [preCacheCommonPhrases] over the phrases left, the
    first of them being the [i]-th. *)
Fixpoint cacheEach (phrases : list string) (i : nat) (calls : nat → Call)
    (svc : SpeechService) : SpeechService :=
  match phrases with
  | [] => svc
  | phrase :: phrases' => cacheEach phrases' (S i) calls (cachePhrase phrase (calls i) svc)
  end.

(** [preCacheCommonPhrases()]; [calls i] is the world of the [i]-th
    phrase. *)
Definition preCacheCommonPhrases (calls : nat → Call) (svc : SpeechService)
    : SpeechService :=
  if negb (keyIsUsable (apiKey svc)) || bool_decide (speechMode svc = disabled) then svc
  else cacheEach priorityPhrases 0 calls svc.

(** [error.message] of whatever was thrown. *)
Definition messageOf (error : Thrown) : string :=
  match error with
  | ThrownError e => message e
  | ThrownAPIError e => api_message e
  | ThrownUndefined => "undefined"
  end.

(** The [catch] of [speakWithElevenLabs]. *)
Definition rethrowSpeech (error : Thrown) : Thrown :=
  match error with
  | ThrownError e =>
      ThrownError (newError ("ElevenLabs API Error: "
                             ++ api_message (handleElevenLabsError e)))
  | ThrownAPIError e =>
      ThrownError (newError ("ElevenLabs API Error: "
                             ++ orString (api_message e)
                                  "An unexpected error occurred during speech synthesis"))
  | ThrownUndefined =>
      ThrownError (typeError "Cannot read properties of undefined")
  end.

(** [Object.values(this.commonPhrases).find(phrase => phrase === text)] *)
Definition exactMatch (text : string) : option string :=
  snd <$> list_find (λ phrase, phrase = text) commonPhrases.

(** [speakWithElevenLabs(text, voiceId)]; [playback] is how playing the
    audio ends: [None] when it plays to the end, the error otherwise.
    The promise of the playback is returned, not awaited, so its
    rejection passes the [catch] by. *)
Definition speakWithElevenLabs (text : string) (call : Call)
    (playback : option Thrown) (svc : SpeechService)
    : Settled unit * SpeechService :=
  match generateAudioBlob call svc with
  | (Rejected error, svc') => (Rejected (rethrowSpeech error), svc')
  | (Fulfilled audioBlob, svc') =>
      let svc'' :=
        match exactMatch text with
        | Some phrase =>
            match audioCache svc' !! phrase with
            | None => withCache (<[phrase := audioBlob]> (audioCache svc')) svc'
            | Some _ => svc'
            end
        | None => svc'
        end in
      match playback with
      | None => (Fulfilled (), svc'')
      | Some error => (Rejected error, svc'')
      end
  end.

(** [speakText], from line 168 on: the text is the optimized one. *)
Definition speakOptimized (optimizedText : string) (call : Call)
    (cachePlayback apiPlayback : option Thrown) (svc : SpeechService)
    : Settled unit * SpeechService :=
  if String.eqb optimizedText "" then (Fulfilled (), svc)
  else
    let playedFromCache :=
      match exactMatch optimizedText with
      | Some phrase =>
          match audioCache svc !! phrase with
          | Some _ => match cachePlayback with None => true | Some _ => false end
          | None => false
          end
      | None => false
      end in
    if playedFromCache then (Fulfilled (), svc)
    else if negb (keyIsUsable (apiKey svc)) then
      (Rejected (ThrownError (newError
         "Valid ElevenLabs API key is required for high-quality speech synthesis.")),
       svc)
    else
      match speakWithElevenLabs optimizedText call apiPlayback svc with
      | (Fulfilled u, svc') => (Fulfilled u, svc')
      | (Rejected error, svc') =>
          (Rejected (ThrownError (newError
             ("ElevenLabs speech synthesis failed: " ++ messageOf error))), svc')
      end.

(** [optimizeTextForSpeech(text)].  The rewriting of the concise mode, a
    chain of regular-expression replacements, is the argument
    [rewriteConcise]. *)
Definition optimizeTextForSpeech (rewriteConcise : string → string)
    (text : string) (svc : SpeechService) : string :=
  match speechMode svc with
  | disabled => ""
  | concise => rewriteConcise text
  | full => text
  end.

(** [speakText(text, voiceId)] *)
Definition speakText (rewriteConcise : string → string) (text : string)
    (call : Call) (cachePlayback apiPlayback : option Thrown) (svc : SpeechService)
    : Settled unit * SpeechService :=
  if bool_decide (speechMode svc = disabled) then (Fulfilled (), svc)
  else speakOptimized (optimizeTextForSpeech rewriteConcise text svc)
         call cachePlayback apiPlayback svc.

End SpeechService.

(* ================================================================== *)
(** ** The environment settings ([config/environment.config.js]) *)
(* ================================================================== *)

Module EnvironmentConfig.
Import JsString JsText.

(** An entry of [envSchema]; every entry has type ['string']. *)
Record EnvSpec : Set := {
  e_key : string;
  e_required : bool;
  e_default : option string
}.

Definition envSchema : list EnvSpec := [
  {| e_key := "VITE_OPENAI_API_KEY"; e_required := false; e_default := None |};
  {| e_key := "VITE_ELEVENLABS_API_KEY"; e_required := false; e_default := None |};
  {| e_key := "VITE_APP_NAME"; e_required := false; e_default := Some "VocAIbulary" |};
  {| e_key := "VITE_APP_VERSION"; e_required := false; e_default := Some "1.0.0" |};
  {| e_key := "VITE_ENVIRONMENT"; e_required := false; e_default := Some "development" |}
].

(** [import.meta.env]: the string variables, and the two flags the
    bundler sets. *)
Record Env : Type := {
  vars : gmap string string;
  DEV : bool;
  PROD : bool
}.

(** A value is truthy when it is set and not empty. *)
Definition truthy (value : option string) : bool :=
  match value with
  | Some v => negb (String.eqb v "")
  | None => false
  end.

Record Validation : Set := {
  isValid : bool;
  errors : list string;
  warnings : list string
}.

(** The body of the [forEach] of [validateEnvironment] for one entry.
    The type check cannot fire: a value that is set is a string. *)
Definition checkEntry (env : Env) (acc : list string * list string) (spec : EnvSpec)
    : list string * list string :=
  let '(errors, warnings) := acc in
  let value := vars env !! e_key spec in
  if e_required spec
     && (negb (truthy value) || String.eqb (trim (default "" value)) "") then
    ((errors ++ ["Required environment variable " +:+ e_key spec +:+ " is missing"])%list,
     warnings)
  else if includes "API_KEY" (e_key spec) && truthy value
          && (includes "your_" (default "" value) || includes "_here" (default "" value))
  then (errors, (warnings ++ [e_key spec +:+ " appears to be using a placeholder value"])%list)
  else (errors, warnings).

Definition validateAgainst (schema : list EnvSpec) (env : Env) : Validation :=
  let '(errors, warnings) := foldl (checkEntry env) ([], []) schema in
  {| isValid := (length errors =? 0)%nat; errors := errors; warnings := warnings |}.

(** [validateEnvironment()] *)
Definition validateEnvironment (env : Env) : Validation := validateAgainst envSchema env.

(** [value || schema.default || null] *)
Definition configValue (env : Env) (spec : EnvSpec) : option string :=
  if truthy (vars env !! e_key spec) then vars env !! e_key spec
  else if truthy (e_default spec) then e_default spec
  else None.

(** [getEnvironmentConfig()]: the object, as its entries in order. *)
Definition getEnvironmentConfig (env : Env) : list (string * option string) :=
  (λ spec, (e_key spec, configValue env spec)) <$> envSchema.

(** [isDevelopment()] *)
Definition isDevelopment (env : Env) : bool :=
  DEV env || bool_decide (vars env !! "VITE_ENVIRONMENT" = Some "development").

(** [isProduction()] *)
Definition isProduction (env : Env) : bool :=
  PROD env || bool_decide (vars env !! "VITE_ENVIRONMENT" = Some "production").

(** [getEnvironment()] *)
Definition getEnvironment (env : Env) : string :=
  if truthy (vars env !! "VITE_ENVIRONMENT")
  then default "" (vars env !! "VITE_ENVIRONMENT") else "development".

End EnvironmentConfig.

(* ================================================================== *)
(** ** Voice commands, feedback and the input guards
       ([App.tsx], [components/GameInterface.tsx]) *)
(* ================================================================== *)

Module AppFlow.
Import JsString JsText ApiErrorHandler JsMath Oxford3000 AIService GameState App.

(** [${gameState.currentWord?.word}] *)
Definition wordText (gs : GameState.GameState) : string :=
  match currentWord gs with
  | Some w => word w
  | None => "undefined"
  end.

Definition navigationHint : string :=
  "Say " ++ dquote ++ "next word" ++ dquote ++ " to continue, or say " ++ dquote
  ++ "go home" ++ dquote ++ " to return to the main menu.".

(** The feedback text of the conversational flow (lines 71-86). *)
Definition feedbackText (gs : GameState.GameState) (isCorrect : bool) : string :=
  match speechMode gs with
  | concise =>
      if isCorrect
      then "Correct! The word was " ++ wordText gs ++ ". Say next word or go home."
      else "Incorrect. The word was " ++ wordText gs ++ ". Say next word or go home."
  | full =>
      if isCorrect
      then "Excellent work! The correct word was " ++ wordText gs ++ ". " ++ navigationHint
      else "Not quite right. The correct word was " ++ wordText gs
           ++ ". Don't worry, let's try another one. " ++ navigationHint
  | disabled =>
      if isCorrect
      then "Correct! The word was " ++ wordText gs ++ "."
      else "Incorrect. The word was " ++ wordText gs ++ "."
  end.

(** The [feedback] case of the conversational flow.  Speaking the text
    may fail; the failure is logged and the flow goes on. *)
Definition feedbackStep (app : AppModel) : AppModel :=
  match appState app, isCorrect (gameState app) with
  | feedback, Some verdict =>
      {| appState := listening_for_command;
         gameState := gameState app;
         aiService := aiService app;
         currentInstruction := feedbackText (gameState app) verdict |}
  | _, _ => app
  end.

(** [handleNextWord()] *)
Definition handleNextWord (app : AppModel) (now : Z) (later : Z * Z)
    (world : nat → Attempt) (draws : list N) : Outcome AppModel :=
  startGame {| appState := appState app;
               gameState := nextWord (gameState app);
               aiService := aiService app;
               currentInstruction := currentInstruction app |} now later world draws.

Definition notUnderstood (mode : SpeechMode) : string :=
  match mode with
  | concise => "Try again. Say next word or go home."
  | _ => "I didn't understand that command. Please say " ++ dquote ++ "next word"
         ++ dquote ++ " to continue or " ++ dquote ++ "go home" ++ dquote
         ++ " to return to the main menu."
  end.

Definition isListeningForCommand (s : AppState) : bool :=
  match s with listening_for_command => true | _ => false end.

(** [startListeningForCommand()], when no listening is under way;
    [heard] is how the recognition session settles.  Speaking the
    not-understood message may fail: the [catch] sets the same state. *)
Definition startListeningForCommand (heard : Settled string) (app : AppModel)
    (now : Z) (later : Z * Z) (world : nat → Attempt) (draws : list N)
    : Outcome AppModel :=
  if bool_decide (speechMode (gameState app) = disabled) then Returned app draws
  else match heard with
  | Rejected _ =>
      Returned {| appState := listening_for_command; gameState := gameState app;
                  aiService := aiService app;
                  currentInstruction := currentInstruction app |} draws
  | Fulfilled transcript =>
      let command := trim (toLowerCase transcript) in
      if includes "next word" command && isListeningForCommand (appState app) then
        handleNextWord app now later world draws
      else if includes "go home" command then
        Returned (handleCompleteReset app) draws
      else
        Returned {| appState := listening_for_command; gameState := gameState app;
                    aiService := aiService app;
                    currentInstruction := notUnderstood (speechMode (gameState app)) |}
                 draws
  end.

(** [startListeningForAnswer()], likewise. *)
Definition startListeningForAnswer (heard : Settled string) (app : AppModel) : AppModel :=
  if bool_decide (speechMode (gameState app) = disabled) then app
  else match heard with
  | Rejected _ =>
      {| appState := listening_for_answer; gameState := gameState app;
         aiService := aiService app; currentInstruction := currentInstruction app |}
  | Fulfilled transcript => heardAnswer transcript app
  end.

(** The [showAnswer] property the interface receives. *)
Definition showAnswerProp (app : AppModel) : bool :=
  match appState app with
  | feedback | listening_for_command => true
  | _ => false
  end.

(** [handleMultipleChoiceClick(option)] of the interface. *)
Definition handleMultipleChoiceClick (option : string) (app : AppModel) : AppModel :=
  if showAnswerProp app then app else handleMultipleChoiceAnswer option app.

(** [handleManualSubmit()] of the interface: the text field and the
    application after it. *)
Definition handleManualSubmit (manualAnswer : string) (app : AppModel)
    : string * AppModel :=
  if String.eqb (trim manualAnswer) ""
     || match currentWord (gameState app) with None => true | Some _ => false end
  then (manualAnswer, app)
  else ("", handleManualAnswer (trim manualAnswer) app).

End AppFlow.

(* ================================================================== *)
(** ** The speech mode kept in [localStorage] ([useGameState]) *)
(* ================================================================== *)

Module Persistence.
Import AIService GameState.

(** The item [speechMode] of [localStorage]: absent, or a mode the hook
    wrote. *)
Definition Storage : Set := option SpeechMode.

(** What [updateGameState] writes: the new speech mode, when the update
    carries one that differs from the current one. *)
Definition store (a : Action) (prev : GameState) (storage : Storage) : Storage :=
  match a with
  | SetSpeechMode mode =>
      if decide (mode ≠ speechMode prev) then Some mode else storage
  | _ => storage
  end.

(** A session: the state and the storage after a history of updates,
    oldest first, started with the storage [storage]. *)
Definition session (storage : Storage) (history : list Action) : GameState * Storage :=
  foldl (λ '(gs, st) a, (applyAction gs a, store a gs st))
        (startState storage, storage) history.

End Persistence.

(* ================================================================== *)
(** ** Notions used to state the properties *)
(* ================================================================== *)

Module Notions.
Import JsString ApiErrorHandler JsMath Oxford3000 AIService GameState App.

(** What the statistics satisfy between updates. *)
Definition statsSound (s : GameStats) : Prop :=
  (totalAttempted s = correctAnswers s + incorrectAnswers s
   ∧ 0 ≤ correctAnswers s ∧ 0 ≤ incorrectAnswers s
   ∧ 0 ≤ currentStreak s ∧ currentStreak s ≤ bestStreak s)%Z.

(** The classification rule of the specification, by status code. *)
Definition ruleByStatus (status : Z) : ErrorType :=
  if bool_decide (status = 401 ∨ status = 403)%Z then AUTHENTICATION
  else if bool_decide (status = 429)%Z then RATE_LIMIT
  else if bool_decide (status = 402)%Z then QUOTA_EXCEEDED
  else if bool_decide (400 ≤ status < 500)%Z then VALIDATION
  else if bool_decide (500 ≤ status < 600)%Z then SERVER
  else UNKNOWN.

(** An error that carries the HTTP response [status], [data]. *)
Definition httpFailure (nm msg : string) (status : Z) (d : ResponseData) (req : bool)
    : JsError :=
  {| name := nm; message := msg;
     response := Some {| status := status; data := d |}; request := req |}.

(** The comparisons a sort of [todo] more elements can need. *)
Fixpoint comparisonsBound (todo placed : nat) : nat :=
  match todo with
  | O => O
  | S todo' => placed + comparisonsBound todo' (S placed)
  end.

(** The entries of [pool] that have the part of speech of [correctWord]
    and another word, case ignored. *)
Definition alternativesOf (correctWord : Word) (pool : list Word) : list Word :=
  filter (λ w, partOfSpeech w = partOfSpeech correctWord
               ∧ toLowerCase (word w) ≠ toLowerCase (word correctWord)) pool.

(** What [usedWords] holds once [incorrect] has been chosen. *)
Definition usedBy (correctWord : Word) (incorrect : list string) : gset string :=
  {[toLowerCase (word correctWord)]} ∪ list_to_set (toLowerCase <$> incorrect).

(** The invariant of both loops: the set mirrors the array, the array
    has no two entries equal up to case, none is the correct word up to
    case, and every entry comes from [source]. *)
Record Chosen (correctWord : Word) (source : string → Prop)
    (incorrect : list string) (used : gset string) : Prop := {
  chosen_used : used = usedBy correctWord incorrect;
  chosen_NoDup : NoDup (toLowerCase <$> incorrect);
  chosen_other : toLowerCase (word correctWord) ∉ toLowerCase <$> incorrect;
  chosen_source : Forall source incorrect
}.

(** The lower-cased words of [availableWords] not yet used. *)
Definition freshWords (avail : list Word) (used : gset string) : gset string :=
  list_to_set (toLowerCase <$> (word <$> avail)) ∖ used.

(** The options invariant of a challenge: four entries, no two equal up
    to case, the target among them exactly once. *)
Definition optionsWellFormed (target : string) (options : list string) : Prop :=
  length options = 4
  ∧ NoDup (toLowerCase <$> options)
  ∧ length (filter (λ o, o = target) options) = 1.

(** The array the fallback path shuffles. *)
Definition fallbackWords (target : Word) : list string :=
  [word target; "example"; "answer"; "question"].

(** The primary path of [startGame] fails: there is no service, or
    [fetchWordAndClue] throws. *)
Definition primaryFails (app : AppModel) (now : Z) (later : Z * Z)
    (world : nat → Attempt) (draws : list N) : Prop :=
  match aiService app with
  | None => True
  | Some svc =>
      ∃ e rest,
        fst (fetchWordAndClue svc (selectedLevel (gameState app)) now later world draws)
          = Threw e rest
  end.

(** What the fallback path leaves behind for the target [target]. *)
Definition fellBackTo (app app' : AppModel) (target : Word) : Prop :=
  currentWord (gameState app') = Some target
  ∧ target ∈ oxford3000Words
  ∧ (∀ l, selectedLevel (gameState app) = Lv l → level target = l)
  ∧ currentClue (gameState app') = fallbackClueFor target
  ∧ multipleChoiceOptions (gameState app') ≡ₚ fallbackWords target
  ∧ length (multipleChoiceOptions (gameState app')) = 4
  ∧ word target ∈ multipleChoiceOptions (gameState app')
  ∧ isPlaying (gameState app') = true
  ∧ isCorrect (gameState app') = None
  ∧ gameStats (gameState app') = gameStats (gameState app)
  ∧ selectedLevel (gameState app') = selectedLevel (gameState app)
  ∧ appState app' = listening_for_answer.

(** Case analysis on the comparisons of a status code. *)
Ltac by_status :=
  repeat match goal with
         | |- context [(?a =? ?b)%Z] => destruct (Z.eqb_spec a b); subst; simpl
         | |- context [(?a <=? ?b)%Z] => destruct (Z.leb_spec a b); simpl
         | |- context [(?a <? ?b)%Z] => destruct (Z.ltb_spec a b); simpl
         | |- context [bool_decide ?P] => destruct (bool_decide_reflect P); simpl
         end; try reflexivity; try lia.

End Notions.

(** ** Sample inputs *)

Module Samples.
Import JsString ApiErrorHandler JsMath Oxford3000 AIService GameState App.

(** The no-break space, U+00A0. *)
Definition nbsp : string := String (ascii_of_nat 160) EmptyString.

(** The word of the prompt's sample reply. *)
Definition exampleWord : Word := {|
  word := "example"; level := A1;
  definition := "a thing that is representative of all such things in a group";
  example := "This is a good example of modern art.";
  partOfSpeech := "noun"
|}.

(** A silent-mode round whose target is that word. *)
Definition exampleApp : AppModel := {|
  appState := listening_for_answer;
  gameState := setChallenge exampleWord "Can you give me an ____ of what you mean?"
                 ["example"; "about"; "above"; "across"] (startState None);
  aiService := None;
  currentInstruction := ""
|}.

(** The first entry of the store. *)
Definition aboutWord : Word := {|
  word := "about"; level := A1; definition := "on the subject of; concerning";
  example := "Tell me about your day."; partOfSpeech := "preposition"
|}.

(** The store's entry for [answer]. *)
Definition answerWord : Word := {|
  word := "answer"; level := A1;
  definition := "a thing said, written, or done to deal with or as a reaction to a question";
  example := "What's your answer to the question?"; partOfSpeech := "noun"
|}.

(** The message of the error thrown on a 401. *)
Definition invalidKeyMessage : string :=
  "Invalid OpenAI API key. Please check your API key configuration.".

(** A limiter with a ceiling of 1 after requests at 0 ms and 1000 ms. *)
Definition saturated : RateLimiter :=
  recordRequest 1000 (recordRequest 0 (newRateLimiter (Some 1%Z))).

(** A session set to level A1, with a well-formed key. *)
Definition a1App : AppModel := {|
  appState := setup;
  gameState := setLevel (Lv A1) (startState None);
  aiService := Some (newAIService "sk-0123456789abcdefghij");
  currentInstruction := ""
|}.

(** A provider that answers 401 to every request. *)
Definition unauthorizedWorld : nat → Attempt :=
  λ k, {| clock := Z.of_nat k * 1000; reply := HttpError 401 "Unauthorized" |}.

(** An entry whose word is a stored determiner with a capital letter. *)
Definition capitalAll : Word := {|
  word := "All"; level := A1; definition := "the whole quantity or extent of";
  example := "All students must attend."; partOfSpeech := "determiner"
|}.

End Samples.

(* ================================================================== *)
(** ** Notions for the retry loop, the statistics and the caches *)
(* ================================================================== *)

Module Measures.
Import JsString JsText ApiErrorHandler JsMath Oxford3000 AIService GameState App.

(** The state the wrapped function of a retry leaves after [n]
    invocations numbered [a], [a + 1], ... *)
Fixpoint runFrom {St A : Type} (fn : nat → St → Settled A * St)
    (a n : nat) (s : St) : St :=
  match n with
  | O => s
  | S n' => runFrom fn (S a) n' (snd (fn a s))
  end.

(** The delays of an exponential backoff that sleeps [n] times. *)
Definition backoffDelays (baseDelay : Z) (n : nat) : list Z :=
  (λ i, baseDelay * 2 ^ Z.of_nat i)%Z <$> seq 0 n.

(** A settled promise that is not a rejection the loop would retry. *)
Definition conclusive {A : Type} (r : Settled A) : Prop :=
  match r with
  | Fulfilled _ => True
  | Rejected e => nonRetryable e = true
  end.

(** The HTTP status an error carries, if any. *)
Definition statusOf (error : JsError) : option Z := status <$> response error.

(** The length of the run of correct answers a list of verdicts
    starts with. *)
Fixpoint leadingRun (answers : list bool) : nat :=
  match answers with
  | true :: rest => S (leadingRun rest)
  | _ => 0
  end.

(** The length of the run of correct answers that ends a list of
    verdicts, oldest first. *)
Definition trailingRun (answers : list bool) : nat := leadingRun (rev answers).

(** The length of the longest run of correct answers. *)
Fixpoint longestRun (answers : list bool) : nat :=
  match answers with
  | [] => 0
  | _ :: rest => max (leadingRun answers) (longestRun rest)
  end.

(** The verdicts a history records after its last reset. *)
Definition answersSinceReset (history : list Action) : list bool :=
  foldl (λ acc a, match a with
                  | UpdateStats b => acc ++ [b]
                  | ResetGame => []
                  | _ => acc
                  end)%list [] history.

(** The statistics that describe a list of verdicts. *)
Definition tally (answers : list bool) : GameStats := {|
  totalAttempted := Z.of_nat (length answers);
  correctAnswers := Z.of_nat (length (filter (λ b, b = true) answers));
  incorrectAnswers := Z.of_nat (length (filter (λ b, b = false) answers));
  currentStreak := Z.of_nat (trailingRun answers);
  bestStreak := Z.of_nat (longestRun answers)
|}.

(** The blank of a clue. *)
Definition blank : string := "____".

(** A well-formed challenge in the words of the specification: four
    options, distinct up to case, with the target's word among them
    exactly once, and a clue that contains a blank. *)
Definition challengeWellFormed (target : Word) (clue : string)
    (options : list string) : Prop :=
  Notions.optionsWellFormed (word target) options ∧ includes blank clue = true.

(** The parts of the game state a new round leaves alone. *)
Definition sameSettings (gs gs' : GameState.GameState) : Prop :=
  gameStats gs' = gameStats gs
  ∧ selectedLevel gs' = selectedLevel gs
  ∧ speechMode gs' = speechMode gs.

(** A round is laid out: a word, four options with the word among
    them, nothing answered yet. *)
Definition roundLaidOut (app : AppModel) : Prop :=
  appState app = listening_for_answer
  ∧ isPlaying (gameState app) = true
  ∧ showAnswer (gameState app) = false
  ∧ isCorrect (gameState app) = None
  ∧ lastAnswer (gameState app) = ""
  ∧ selectedChoice (gameState app) = None
  ∧ ∃ w, currentWord (gameState app) = Some w
         ∧ length (multipleChoiceOptions (gameState app)) = 4%nat
         ∧ word w ∈ multipleChoiceOptions (gameState app).

End Measures.

(** ** More sample inputs *)

Module Specimens.
Import JsString ApiErrorHandler JsMath Oxford3000 AIService GameState App.

(** A complete reply of the provider, with a capital in the word and
    no example. *)
Definition journeyReply : ParsedResponse := {|
  p_word := "Journey"; p_level := Some A2;
  p_definition := "an act of travelling from one place to another";
  p_example := ""; p_partOfSpeech := "noun";
  p_clue := "We set off on a long ____ across the country."
|}.

Definition keyedService : AIService.AIService := newAIService "sk-0123456789abcdefghij".

(** A provider that answers every request with that reply. *)
Definition answeringWorld : nat → Attempt :=
  λ k, {| clock := Z.of_nat k * 1000; reply := HttpOk (Content (Some journeyReply)) |}.

(** A provider that fails once with a 503 and answers then. *)
Definition flakyWorld : nat → Attempt :=
  λ k, {| clock := Z.of_nat k * 1000;
          reply := if (k =? 1)%nat then HttpError 503 "Service Unavailable"
                   else HttpOk (Content (Some journeyReply)) |}.

(** A provider whose first reply is a 2xx one with a body that is not
    JSON, and which answers then. *)
Definition garbledWorld : nat → Attempt :=
  λ k, {| clock := Z.of_nat k * 1000;
          reply := if (k =? 1)%nat then
                     HttpOkUnreadable
                       {| name := "SyntaxError"; message := "Unexpected token < in JSON";
                          response := None; request := false |}
                   else HttpOk (Content (Some journeyReply)) |}.

(** Draws that spread over the unit interval. *)
Definition spreadDraws : list N :=
  [0; 2 ^ 52; 2 ^ 51; 3 * 2 ^ 51; 2 ^ 50; 5 * 2 ^ 50; 7 * 2 ^ 50; 2 ^ 49]%N.

(** Draws of which the first selects the seventh of twenty entries. *)
Definition allDraws : list N := [6 * 2 ^ 53 / 20 + 1; 0; 0; 0; 0; 0; 0]%N.

(** The store's entry for [all]. *)
Definition allWord : Word := {|
  word := "all"; level := A1; definition := "the whole quantity or extent of";
  example := "All students must attend."; partOfSpeech := "determiner"
|}.

(** A session in the middle of a round, in a speaking mode. *)
Definition spokenRound : AppModel := {|
  appState := listening_for_command;
  gameState := updateStats true
                 (setAnswer "about"
                    (setChallenge Samples.aboutWord "Tell me ____ your day."
                       ["about"; "example"; "answer"; "question"]
                       (startState (Some concise))));
  aiService := None;
  currentInstruction := ""
|}.

End Specimens.

Module SpeechSpecimens.
Import JsString ApiErrorHandler GameState ElevenLabsConfig SpeechService.

(** The cache holds common phrases only. *)
Definition holdsCommonPhrases (svc : SpeechService.SpeechService) : Prop :=
  ∀ k, is_Some (audioCache svc !! k) → k ∈ commonPhrases.

(** A synthesis endpoint that answers 401 to every request. *)
Definition refusingCall : Call :=
  {| c_now := 0; c_later := (0, 0)%Z;
     c_world := λ k, {| s_clock := Z.of_nat k * 1000;
                        s_reply := SpeechHttpError 401 "Unauthorized" |} |}.

(** One that delivers three bytes of audio every time. *)
Definition deliveringCall : Call :=
  {| c_now := 0; c_later := (0, 0)%Z;
     c_world := λ k, {| s_clock := Z.of_nat k * 1000;
                        s_reply := SpeechOk (Fulfilled {| audioBytes := [73; 68; 51]%N |}) |} |}.

(** A service with a key of ten characters, in the full mode. *)
Definition keyedSpeech : SpeechService.SpeechService :=
  newSpeechService "0123456789" None.

End SpeechSpecimens.

Module EnvNotions.
Import JsText EnvironmentConfig.

(** A value that looks like the placeholder of the sample settings. *)
Definition isPlaceholder (value : option string) : bool :=
  match value with
  | Some v => includes "your_" v || includes "_here" v
  | None => false
  end.

Definition placeholderWarning (key : string) : string :=
  key +:+ " appears to be using a placeholder value".

(** Settings with nothing set, in a production build. *)
Definition bareProduction : Env := {| vars := ∅; DEV := false; PROD := true |}.

(** Settings that still hold the sample key. *)
Definition sampleSettings : Env :=
  {| vars := {[ "VITE_OPENAI_API_KEY" := "your_openai_api_key_here" ]};
     DEV := true; PROD := false |}.

End EnvNotions.

(* ================================================================== *)
(** * Properties *)
(* ================================================================== *)

(** ** Strings *)

Module JsStringFacts.
Import JsString.

Lemma is_space_lower_char (c : ascii) : is_space (lower_char c) = is_space c.
Proof. destruct c as [[] [] [] [] [] [] [] []]; reflexivity. Qed.

Lemma lower_char_idem (c : ascii) : lower_char (lower_char c) = lower_char c.
Proof. destruct c as [[] [] [] [] [] [] [] []]; reflexivity. Qed.

Lemma toLowerCase_idem (s : string) : toLowerCase (toLowerCase s) = toLowerCase s.
Proof. induction s as [|c s IH]; simpl; [reflexivity|]. by rewrite lower_char_idem, IH. Qed.

Lemma trimStart_toLowerCase (s : string) :
  trimStart (toLowerCase s) = toLowerCase (trimStart s).
Proof.
  induction s as [|c s IH]; simpl; [reflexivity|].
  rewrite is_space_lower_char. destruct (is_space c); [exact IH | reflexivity].
Qed.

Lemma trimEnd_toLowerCase (s : string) :
  trimEnd (toLowerCase s) = toLowerCase (trimEnd s).
Proof.
  induction s as [|c s IH]; simpl; [reflexivity|].
  rewrite IH, is_space_lower_char.
  destruct (trimEnd s); simpl; [destruct (is_space c)|]; reflexivity.
Qed.

(** Lower-casing and trimming commute, so the order in which the
    handlers apply them does not matter. *)
Lemma trim_toLowerCase (s : string) : trim (toLowerCase s) = toLowerCase (trim s).
Proof. unfold trim. by rewrite trimStart_toLowerCase, trimEnd_toLowerCase. Qed.

Lemma eqb_true_iff (a b : string) : String.eqb a b = true ↔ a = b.
Proof. apply String.eqb_eq. Qed.

End JsStringFacts.

(** ** Grading *)

Module GradingFacts.
Import JsString JsStringFacts Oxford3000 AIService GameState App.
Import Notions Samples.

Lemma gradeAnswer_true_iff (w : Word) (answer : string) :
  gradeAnswer w answer = true ↔ toLowerCase (trim answer) = toLowerCase (word w).
Proof. unfold gradeAnswer. by rewrite eqb_true_iff, trim_toLowerCase. Qed.

Lemma gradeAnswer_Example (w : Word) :
  gradeAnswer w " Example " = true ↔ toLowerCase (word w) = "example".
Proof.
  rewrite gradeAnswer_true_iff.
  change (toLowerCase (trim " Example ")) with "example".
  split; intros H; symmetry; exact H.
Qed.

Lemma gradeAnswer_nbsp (w : Word) :
  gradeAnswer w (nbsp ++ "EXAMPLE" ++ nbsp) = true ↔ toLowerCase (word w) = "example".
Proof.
  rewrite gradeAnswer_true_iff.
  change (toLowerCase (trim (nbsp ++ "EXAMPLE" ++ nbsp))) with "example".
  split; intros H; symmetry; exact H.
Qed.

(** C4.  For every challenge and every submitted text of characters
    up to U+00FF (on which [trim] and [toLowerCase] are the JavaScript
    functions, the no-break space and the accented capitals included)
    the three answer handlers grade by the same test, which is true
    exactly when the text, trimmed and lower-cased, equals the target
    word lower-cased.  So [" Example "] is graded true exactly when the
    target word reads [example] once case is ignored (when it is
    [example] itself for a target held in lower case, as every produced
    target is), and so is [EXAMPLE] between two no-break spaces; and
    against the target [example] a text is graded true exactly when it
    normalises to [example]. *)
Theorem gradeAnswer_trimmed_case_insensitive (app : AppModel) (w : Word) (submitted : string) :
  (gradeAnswer w submitted = true
     ↔ toLowerCase (trim submitted) = toLowerCase (word w))
  ∧ (gradeAnswer w " Example " = true ↔ toLowerCase (word w) = "example")
  ∧ (gradeAnswer w (nbsp ++ "EXAMPLE" ++ nbsp) = true
       ↔ toLowerCase (word w) = "example")
  ∧ (toLowerCase (word w) = word w →
       (gradeAnswer w " Example " = true ↔ word w = "example"))
  ∧ (word w = "example" →
       (gradeAnswer w submitted = true ↔ toLowerCase (trim submitted) = "example"))
  ∧ match currentWord (gameState app) with
    | Some target =>
        isCorrect (gameState (handleMultipleChoiceAnswer submitted app))
          = Some (gradeAnswer target submitted)
        ∧ isCorrect (gameState (heardAnswer submitted app))
          = Some (gradeAnswer target submitted)
        ∧ (speechMode (gameState app) = disabled →
             isCorrect (gameState (handleManualAnswer submitted app))
               = Some (gradeAnswer target submitted))
    | None => True
    end.
Proof.
  split; [apply gradeAnswer_true_iff|].
  split; [apply gradeAnswer_Example|].
  split; [apply gradeAnswer_nbsp|].
  split; [intros Hlow; rewrite gradeAnswer_Example, Hlow; reflexivity|].
  split; [intros Hw; rewrite gradeAnswer_true_iff, Hw; reflexivity|].
  destruct (currentWord (gameState app)) as [target|] eqn:Hcur; [|exact I].
  unfold handleMultipleChoiceAnswer, heardAnswer, handleManualAnswer.
  rewrite Hcur. repeat split; try reflexivity.
  intros Hmode. rewrite Hmode.
  destruct (decide (disabled ≠ disabled)) as [Hne|_]; [by destruct Hne | reflexivity].
Qed.

Lemma gradeAnswer_trimmed_case_insensitive_witness :
  gradeAnswer exampleWord " Example " = true
  ∧ isCorrect (gameState (handleManualAnswer " Example " exampleApp)) = Some true.
Proof.
  destruct (gradeAnswer_trimmed_case_insensitive exampleApp exampleWord " Example ")
    as (_ & _ & _ & Hex & _ & Happ).
  split.
  - apply Hex; reflexivity.
  - simpl in Happ. destruct Happ as (_ & _ & Hman). apply Hman. reflexivity.
Defined.

End GradingFacts.

(** ** Session statistics and reset *)

Module GameStateFacts.
Import Oxford3000 AIService GameState.
Import Notions Samples.

Lemma initialStats_sound : statsSound initialStats.
Proof. unfold statsSound; simpl; lia. Qed.

Lemma bumpStats_sound (b : bool) (s : GameStats) :
  statsSound s → statsSound (bumpStats b s).
Proof. unfold statsSound. destruct b; simpl; lia. Qed.

Lemma applyAction_sound (gs : GameState) (a : Action) :
  statsSound (gameStats gs) → statsSound (gameStats (applyAction gs a)).
Proof.
  intros H. destruct a; simpl; try exact H.
  - by apply bumpStats_sound.
  - apply initialStats_sound.
Qed.

Lemma stateAfter_snoc saved history a :
  stateAfter saved (history ++ [a]) = applyAction (stateAfter saved history) a.
Proof. unfold stateAfter. by rewrite foldl_app. Qed.

Lemma stateAfter_sound saved (history : list Action) :
  statsSound (gameStats (stateAfter saved history)).
Proof.
  induction history as [|a history IH] using rev_ind.
  - apply initialStats_sound.
  - rewrite stateAfter_snoc. by apply applyAction_sound.
Qed.

(** C3.  Whatever the session did before, a statistics update leaves
    the attempts equal to the correct plus the incorrect answers, the
    best streak equal to the larger of the previous best streak and the
    new current streak, the current streak at 0 when the answer was
    wrong, and all five counters non-negative. *)
Theorem updateStats_keeps_invariants
    (saved : option SpeechMode) (history : list Action) (isCorrect : bool) :
  let prev := stateAfter saved history in
  let next := gameStats (updateStats isCorrect prev) in
  (totalAttempted next = correctAnswers next + incorrectAnswers next
   ∧ bestStreak next = Z.max (bestStreak (gameStats prev)) (currentStreak next)
   ∧ currentStreak (gameStats (updateStats false prev)) = 0
   ∧ 0 ≤ totalAttempted next ∧ 0 ≤ correctAnswers next
   ∧ 0 ≤ incorrectAnswers next ∧ 0 ≤ currentStreak next
   ∧ 0 ≤ bestStreak next)%Z.
Proof.
  intros prev next.
  pose proof (stateAfter_sound saved history) as Hprev.
  fold prev in Hprev. unfold statsSound in Hprev.
  subst next. destruct isCorrect; simpl; lia.
Qed.

(** C10.  The reset returns every field to its initial value: no
    current word, empty clue, not playing, zeroed statistics, level
    [ALL], answer hidden, no last answer, no verdict, no options, no
    selected choice; the speech mode alone keeps its value. *)
Theorem resetGame_restores_all_but_speechMode (prev : GameState) :
  let next := resetGame prev in
  speechMode next = speechMode prev
  ∧ currentWord next = None
  ∧ currentClue next = ""
  ∧ isPlaying next = false
  ∧ gameStats next =
      {| totalAttempted := 0; correctAnswers := 0; incorrectAnswers := 0;
         currentStreak := 0; bestStreak := 0 |}
  ∧ selectedLevel next = ALL
  ∧ showAnswer next = false
  ∧ lastAnswer next = ""
  ∧ isCorrect next = None
  ∧ multipleChoiceOptions next = []
  ∧ selectedChoice next = None
  ∧ next = setSpeechMode (speechMode prev) initialState.
Proof.
  intros next. subst next. destruct prev as [w clue playing stats lv shown ans verdict mode opts choice].
  unfold resetGame, setSpeechMode; simpl.
  repeat split.
Qed.

End GameStateFacts.

(** ** Error classification *)

Module ClassificationFacts.
Import ApiErrorHandler.
Import Notions Samples.

Lemma classifyHttpError_table (status : Z) :
  classifyHttpError status =
    if bool_decide (status = 401 ∨ status = 403)%Z then AUTHENTICATION
    else if bool_decide (status = 429)%Z then RATE_LIMIT
    else if bool_decide (400 ≤ status < 500)%Z then VALIDATION
    else if bool_decide (500 ≤ status)%Z then SERVER
    else UNKNOWN.
Proof. unfold classifyHttpError. by_status. Qed.

(** The speech handler follows the rule on every HTTP status code. *)
Lemma handleElevenLabsError_follows_rule msg status d req :
  (status < 600)%Z →
  type (handleElevenLabsError (httpFailure "Error" msg status d req)) = ruleByStatus status.
Proof.
  intros Hlt. unfold handleElevenLabsError, ruleByStatus, classifyHttpError; simpl.
  by_status.
Qed.

(** The chat handler follows it on every status code but 402. *)
Lemma handleOpenAIError_follows_rule msg status d req :
  (status < 600)%Z → status ≠ 402%Z →
  type (handleOpenAIError (httpFailure "Error" msg status d req)) = ruleByStatus status.
Proof.
  intros Hlt Hne. unfold handleOpenAIError, ruleByStatus, classifyHttpError; simpl.
  by_status.
Qed.

Lemma handlers_abort msg resp req :
  let error := {| name := "AbortError"; message := msg; response := resp; request := req |} in
  type (handleOpenAIError error) = TIMEOUT ∧ type (handleElevenLabsError error) = TIMEOUT.
Proof. split; reflexivity. Qed.

Lemma handlers_no_response msg :
  let sent := {| name := "TypeError"; message := msg; response := None; request := true |} in
  let other := {| name := "Error"; message := msg; response := None; request := false |} in
  type (handleOpenAIError sent) = NETWORK ∧ type (handleElevenLabsError sent) = NETWORK
  ∧ type (handleOpenAIError other) = UNKNOWN ∧ type (handleElevenLabsError other) = UNKNOWN.
Proof. repeat split; reflexivity. Qed.

(** C7.  The two handlers part ways on status 402: for any error that
    carries a 402 response the speech handler answers [QUOTA_EXCEEDED],
    as the rule says, and the chat handler answers [VALIDATION] (the
    class of the remaining 4xx codes), which is not what the rule gives. *)
Theorem handleOpenAIError_402_is_validation (msg : string) (d : ResponseData) (req : bool) :
  let error := httpFailure "Error" msg 402 d req in
  type (handleOpenAIError error) = VALIDATION
  ∧ type (handleElevenLabsError error) = QUOTA_EXCEEDED
  ∧ ruleByStatus 402 = QUOTA_EXCEEDED
  ∧ type (handleOpenAIError error) ≠ ruleByStatus 402.
Proof. simpl. repeat split. discriminate. Qed.

End ClassificationFacts.

(** ** Retrying *)

Module RetryFacts.
Import ApiErrorHandler JsMath Oxford3000 AIService.
Import Notions Samples.

(** An operation that fails with an [APIError] of class authentication
    or validation is invoked once and its error is handed on. *)
Lemma retry_stops_on_nonRetryable {St A} (fn : nat → St → Settled A * St)
    (maxAttempts : nat) (baseDelay : Z) (s s' : St) (e : APIError) :
  fn 1 s = (Rejected (ThrownAPIError e), s') →
  type e = AUTHENTICATION ∨ type e = VALIDATION →
  retryWithBackoff fn (S maxAttempts) baseDelay s =
    {| settled := Rejected (ThrownAPIError e); invocations := 1;
       delays := []; final := s' |}.
Proof.
  intros Hfn Hty. unfold retryWithBackoff. destruct maxAttempts; simpl; rewrite Hfn;
    simpl; destruct Hty as [-> | ->]; reflexivity.
Qed.

(** Two server failures and then a success: three invocations, and
    delays of [baseDelay] and [2 * baseDelay]. *)
Lemma retry_succeeds_third_time {A} (a : A) (e1 e2 : JsError) (baseDelay : Z) :
  let fn := λ (k : nat) (s : unit),
    match k with
    | 1 => (Rejected (ThrownError e1), s)
    | 2 => (Rejected (ThrownError e2), s)
    | _ => (Fulfilled a, s)
    end in
  retryWithBackoff fn 3 baseDelay () =
    {| settled := Fulfilled a; invocations := 3;
       delays := [baseDelay; 2 * baseDelay]%Z; final := () |}.
Proof.
  simpl. unfold retryWithBackoff; simpl.
  f_equal. f_equal; [lia|]. f_equal. lia.
Qed.

(** The function the service wraps never rejects with an [APIError]: the
    test that ends the retrying never fires for it. *)
Lemma requestCompletion_always_retryable world k rl :
  match fst (requestCompletion world k rl) with
  | Rejected error => nonRetryable error = false
  | Fulfilled _ => True
  end.
Proof.
  unfold requestCompletion. destruct (reply (world k)); simpl; done.
Qed.

(** C6.  The request the service hands to the retry wrapper fails on a
    401 with a plain [Error]; against a provider that answers 401 every
    time the wrapper invokes it three times, sleeping 1000 ms and
    2000 ms in between, before the error leaves; one request is recorded
    per invocation; and the handler, applied afterwards, classes the
    error as unknown. *)
Theorem unauthorized_request_is_retried
    (clocks : nat → Z) (statusText : string) (rl : RateLimiter) :
  let world := λ k, {| clock := clocks k; reply := HttpError 401 statusText |} in
  let run := retryWithBackoff (requestCompletion world) retryAttempts retryDelay rl in
  invocations run = 3
  ∧ delays run = [1000; 2000]%Z
  ∧ settled run = Rejected (ThrownError (newError invalidKeyMessage))
  ∧ nonRetryable (ThrownError (newError invalidKeyMessage)) = false
  ∧ type (handleOpenAIError (newError invalidKeyMessage)) = UNKNOWN
  ∧ requests (final run) = (requests rl ++ [clocks 1; clocks 2; clocks 3])%list.
Proof.
  intros world run. subst run world.
  unfold retryWithBackoff, retryAttempts, retryDelay; simpl.
  repeat split. by rewrite <- !app_assoc.
Qed.

(** The limiter is asked once, before the first attempt, and every
    attempt records a request: with 59 requests in the window and the
    default ceiling of 60, three failed attempts leave 62 in the window. *)
Lemma retries_overshoot_ceiling :
  let held := {| requestsPerMinute := 60; requests := Z.of_nat <$> seq 1 59 |} in
  let svc := {| apiKey := "sk-0123456789abcdefghij"; rateLimiter := held |} in
  let svc' := snd (fetchWordAndClue svc ALL 100 (100, 100)%Z unauthorizedWorld []) in
  length (inWindow 3000 (requests (rateLimiter svc'))) = 62%nat
  ∧ fst (canMakeRequest 60002 (rateLimiter svc')) = false.
Proof. split; vm_compute; reflexivity. Qed.

End RetryFacts.

(** ** The rate limiter *)

Module RateLimiterFacts.
Import ApiErrorHandler.
Import Notions Samples.

Local Open Scope Z_scope.

Lemma canMakeRequest_unfold now rl :
  canMakeRequest now rl =
    (bool_decide (Z.of_nat (length (inWindow now (requests rl))) < requestsPerMinute rl),
     {| requestsPerMinute := requestsPerMinute rl;
        requests := inWindow now (requests rl) |}).
Proof. reflexivity. Qed.

Lemma getTimeUntilNextRequest_unfold now later rl :
  getTimeUntilNextRequest now later rl =
    (if bool_decide (Z.of_nat (length (inWindow now (requests rl))) < requestsPerMinute rl)
     then Finite 0
     else waitFrom later (mathMin (inWindow now (requests rl))),
     {| requestsPerMinute := requestsPerMinute rl;
        requests := inWindow now (requests rl) |}).
Proof.
  unfold getTimeUntilNextRequest. rewrite canMakeRequest_unfold.
  destruct (bool_decide _); reflexivity.
Qed.

Lemma elem_of_inWindow now (rs : list Z) t :
  t ∈ inWindow now rs ↔ t ∈ rs ∧ now - 60000 < t.
Proof. unfold inWindow. rewrite list_elem_of_filter. intuition lia. Qed.

(** Pruning at an earlier time does not change what a later time sees. *)
Lemma inWindow_inWindow now later (rs : list Z) :
  now ≤ later → inWindow later (inWindow now rs) = inWindow later rs.
Proof.
  intros Hle. unfold inWindow. rewrite list_filter_filter.
  apply list_filter_iff. intros t. lia.
Qed.

Lemma inWindow_all now (rs : list Z) :
  inWindow now rs = rs ↔ ∀ t, t ∈ rs → now - 60000 < t.
Proof.
  split.
  - intros Heq t Ht. rewrite <- Heq in Ht. by apply elem_of_inWindow in Ht as [_ ?].
  - intros Hall. induction rs as [|t rs IH]; [reflexivity|].
    unfold inWindow in *. rewrite filter_cons_True.
    + f_equal. apply IH. intros u Hu. apply Hall. by right.
    + specialize (Hall t ltac:(left)). lia.
Qed.

Lemma mathMin_nil_iff (xs : list Z) : mathMin xs = Infinity ↔ xs = [].
Proof.
  destruct xs as [|x xs]; [done|]. simpl. destruct (mathMin xs); split; discriminate.
Qed.

Lemma mathMin_Finite (xs : list Z) (m : Z) :
  mathMin xs = Finite m → m ∈ xs ∧ ∀ x, x ∈ xs → m ≤ x.
Proof.
  revert m. induction xs as [|x xs IH]; intros m Hm; [discriminate|].
  simpl in Hm. destruct (mathMin xs) as [m'|] eqn:Hxs.
  - destruct (IH m' eq_refl) as [Hin Hle]. injection Hm as <-.
    split.
    + destruct (Z.min_spec x m') as [[_ ->] | [_ ->]]; [left | by right].
    + intros y [-> | Hy]%elem_of_cons; [lia|]. specialize (Hle y Hy). lia.
  - apply mathMin_nil_iff in Hxs as ->. injection Hm as <-.
    split; [left|]. intros y Hy. apply list_elem_of_singleton in Hy. lia.
Qed.

(** Once the oldest timestamp of the window has aged out, the window is
    strictly shorter. *)
Lemma inWindow_shrinks now later (rs : list Z) oldest :
  mathMin (inWindow now rs) = Finite oldest → oldest + 60000 ≤ later →
  (length (inWindow later rs) < length (inWindow now rs))%nat.
Proof.
  intros Hmin Hlater.
  apply mathMin_Finite in Hmin as [Hin _].
  pose proof Hin as [_ Hnow]%elem_of_inWindow.
  rewrite <- (inWindow_inWindow now later rs) by lia.
  unfold inWindow at 1. apply (length_filter_lt _ _ oldest); [exact Hin | lia].
Qed.

(** C8, as amended.  At any time the limiter admits exactly when fewer
    timestamps than the ceiling lie within the last 60 seconds.  Once
    the clock has reached the oldest in-window timestamp plus 60
    seconds, it admits again provided the window held no more than
    the ceiling.  [getTimeUntilNextRequest] reads the clock twice, in
    [canMakeRequest] ([now]) and in its subtraction ([reading]).  The
    waiting time is 0 when the limiter admits at [now]; when it does not
    and the window is not empty, it is the time left at [reading] until
    the oldest in-window timestamp leaves the window, and 0 when that
    has happened by then (so it can be 0 after a refusal): after that
    time, counted from [reading], the oldest timestamp is out of the
    window; it is positive when the clock has not advanced between the
    readings.  When the limiter does not admit and the window is empty
    (a ceiling of 0 or less), the waiting time is [Infinity]. *)
Theorem limiter_admits_by_window_count (rl : RateLimiter) (now reading : Z) :
  let inside := inWindow now (requests rl) in
  fst (canMakeRequest now rl)
    = bool_decide (Z.of_nat (length inside) < requestsPerMinute rl)
  ∧ (∀ oldest later,
       mathMin inside = Finite oldest → oldest + 60000 ≤ later →
       Z.of_nat (length inside) ≤ requestsPerMinute rl →
       fst (canMakeRequest later rl) = true
       ∧ fst (canMakeRequest later (snd (canMakeRequest now rl))) = true)
  ∧ (fst (canMakeRequest now rl) = true →
       fst (getTimeUntilNextRequest now reading rl) = Finite 0)
  ∧ (∀ oldest,
       fst (canMakeRequest now rl) = false → mathMin inside = Finite oldest →
       fst (getTimeUntilNextRequest now reading rl)
         = Finite (Z.max 0 (oldest + 60000 - reading))
       ∧ oldest ∈ inside
       ∧ oldest ∉ inWindow (reading + Z.max 0 (oldest + 60000 - reading)) (requests rl)
       ∧ (reading ≤ now →
            fst (getTimeUntilNextRequest now reading rl) = Finite (oldest + 60000 - reading)
            ∧ 0 < oldest + 60000 - reading))
  ∧ (fst (canMakeRequest now rl) = false → inside = [] →
       fst (getTimeUntilNextRequest now reading rl) = Infinity).
Proof.
  intros inside. split; [reflexivity|]. split; [|split; [|split]].
  - intros oldest later Hmin Hlater Hcount.
    pose proof (inWindow_shrinks now later (requests rl) oldest Hmin Hlater) as Hlt.
    assert (now ≤ later) as Hle.
    { apply mathMin_Finite in Hmin as [[_ ?]%elem_of_inWindow _]. lia. }
    rewrite !canMakeRequest_unfold. cbn [fst snd requests requestsPerMinute].
    rewrite inWindow_inWindow by exact Hle.
    fold inside in Hlt. split; apply bool_decide_eq_true; lia.
  - rewrite getTimeUntilNextRequest_unfold, canMakeRequest_unfold.
    cbn [fst]. by intros ->.
  - intros oldest Hno Hmin.
    rewrite getTimeUntilNextRequest_unfold. rewrite canMakeRequest_unfold in Hno.
    cbn [fst] in *. rewrite Hno. fold inside. rewrite Hmin. cbn [waitFrom].
    destruct (mathMin_Finite _ _ Hmin) as [Hin _].
    pose proof Hin as [_ Hnew]%elem_of_inWindow.
    split; [reflexivity|]. split; [exact Hin|]. split.
    + rewrite elem_of_inWindow. lia.
    + intros Hle. split; [f_equal|]; lia.
  - intros Hno Hempty.
    rewrite getTimeUntilNextRequest_unfold. rewrite canMakeRequest_unfold in Hno.
    cbn [fst] in *. rewrite Hno. fold inside. by rewrite Hempty.
Qed.

Lemma limiter_admits_by_window_count_witness :
  fst (canMakeRequest 60000 (recordRequest 0 (newRateLimiter (Some 1)))) = true
  ∧ fst (getTimeUntilNextRequest 0 5 (newRateLimiter None)) = Finite 0
  ∧ fst (getTimeUntilNextRequest 1000 1200 saturated) = Finite 58800
  ∧ fst (getTimeUntilNextRequest 59999 60000 (recordRequest 0 (newRateLimiter (Some 1))))
    = Finite 0
  ∧ fst (getTimeUntilNextRequest 0 0 (newRateLimiter (Some 0))) = Infinity.
Proof.
  split; [|split; [|split; [|split]]].
  - destruct (limiter_admits_by_window_count (recordRequest 0 (newRateLimiter (Some 1))) 0 0)
      as (_ & Hagain & _).
    apply (Hagain 0 60000); [reflexivity | lia | simpl; lia].
  - destruct (limiter_admits_by_window_count (newRateLimiter None) 0 5)
      as (_ & _ & Hzero & _).
    apply Hzero. reflexivity.
  - destruct (limiter_admits_by_window_count saturated 1000 1200)
      as (_ & _ & _ & Hwait & _).
    exact (proj1 (Hwait 0 eq_refl eq_refl)).
  - destruct (limiter_admits_by_window_count (recordRequest 0 (newRateLimiter (Some 1)))
                59999 60000) as (_ & _ & _ & Hwait & _).
    exact (proj1 (Hwait 0 eq_refl eq_refl)).
  - destruct (limiter_admits_by_window_count (newRateLimiter (Some 0)) 0 0)
      as (_ & _ & _ & _ & Hnone).
    apply Hnone; reflexivity.
Defined.

(** C8, the claim as stated fails: with a ceiling of 1 and requests
    recorded at 0 ms and 1000 ms, both timestamps are in the window at
    1000 ms and the oldest is 0; at 60001 ms, past the oldest plus 60
    seconds, the limiter still refuses. *)
Lemma saturated_limiter_stays_closed :
  fst (canMakeRequest 1000 saturated) = false
  ∧ mathMin (inWindow 1000 (requests saturated)) = Finite 0
  ∧ 0 + 60000 < 60001
  ∧ fst (canMakeRequest 60001 saturated) = false.
Proof. repeat split. Qed.

(** C9, as amended.  [canMakeRequest] keeps the ceiling, keeps exactly
    the timestamps still inside the window, in their order, and drops
    the others: it never adds one, and it leaves the limiter as it was
    exactly when no stored timestamp has left the window.  The pruning
    changes no later answer, and a second call at the same time changes
    nothing more.  [getTimeUntilNextRequest] leaves the same limiter,
    whatever its second reading of the clock, and [recordRequest] is
    the operation that appends a timestamp. *)
Theorem canMakeRequest_only_prunes (rl : RateLimiter) (now : Z) :
  let rl' := snd (canMakeRequest now rl) in
  requestsPerMinute rl' = requestsPerMinute rl
  ∧ (∀ t, t ∈ requests rl' ↔ t ∈ requests rl ∧ now - 60000 < t)
  ∧ requests rl' `sublist_of` requests rl
  ∧ (rl' = rl ↔ ∀ t, t ∈ requests rl → now - 60000 < t)
  ∧ (∀ later, now ≤ later →
       fst (canMakeRequest later rl') = fst (canMakeRequest later rl)
       ∧ ∀ reading, fst (getTimeUntilNextRequest later reading rl')
                    = fst (getTimeUntilNextRequest later reading rl))
  ∧ snd (canMakeRequest now rl') = rl'
  ∧ (∀ reading, snd (getTimeUntilNextRequest now reading rl) = rl')
  ∧ requests (recordRequest now rl) = (requests rl ++ [now])%list.
Proof.
  intros rl'. subst rl'. rewrite canMakeRequest_unfold.
  cbn [fst snd requests requestsPerMinute].
  split; [reflexivity|]. split; [apply elem_of_inWindow|].
  split; [apply sublist_filter|]. split; [|split; [|split; [|split]]].
  - rewrite <- inWindow_all. destruct rl as [rpm rs]; simpl. split.
    + intros Heq. by injection Heq.
    + intros ->. reflexivity.
  - intros later Hle. split.
    + rewrite !canMakeRequest_unfold. cbn [fst snd requests requestsPerMinute].
      by rewrite !inWindow_inWindow by lia.
    + intros reading. rewrite !getTimeUntilNextRequest_unfold.
      cbn [fst snd requests requestsPerMinute].
      by rewrite !inWindow_inWindow by lia.
  - rewrite canMakeRequest_unfold. cbn [fst snd requests requestsPerMinute].
    by rewrite inWindow_inWindow.
  - intros reading. by rewrite getTimeUntilNextRequest_unfold.
  - reflexivity.
Qed.

Lemma canMakeRequest_only_prunes_witness :
  fst (canMakeRequest 70000 (snd (canMakeRequest 60000 saturated)))
    = fst (canMakeRequest 70000 saturated)
  ∧ snd (canMakeRequest 500 saturated) = saturated.
Proof.
  split.
  - destruct (canMakeRequest_only_prunes saturated 60000) as (_ & _ & _ & _ & Hlater & _).
    apply (Hlater 70000). lia.
  - destruct (canMakeRequest_only_prunes saturated 500) as (_ & _ & _ & Hsame & _).
    apply Hsame. intros t Ht. simpl in Ht.
    apply elem_of_cons in Ht as [-> | Ht]; [lia|].
    apply list_elem_of_singleton in Ht as ->. lia.
Defined.

(** C9, the claim as stated fails: a limiter that holds the timestamp 0
    holds none after [canMakeRequest] is called at 60000 ms. *)
Lemma canMakeRequest_drops_expired :
  requests (recordRequest 0 (newRateLimiter None)) = [0]
  ∧ requests (snd (canMakeRequest 60000 (recordRequest 0 (newRateLimiter None)))) = []
  ∧ snd (canMakeRequest 60000 (recordRequest 0 (newRateLimiter None)))
    ≠ recordRequest 0 (newRateLimiter None).
Proof. repeat split. discriminate. Qed.

End RateLimiterFacts.

(** ** Random indices, shuffles *)

Module JsMathFacts.
Import ApiErrorHandler JsMath.
Import Notions Samples.

(** [Math.floor(Math.random() * n)] is an index below [n]. *)
Lemma floorRandomTimes_lt (d : N) (n : nat) : (0 < n)%nat → (floorRandomTimes d n < n)%nat.
Proof.
  intros Hn. unfold floorRandomTimes.
  assert ((d mod 2 ^ 53) * N.of_nat n / 2 ^ 53 < N.of_nat n)%N as Hlt; [|lia].
  pose proof (N.mod_upper_bound d (2 ^ 53) ltac:(done)) as Hd.
  generalize dependent (d mod 2 ^ 53)%N. intros r Hr.
  assert (0 < 2 ^ 53)%N as Hp by done.
  generalize dependent (2 ^ 53)%N. intros p Hr Hp.
  apply N.Div0.div_lt_upper_bound. nia.
Qed.

(** Every index below [n] is the outcome of some draw. *)
Lemma floorRandomTimes_onto (n i : nat) :
  (i < n)%nat → (N.of_nat n ≤ 2 ^ 53)%N → ∃ d, floorRandomTimes d n = i.
Proof.
  intros Hi Hn.
  exists ((N.of_nat i * 2 ^ 53 + N.of_nat n - 1) / N.of_nat n)%N.
  unfold floorRandomTimes.
  assert (0 < 2 ^ 53)%N as Hp by done.
  generalize dependent (2 ^ 53)%N. intros p Hn Hp.
  set (m := N.of_nat n) in *. set (k := N.of_nat i).
  assert (k < m)%N as Hk by lia.
  set (d := ((k * p + m - 1) / m)%N).
  assert (m ≠ 0)%N as Hm by lia.
  pose proof (N.div_mod (k * p + m - 1) m Hm) as Hdm. fold d in Hdm.
  pose proof (N.mod_upper_bound (k * p + m - 1) m Hm) as Hr.
  generalize dependent ((k * p + m - 1) mod m)%N. intros r Hdm Hr.
  assert (d < p)%N as Hd by (clearbody d; nia).
  rewrite (N.mod_small d) by exact Hd.
  assert (d * m / p = k)%N as ->; [|lia].
  symmetry. clearbody d. apply (N.div_unique (d * m) p k (d * m - k * p)); nia.
Qed.

Lemma insert_Permutation_delete {A} (l : list A) (i : nat) (x : A) :
  (i < length l)%nat → <[i := x]> l ≡ₚ x :: delete i l.
Proof.
  revert i. induction l as [|y l IH]; intros [|i] Hi; simpl in *; try lia.
  - reflexivity.
  - rewrite (IH i) by lia. apply Permutation_swap.
Qed.

(** Exchanging two entries rearranges the array. *)
Lemma swap_Permutation (a : list string) (i j : nat) : swap a i j ≡ₚ a.
Proof.
  unfold swap.
  destruct (a !! i) as [ai|] eqn:Hi; [|reflexivity].
  destruct (a !! j) as [aj|] eqn:Hj; [|reflexivity].
  revert i j Hi Hj.
  induction a as [|x a IH]; intros [|i] [|j] Hi Hj; simpl in *; try done.
  - by simplify_eq.
  - simplify_eq. rewrite insert_Permutation_delete by (by eapply lookup_lt_Some).
    rewrite (delete_Permutation a j aj) at 2 by done. apply Permutation_swap.
  - simplify_eq. rewrite insert_Permutation_delete by (by eapply lookup_lt_Some).
    rewrite (delete_Permutation a i ai) at 2 by done. apply Permutation_swap.
  - by rewrite IH.
Qed.

Lemma insertLeftwards_Permutation x placed draws l rest :
  insertLeftwards x placed draws = Returned l rest → l ≡ₚ x :: placed.
Proof.
  revert draws l rest.
  induction placed as [|y placed IH]; intros draws l rest H; simpl in H.
  - by injection H as <- _.
  - destruct draws as [|d ds]; [discriminate|].
    destruct (overHalf d).
    + destruct (insertLeftwards x placed ds) as [l' rest'| |] eqn:Hrec; try discriminate.
      injection H as <- _. rewrite (IH _ _ _ Hrec). apply Permutation_swap.
    + by injection H as <- _.
Qed.

Lemma insertLeftwards_returns x placed draws :
  (length placed ≤ length draws)%nat →
  ∃ l rest, insertLeftwards x placed draws = Returned l rest
            ∧ (length draws ≤ length rest + length placed)%nat.
Proof.
  revert draws. induction placed as [|y placed IH]; intros draws Hlen; simpl in *.
  - exists [x], draws. split; [reflexivity | lia].
  - destruct draws as [|d ds]; simpl in *; [lia|].
    destruct (overHalf d).
    + destruct (IH ds ltac:(lia)) as (l & rest & -> & Hrest).
      exists (y :: l), rest. split; [reflexivity | lia].
    + exists (x :: y :: placed), ds. split; [reflexivity | lia].
Qed.

Lemma sortFrom_Permutation todo placed draws l rest :
  sortFrom todo placed draws = Returned l rest → l ≡ₚ (todo ++ placed)%list.
Proof.
  revert placed draws l rest.
  induction todo as [|x todo IH]; intros placed draws l rest H; simpl in H.
  - injection H as <- _. simpl. symmetry. apply Permutation_rev.
  - destruct (insertLeftwards x placed draws) as [placed' rest'| |] eqn:Hins;
      try discriminate.
    rewrite (IH _ _ _ _ H). apply insertLeftwards_Permutation in Hins.
    rewrite Hins. simpl. by rewrite Permutation_middle.
Qed.

(** The shuffle of the fallback path rearranges its array. *)
Lemma sortRandomly_Permutation arr draws l rest :
  sortRandomly arr draws = Returned l rest → l ≡ₚ arr.
Proof.
  unfold sortRandomly. intros H%sortFrom_Permutation. by rewrite app_nil_r in H.
Qed.

Lemma sortFrom_returns todo placed draws :
  (comparisonsBound (length todo) (length placed) ≤ length draws)%nat →
  ∃ l rest, sortFrom todo placed draws = Returned l rest.
Proof.
  revert placed draws.
  induction todo as [|x todo IH]; intros placed draws Hlen; simpl in *.
  - eauto.
  - destruct (insertLeftwards_returns x placed draws ltac:(lia))
      as (placed' & rest' & Hins & Hrest).
    rewrite Hins. apply IH.
    apply insertLeftwards_Permutation, Permutation_length in Hins.
    rewrite Hins. simpl. lia.
Qed.

End JsMathFacts.

(** ** The vocabulary store *)

Module StoreFacts.
Import JsString Oxford3000 AIService.
Import Notions Samples.

Local Open Scope nat_scope.

(** Every stored word is in lower case, and no word is stored twice. *)
Lemma store_words_lower_case :
  Forall (λ w, toLowerCase (word w) = word w) oxford3000Words.
Proof. compute_done. Qed.

Lemma store_words_NoDup : NoDup (word <$> oxford3000Words).
Proof. compute_done. Qed.

Lemma levelWordsOf_sublist lv : levelWordsOf lv `sublist_of` oxford3000Words.
Proof. destruct lv; simpl; [apply sublist_filter | reflexivity]. Qed.

Lemma levelWordsOf_length lv : 20 ≤ length (levelWordsOf lv).
Proof. destruct lv as [[]|]; vm_compute; lia. Qed.

Lemma levelWordsOf_level l w : w ∈ levelWordsOf (Lv l) → level w = l.
Proof. simpl. by intros [? _]%list_elem_of_filter. Qed.

Lemma getWordsByLevel_length l : length (getWordsByLevel l) = 20.
Proof. destruct l; reflexivity. Qed.

Lemma sublist_words_NoDup (ws : list Word) :
  ws `sublist_of` oxford3000Words → NoDup (word <$> ws).
Proof.
  intros Hsub. eapply sublist_NoDup; [apply store_words_NoDup | by apply fmap_sublist].
Qed.

Lemma sublist_words_lower_case (ws : list Word) :
  ws `sublist_of` oxford3000Words → toLowerCase <$> (word <$> ws) = word <$> ws.
Proof.
  intros Hsub. rewrite <- list_fmap_compose. apply list_fmap_ext.
  intros i w Hw. simpl.
  pose proof store_words_lower_case as Hall. rewrite Forall_forall in Hall.
  apply Hall. eapply elem_of_sublist; [|exact Hsub]. by eapply list_elem_of_lookup_2.
Qed.

End StoreFacts.

(** ** The incorrect options *)

Module DistractorFacts.
Import JsString ApiErrorHandler JsMath Oxford3000 AIService JsMathFacts StoreFacts.
Import Notions Samples.

Local Open Scope nat_scope.
Local Open Scope list_scope.

Lemma Chosen_nil c source : Chosen c source [] {[toLowerCase (word c)]}.
Proof.
  split; simpl.
  - unfold usedBy. simpl. set_solver.
  - constructor.
  - apply not_elem_of_nil.
  - constructor.
Qed.

Lemma Chosen_push c source incorrect used (o : string) :
  Chosen c source incorrect used → toLowerCase o ∉ used → source o →
  Chosen c source (incorrect ++ [o]) ({[toLowerCase o]} ∪ used).
Proof.
  intros [Hused Hnd Hother Hsrc] Hfresh Ho. subst used. unfold usedBy in *.
  split.
  - unfold usedBy. rewrite fmap_app, list_to_set_app_L. simpl. set_solver.
  - rewrite fmap_app. apply NoDup_app. split; [exact Hnd|]. split.
    + intros x Hx Hx'. apply list_elem_of_singleton in Hx'. subst x.
      apply Hfresh. set_solver.
    + apply NoDup_singleton.
  - rewrite fmap_app. intros [Hin | Hin]%elem_of_app; [by apply Hother|].
    apply list_elem_of_singleton in Hin. apply Hfresh. set_solver.
  - apply Forall_app. split; [exact Hsrc|]. by constructor.
Qed.

Lemma Chosen_weaken c (source source' : string → Prop) incorrect used :
  (∀ o, source o → source' o) → Chosen c source incorrect used →
  Chosen c source' incorrect used.
Proof.
  intros Himp [? ? ? Hsrc]. split; try done. eapply Forall_impl; eauto.
Qed.

Lemma loop_guard_false (n m : nat) :
  (n <? 3)%nat && (n <? m)%nat = false → 3 ≤ n ∨ m ≤ n.
Proof. intros [?%Nat.ltb_ge | ?%Nat.ltb_ge]%andb_false_iff; lia. Qed.

(** The first loop keeps the invariant, and it ends with three options
    or with as many as [availableWords] has entries. *)
Lemma pickIncorrect_Chosen c (source : string → Prop) avail draws incorrect used r rest :
  (∀ w, w ∈ avail → source (word w)) →
  Chosen c source incorrect used →
  pickIncorrect avail draws incorrect used = Returned r rest →
  Chosen c source r.1 r.2 ∧ (3 ≤ length r.1 ∨ length avail ≤ length r.1).
Proof.
  intros Hsrc. revert incorrect used.
  induction draws as [|d ds IH]; intros incorrect used Hinv H; simpl in H.
  - destruct (_ && _) eqn:Hguard; [discriminate|].
    injection H as <- _. simpl. split; [exact Hinv | by apply loop_guard_false].
  - destruct (_ && _) eqn:Hguard.
    + destruct (avail !! _) as [w|] eqn:Hw; [|discriminate].
      destruct (decide _) as [Hin|Hout].
      * by eapply IH.
      * eapply IH; [|exact H]. apply Chosen_push; [done.. |].
        apply Hsrc. by eapply list_elem_of_lookup_2.
    + injection H as <- _. simpl. split; [exact Hinv | by apply loop_guard_false].
Qed.

Lemma fallbackOptions_lower_case :
  Forall (λ o, toLowerCase o = o) fallbackOptions.
Proof. compute_done. Qed.

Lemma randomFallback_elem_of d : randomFallback d ∈ fallbackOptions.
Proof.
  unfold randomFallback. apply list_elem_of_In, nth_In.
  apply floorRandomTimes_lt. simpl. lia.
Qed.

Lemma randomFallback_lower_case d : toLowerCase (randomFallback d) = randomFallback d.
Proof.
  pose proof fallbackOptions_lower_case as Hall. rewrite Forall_forall in Hall.
  apply Hall, randomFallback_elem_of.
Qed.

(** The second loop keeps the invariant and ends with three options at
    least. *)
Lemma fillGeneric_Chosen c (source : string → Prop) draws incorrect used r rest :
  (∀ o, o ∈ fallbackOptions → source o) →
  Chosen c source incorrect used →
  fillGeneric draws incorrect used = Returned r rest →
  Chosen c source r.1 r.2 ∧ 3 ≤ length r.1.
Proof.
  intros Hsrc. revert incorrect used.
  induction draws as [|d ds IH]; intros incorrect used Hinv H; simpl in H.
  - destruct (_ <? _)%nat eqn:Hguard; [discriminate|].
    injection H as <- _. simpl. split; [exact Hinv | by apply Nat.ltb_ge].
  - destruct (_ <? _)%nat eqn:Hguard.
    + destruct (decide _) as [Hin|Hout].
      * by eapply IH.
      * eapply IH; [|exact H].
        rewrite <- (randomFallback_lower_case d) at 2.
        apply Chosen_push; [done | by rewrite randomFallback_lower_case |].
        apply Hsrc, randomFallback_elem_of.
    + injection H as <- _. simpl. split; [exact Hinv | by apply Nat.ltb_ge].
Qed.

Lemma fillGeneric_full draws incorrect used :
  3 ≤ length incorrect →
  fillGeneric draws incorrect used = Returned (incorrect, used) draws.
Proof.
  intros Hlen. apply Nat.ltb_ge in Hlen. destruct draws; simpl; by rewrite Hlen.
Qed.

(** Neither loop throws. *)
Lemma pickIncorrect_no_throw avail draws incorrect used e rest :
  pickIncorrect avail draws incorrect used ≠ Threw e rest.
Proof.
  revert incorrect used. induction draws as [|d ds IH]; intros incorrect used; simpl.
  - by destruct (_ && _).
  - destruct (_ && _) eqn:Hguard; [|done].
    apply andb_true_iff in Hguard as [_ Hlt%Nat.ltb_lt].
    destruct (lookup_lt_is_Some_2 avail (floorRandomTimes d (length avail))) as [w ->].
    { apply floorRandomTimes_lt. lia. }
    destruct (decide _); apply IH.
Qed.

Lemma fillGeneric_no_throw draws incorrect used e rest :
  fillGeneric draws incorrect used ≠ Threw e rest.
Proof.
  revert incorrect used. induction draws as [|d ds IH]; intros incorrect used; simpl.
  - by destruct (_ <? _)%nat.
  - destruct (_ <? _)%nat; [|done]. destruct (decide _); apply IH.
Qed.

Lemma incorrectOptionsFrom_no_throw avail c draws e rest :
  incorrectOptionsFrom avail c draws ≠ Threw e rest.
Proof.
  unfold incorrectOptionsFrom.
  destruct (pickIncorrect _ _ _ _) as [[inc used] rest1| |] eqn:Hpick; try done.
  - destruct (fillGeneric _ _ _) as [[inc' used'] rest2| |] eqn:Hfill; try done.
    intros [= -> ->]. by eapply fillGeneric_no_throw.
  - intros [= -> ->]. by eapply pickIncorrect_no_throw.
Qed.

(** What the generator returns, for any [availableWords]: three
    strings, no two equal up to case, none the correct word up to case,
    each a word of [availableWords] or an entry of the generic list. *)
Lemma incorrectOptionsFrom_spec avail c draws incorrect rest :
  incorrectOptionsFrom avail c draws = Returned incorrect rest →
  length incorrect = 3
  ∧ NoDup (toLowerCase <$> incorrect)
  ∧ toLowerCase (word c) ∉ toLowerCase <$> incorrect
  ∧ (∀ o, o ∈ incorrect → o ∈ word <$> avail ∨ o ∈ fallbackOptions)
  ∧ (3 ≤ length avail → ∀ o, o ∈ incorrect → o ∈ word <$> avail).
Proof.
  unfold incorrectOptionsFrom. intros H.
  destruct (pickIncorrect _ _ _ _) as [[inc used] rest1| |] eqn:Hpick; try discriminate.
  destruct (fillGeneric _ _ _) as [[inc' used'] rest2| |] eqn:Hfill; try discriminate.
  injection H as <- _.
  set (fromPool := λ o : string, o ∈ word <$> avail).
  set (source := λ o : string, o ∈ word <$> avail ∨ o ∈ fallbackOptions).
  assert (∀ w, w ∈ avail → fromPool (word w)) as HfromPool.
  { intros w Hw. by apply list_elem_of_fmap_2. }
  destruct (pickIncorrect_Chosen c fromPool _ _ _ _ _ _ HfromPool
              (Chosen_nil c fromPool) Hpick) as [Hinv1 Hend1]. simpl in *.
  destruct (fillGeneric_Chosen c source _ _ _ _ _ ltac:(by right)
              (Chosen_weaken c fromPool source _ _ ltac:(by left) Hinv1) Hfill)
    as [[_ Hnd Hother Hsrc] Hlen]. simpl in *.
  split; [rewrite length_take; lia|].
  split; [rewrite fmap_take; eapply sublist_NoDup; [exact Hnd | apply sublist_take]|].
  split.
  { rewrite fmap_take. intros Hin. apply Hother.
    eapply elem_of_sublist; [exact Hin | apply sublist_take]. }
  split.
  { intros o Ho. rewrite Forall_forall in Hsrc. apply Hsrc.
    eapply elem_of_sublist; [exact Ho | apply sublist_take]. }
  intros Havail o Ho.
  assert (3 ≤ length inc) as Hfull by lia.
  rewrite (fillGeneric_full _ _ _ Hfull) in Hfill. injection Hfill as <- _ _.
  destruct Hinv1 as [_ _ _ Hsrc1]. rewrite Forall_forall in Hsrc1. apply Hsrc1.
  eapply elem_of_sublist; [exact Ho | apply sublist_take].
Qed.

(** *** Returning *)

Lemma freshWords_push avail used (x : string) :
  freshWords avail ({[x]} ∪ used) = freshWords avail used ∖ {[x]}.
Proof. unfold freshWords. set_solver. Qed.

Lemma size_remove_one (X : gset string) (x : string) : size X - 1 ≤ size (X ∖ {[x]}).
Proof.
  rewrite size_difference_alt.
  assert (size (X ∩ {[x]}) ≤ 1); [|lia].
  rewrite <- (size_singleton (C:=gset string) x). apply subseteq_size. set_solver.
Qed.

Lemma pickIncorrect_step avail d ds incorrect used w :
  length incorrect < 3 → length incorrect < length avail →
  avail !! floorRandomTimes d (length avail) = Some w →
  pickIncorrect avail (d :: ds) incorrect used =
    if decide (toLowerCase (word w) ∈ used) then pickIncorrect avail ds incorrect used
    else pickIncorrect avail ds (incorrect ++ [word w]) ({[toLowerCase (word w)]} ∪ used).
Proof.
  intros H3%Nat.ltb_lt Hlen%Nat.ltb_lt Hw. simpl. by rewrite H3, Hlen, Hw.
Qed.

Lemma pickIncorrect_starved avail incorrect used :
  length incorrect < 3 → length incorrect < length avail →
  pickIncorrect avail [] incorrect used = Starved.
Proof. intros H3%Nat.ltb_lt Hlen%Nat.ltb_lt. simpl. by rewrite H3, Hlen. Qed.

Lemma pickIncorrect_done avail draws incorrect used :
  3 ≤ length incorrect ∨ length avail ≤ length incorrect →
  pickIncorrect avail draws incorrect used = Returned (incorrect, used) draws.
Proof.
  intros Hend.
  assert ((length incorrect <? 3) && (length incorrect <? length avail) = false) as Hg.
  { apply andb_false_iff. rewrite !Nat.ltb_ge. lia. }
  destruct draws; simpl; by rewrite Hg.
Qed.

(** With enough unused words left, some continuation of the draws ends
    the first loop. *)
Lemma pickIncorrect_can_finish avail incorrect used :
  (N.of_nat (length avail) ≤ 2 ^ 53)%N →
  3 - length incorrect ≤ size (freshWords avail used) →
  ∃ draws r, pickIncorrect avail draws incorrect used = Returned r [].
Proof.
  intros Hsmall. remember (3 - length incorrect) as k eqn:Hk.
  revert incorrect used Hk. induction k as [|k IH]; intros incorrect used Hk Hfresh.
  - exists [], (incorrect, used). apply pickIncorrect_done. lia.
  - destruct (decide (length incorrect < length avail)) as [Hlen|Hlen];
      [|exists [], (incorrect, used); apply pickIncorrect_done; lia].
    destruct (size_pos_elem_of (freshWords avail used) ltac:(lia)) as [x Hx].
    unfold freshWords in Hx. apply elem_of_difference in Hx as [Hx Hunused].
    apply elem_of_list_to_set, list_elem_of_fmap in Hx as (o & -> & Ho).
    apply list_elem_of_fmap in Ho as (w & -> & Hw).
    apply list_elem_of_lookup_1 in Hw as [i Hi].
    destruct (floorRandomTimes_onto (length avail) i) as [d Hd];
      [by eapply lookup_lt_Some | exact Hsmall |].
    destruct (IH (incorrect ++ [word w]) ({[toLowerCase (word w)]} ∪ used))
      as (ds & r & Hrun).
    { rewrite length_app. simpl. lia. }
    { rewrite freshWords_push.
      pose proof (size_remove_one (freshWords avail used) (toLowerCase (word w))). lia. }
    exists (d :: ds), r.
    rewrite (pickIncorrect_step _ _ _ _ _ w) by (lia || by rewrite Hd).
    by rewrite decide_False.
Qed.

(** Whatever has been drawn so far, the first loop can still end. *)
Lemma pickIncorrect_eventually avail draws incorrect used :
  (N.of_nat (length avail) ≤ 2 ^ 53)%N →
  3 - length incorrect ≤ size (freshWords avail used) →
  ∃ more r rest, pickIncorrect avail (draws ++ more) incorrect used = Returned r rest.
Proof.
  intros Hsmall. revert incorrect used.
  induction draws as [|d ds IH]; intros incorrect used Hfresh.
  - destruct (pickIncorrect_can_finish avail incorrect used Hsmall Hfresh) as (more & r & H).
    by exists more, r, [].
  - destruct (decide (length incorrect < 3 ∧ length incorrect < length avail))
      as [[H3 Hlen]|Hend].
    + destruct (lookup_lt_is_Some_2 avail (floorRandomTimes d (length avail))) as [w Hw].
      { apply floorRandomTimes_lt. lia. }
      destruct (decide (toLowerCase (word w) ∈ used)) as [Hin|Hout].
      * destruct (IH incorrect used Hfresh) as (more & r & rest & H).
        exists more, r, rest. simpl app.
        rewrite (pickIncorrect_step _ _ _ _ _ w) by done. by rewrite decide_True.
      * destruct (IH (incorrect ++ [word w]) ({[toLowerCase (word w)]} ∪ used))
          as (more & r & rest & H).
        { rewrite length_app, freshWords_push. simpl.
          pose proof (size_remove_one (freshWords avail used) (toLowerCase (word w))). lia. }
        exists more, r, rest. simpl app.
        rewrite (pickIncorrect_step _ _ _ _ _ w) by done. by rewrite decide_False.
    + exists [], (incorrect, used), ((d :: ds) ++ []). apply pickIncorrect_done. lia.
Qed.

(** More draws at the end change nothing but what is left over. *)
Lemma pickIncorrect_extend avail draws more incorrect used r rest :
  pickIncorrect avail draws incorrect used = Returned r rest →
  pickIncorrect avail (draws ++ more) incorrect used = Returned r (rest ++ more).
Proof.
  revert incorrect used. induction draws as [|d ds IH]; intros incorrect used H.
  - simpl in H. destruct (_ && _) eqn:Hg; [discriminate|].
    injection H as <- <-. apply pickIncorrect_done. by apply loop_guard_false.
  - simpl in *. destruct (_ && _) eqn:Hg; [|by injection H as <- <-].
    destruct (avail !! _); [|discriminate].
    destruct (decide _); by apply IH.
Qed.

Lemma incorrectOptionsFrom_extend avail c draws more incorrect rest :
  3 ≤ length avail →
  incorrectOptionsFrom avail c draws = Returned incorrect rest →
  incorrectOptionsFrom avail c (draws ++ more) = Returned incorrect (rest ++ more).
Proof.
  unfold incorrectOptionsFrom. intros Havail H.
  destruct (pickIncorrect _ draws _ _) as [[inc used] rest1| |] eqn:Hpick; try discriminate.
  rewrite (pickIncorrect_extend _ _ more _ _ _ _ Hpick).
  destruct (pickIncorrect_Chosen c (λ _, True) _ _ _ _ _ _ ltac:(done)
              (Chosen_nil c _) Hpick) as [_ Hend]. simpl in Hend.
  rewrite fillGeneric_full in * by lia. by injection H as <- <-.
Qed.

Lemma incorrectOptionsFrom_eventually avail c draws :
  3 ≤ length avail → (N.of_nat (length avail) ≤ 2 ^ 53)%N →
  3 ≤ size (freshWords avail {[toLowerCase (word c)]}) →
  ∃ more incorrect rest,
    incorrectOptionsFrom avail c (draws ++ more) = Returned incorrect rest.
Proof.
  intros Havail Hsmall Hfresh.
  destruct (pickIncorrect_eventually avail draws [] {[toLowerCase (word c)]} Hsmall)
    as (more & [inc used] & rest & Hpick); [simpl; lia|].
  exists more, (take 3 inc), rest. unfold incorrectOptionsFrom. rewrite Hpick.
  destruct (pickIncorrect_Chosen c (λ _, True) _ _ _ _ _ _ ltac:(done)
              (Chosen_nil c _) Hpick) as [_ Hend]. simpl in Hend.
  by rewrite fillGeneric_full by lia.
Qed.

End DistractorFacts.

(** ** The generator over the vocabulary store *)

Module GeneratorFacts.
Import JsString ApiErrorHandler JsMath Oxford3000 AIService.
Import JsMathFacts StoreFacts DistractorFacts.
Import Notions Samples.

Local Open Scope nat_scope.
Local Open Scope list_scope.

Lemma samePartOfSpeechOf_sublist c lv :
  samePartOfSpeechOf c (levelWordsOf lv) `sublist_of` oxford3000Words.
Proof.
  etrans; [apply sublist_filter | apply levelWordsOf_sublist].
Qed.

Lemma availableWordsOf_sublist c lv : availableWordsOf c lv `sublist_of` oxford3000Words.
Proof.
  unfold availableWordsOf. destruct (3 <=? _);
    [apply samePartOfSpeechOf_sublist | apply levelWordsOf_sublist].
Qed.

Lemma availableWordsOf_length c lv : 3 ≤ length (availableWordsOf c lv).
Proof.
  unfold availableWordsOf. destruct (3 <=? _) eqn:H.
  - by apply Nat.leb_le.
  - pose proof (levelWordsOf_length lv). lia.
Qed.

Lemma availableWordsOf_small c lv : (N.of_nat (length (availableWordsOf c lv)) ≤ 2 ^ 53)%N.
Proof.
  pose proof (sublist_length _ _ (availableWordsOf_sublist c lv)) as Hlen.
  change (length oxford3000Words) with 80 in Hlen.
  change (2 ^ 53)%N with 9007199254740992%N. lia.
Qed.

Lemma alternativesOf_samePartOfSpeech c pool :
  alternativesOf c pool = alternativesOf c (samePartOfSpeechOf c pool).
Proof.
  unfold alternativesOf, samePartOfSpeechOf. symmetry. apply list_filter_filter_l.
  intros w [Hpos Hne]. split; [done|]. intros Heq. apply Hne. by rewrite Heq.
Qed.

(** A sublist of the store, read as the set of its lower-cased words,
    has as many elements as entries. *)
Lemma size_words (ws : list Word) :
  ws `sublist_of` oxford3000Words →
  size (list_to_set (C:=gset string) (toLowerCase <$> (word <$> ws))) = length ws.
Proof.
  intros Hsub. rewrite sublist_words_lower_case by done.
  rewrite size_list_to_set by (by apply sublist_words_NoDup).
  by rewrite length_fmap.
Qed.

(** Three same-part-of-speech alternatives: the generator draws from
    them, and three unused words are at hand. *)
Lemma fresh_of_alternatives c lv :
  3 ≤ length (alternativesOf c (levelWordsOf lv)) →
  availableWordsOf c lv = samePartOfSpeechOf c (levelWordsOf lv)
  ∧ 3 ≤ size (freshWords (availableWordsOf c lv) {[toLowerCase (word c)]}).
Proof.
  intros Halt. rewrite alternativesOf_samePartOfSpeech in Halt.
  set (same := samePartOfSpeechOf c (levelWordsOf lv)) in *.
  assert (alternativesOf c same `sublist_of` same) as Hsub by apply sublist_filter.
  assert (availableWordsOf c lv = same) as Havail.
  { unfold availableWordsOf. fold same.
    pose proof (sublist_length _ _ Hsub).
    by rewrite (proj2 (Nat.leb_le 3 (length same))) by lia. }
  split; [exact Havail|]. rewrite Havail.
  rewrite <- (size_words (alternativesOf c same)) in Halt.
  2:{ etrans; [exact Hsub | apply samePartOfSpeechOf_sublist]. }
  etrans; [exact Halt|]. apply subseteq_size.
  intros x Hx. unfold freshWords. apply elem_of_difference. split.
  - apply elem_of_list_to_set. apply elem_of_list_to_set in Hx.
    eapply elem_of_sublist; [exact Hx|]. by do 2 apply fmap_sublist.
  - apply elem_of_list_to_set, list_elem_of_fmap in Hx as (o & -> & Ho).
    apply list_elem_of_fmap in Ho as (w & -> & Hw).
    apply list_elem_of_filter in Hw as [[_ Hne] _]. set_solver.
Qed.

(** Fewer than three same-part-of-speech entries: the generator draws
    from the whole level, where at most one word is used. *)
Lemma fresh_of_level c lv :
  length (samePartOfSpeechOf c (levelWordsOf lv)) < 3 →
  availableWordsOf c lv = levelWordsOf lv
  ∧ 3 ≤ size (freshWords (availableWordsOf c lv) {[toLowerCase (word c)]}).
Proof.
  intros Hfew.
  assert (availableWordsOf c lv = levelWordsOf lv) as Havail.
  { unfold availableWordsOf. by rewrite (proj2 (Nat.leb_gt 3 _)) by lia. }
  split; [exact Havail|]. rewrite Havail. unfold freshWords.
  pose proof (size_remove_one
                (list_to_set (toLowerCase <$> (word <$> levelWordsOf lv)))
                (toLowerCase (word c))) as Hone.
  rewrite size_words in Hone by apply levelWordsOf_sublist.
  pose proof (levelWordsOf_length lv). lia.
Qed.

Lemma filter_ext_on {A} (P Q : A → Prop)
    `{!∀ x, Decision (P x), !∀ x, Decision (Q x)} (l : list A) :
  (∀ x, x ∈ l → (P x ↔ Q x)) → filter P l = filter Q l.
Proof.
  induction l as [|a l IH]; intros Hiff; [reflexivity|].
  rewrite !filter_cons. rewrite IH by (intros x Hx; apply Hiff; by right).
  apply decide_ext, Hiff. by left.
Qed.

(** For a correct word in lower case, as the service builds it, the
    alternatives are the entries the generator's own filter keeps. *)
Lemma alternativesOf_lower_case c lv :
  toLowerCase (word c) = word c →
  alternativesOf c (levelWordsOf lv) = samePartOfSpeechOf c (levelWordsOf lv).
Proof.
  intros Hlow. unfold alternativesOf, samePartOfSpeechOf.
  apply filter_ext_on. intros w Hw.
  pose proof store_words_lower_case as Hall. rewrite Forall_forall in Hall.
  rewrite (Hall w), Hlow; [done|].
  eapply elem_of_sublist; [exact Hw | apply levelWordsOf_sublist].
Qed.

Lemma incorrectOptionsFor_eventually c lv draws :
  length (samePartOfSpeechOf c (levelWordsOf lv)) < 3
  ∨ 3 ≤ length (alternativesOf c (levelWordsOf lv)) →
  ∃ more incorrect rest,
    incorrectOptionsFor c lv (draws ++ more) = Returned incorrect rest.
Proof.
  intros Hcase. unfold incorrectOptionsFor.
  apply incorrectOptionsFrom_eventually;
    [apply availableWordsOf_length | apply availableWordsOf_small |].
  destruct Hcase as [Hfew | Halt];
    [by apply fresh_of_level | by apply fresh_of_alternatives].
Qed.

(** C5.  The function takes a level, and its pool is the store's words
    of that level.  Whatever it returns is three strings, no two equal
    up to case and none equal to the correct word up to case; they are
    words of the same-part-of-speech subset when that subset has three
    members at least, and words of the level's pool otherwise; it never
    throws.  With three same-part-of-speech alternatives at least in the
    pool it does return: whatever has been drawn so far, some
    continuation of the draws makes it return.  For an arbitrary list of
    available words the same three properties hold of what is returned,
    each string being a word of the list or, should the list run out,
    an entry of the generic list. *)
Theorem incorrectOptions_three_distinct (correctWord : Word) (lv : SelectedLevel) :
  let pool := levelWordsOf lv in
  let same := samePartOfSpeechOf correctWord pool in
  (∀ draws incorrect rest,
     incorrectOptionsFor correctWord lv draws = Returned incorrect rest →
     length incorrect = 3
     ∧ NoDup (toLowerCase <$> incorrect)
     ∧ toLowerCase (word correctWord) ∉ toLowerCase <$> incorrect
     ∧ (3 ≤ length same → ∀ o, o ∈ incorrect → o ∈ word <$> same)
     ∧ (length same < 3 → ∀ o, o ∈ incorrect → o ∈ word <$> pool))
  ∧ (∀ draws e rest, incorrectOptionsFor correctWord lv draws ≠ Threw e rest)
  ∧ (3 ≤ length (alternativesOf correctWord pool) →
     ∀ draws, ∃ more incorrect rest,
       incorrectOptionsFor correctWord lv (draws ++ more) = Returned incorrect rest)
  ∧ (∀ availableWords draws incorrect rest,
       incorrectOptionsFrom availableWords correctWord draws = Returned incorrect rest →
       length incorrect = 3
       ∧ NoDup (toLowerCase <$> incorrect)
       ∧ toLowerCase (word correctWord) ∉ toLowerCase <$> incorrect
       ∧ ∀ o, o ∈ incorrect → o ∈ word <$> availableWords ∨ o ∈ fallbackOptions).
Proof.
  intros pool same. split; [|split; [|split]].
  - intros draws incorrect rest H. unfold incorrectOptionsFor in H.
    destruct (incorrectOptionsFrom_spec _ _ _ _ _ H) as (Hlen & Hnd & Hother & _ & Hfrom).
    specialize (Hfrom (availableWordsOf_length correctWord lv)).
    split; [exact Hlen|]. split; [exact Hnd|]. split; [exact Hother|].
    unfold availableWordsOf in Hfrom. fold pool in Hfrom. fold same in Hfrom.
    split; intros Hsame.
    + by rewrite (proj2 (Nat.leb_le 3 (length same))) in Hfrom by lia.
    + by rewrite (proj2 (Nat.leb_gt 3 (length same))) in Hfrom by lia.
  - intros draws e rest. apply incorrectOptionsFrom_no_throw.
  - intros Halt draws. apply incorrectOptionsFor_eventually. by right.
  - intros avail draws incorrect rest H.
    destruct (incorrectOptionsFrom_spec _ _ _ _ _ H) as (Hlen & Hnd & Hother & Hsrc & _).
    done.
Qed.

Lemma incorrectOptions_three_distinct_witness :
  (∃ more incorrect rest,
     incorrectOptionsFor aboutWord (Lv A1) ([] ++ more) = Returned incorrect rest)
  ∧ incorrectOptionsFor aboutWord (Lv A1) [0; 2 ^ 51; 2 ^ 52]%N
    = Returned ["above"; "across"; "against"] []
  ∧ length ["above"; "across"; "against"] = 3.
Proof.
  destruct (incorrectOptions_three_distinct aboutWord (Lv A1)) as (Hret & _ & Hcan & _).
  split; [|split].
  - apply (Hcan ltac:(vm_compute; lia) []).
  - reflexivity.
  - apply (Hret [0; 2 ^ 51; 2 ^ 52]%N _ []). reflexivity.
Defined.

(** The three-alternatives condition is read with case ignored, as the
    used-word test reads it.  The filter of line 41 compares words as
    they are, so for [All], a stored determiner spelt with a capital, it
    keeps the three stored determiners although one of them is the
    correct word up to case; the loop then finds two usable words only
    and never ends.  The service lower-cases the word before it calls
    the generator, so this input does not reach it. *)
Lemma capital_variant_never_returns (draws : list N) :
  length (samePartOfSpeechOf capitalAll (levelWordsOf (Lv A1))) = 3
  ∧ length (alternativesOf capitalAll (levelWordsOf (Lv A1))) = 2
  ∧ incorrectOptionsFor capitalAll (Lv A1) draws = Starved.
Proof.
  split; [reflexivity|]. split; [reflexivity|].
  unfold incorrectOptionsFor, incorrectOptionsFrom.
  set (avail := availableWordsOf capitalAll (Lv A1)).
  assert (word <$> avail = ["all"; "another"; "any"]) as Hwords by reflexivity.
  assert (length avail = 3) as Hlen by reflexivity.
  cut (∀ incorrect (used : gset string),
         "all" ∈ used → NoDup incorrect →
         (∀ o, o ∈ incorrect → o ∈ ["another"; "any"] ∧ o ∈ used) →
         pickIncorrect avail draws incorrect used = Starved).
  { intros Hloop. rewrite Hloop; [reflexivity | set_solver | constructor |].
    intros o Ho. by apply elem_of_nil in Ho. }
  induction draws as [|d ds IH]; intros incorrect used Hall Hnd Hinc.
  - assert (length incorrect ≤ 2) as Hshort.
    { apply (submseteq_length _ ["another"; "any"]), NoDup_submseteq; [done|].
      intros o Ho. by apply Hinc. }
    apply pickIncorrect_starved; rewrite ?Hlen; lia.
  - assert (length incorrect ≤ 2) as Hshort.
    { apply (submseteq_length _ ["another"; "any"]), NoDup_submseteq; [done|].
      intros o Ho. by apply Hinc. }
    pose proof (floorRandomTimes_lt d 3 ltac:(lia)) as Hidx.
    destruct (lookup_lt_is_Some_2 avail (floorRandomTimes d (length avail))) as [w Hw];
      [rewrite Hlen; exact Hidx|].
    rewrite (pickIncorrect_step _ _ _ _ _ w) by (rewrite ?Hlen; done || lia).
    assert (word w ∈ ["all"; "another"; "any"]) as Hcases.
    { rewrite <- Hwords. apply list_elem_of_fmap_2. by eapply list_elem_of_lookup_2. }
    destruct (decide (toLowerCase (word w) ∈ used)) as [Hin|Hout]; [by apply IH|].
    assert (word w ∈ ["another"; "any"] ∧ toLowerCase (word w) = word w) as [Hw2 Hlow].
    { rewrite !elem_of_cons in Hcases.
      destruct Hcases as [Hc|[Hc|[Hc|Hc%elem_of_nil]]]; try done; rewrite Hc in *.
      - by destruct Hout.
      - split; [left | reflexivity].
      - split; [right; left | reflexivity]. }
    rewrite Hlow in *. apply IH.
    + set_solver.
    + apply NoDup_app. split; [done|]. split; [|apply NoDup_singleton].
      intros o Ho Ho'. apply list_elem_of_singleton in Ho'. subst o.
      apply Hout. by apply Hinc.
    + intros o [Ho | Ho]%elem_of_app.
      * destruct (Hinc o Ho). split; [done | set_solver].
      * apply list_elem_of_singleton in Ho. subst o. split; [done | set_solver].
Qed.

(** *** The shuffled options *)

Lemma optionsWellFormed_Permutation target options options' :
  options ≡ₚ options' → optionsWellFormed target options → optionsWellFormed target options'.
Proof.
  intros Hperm (Hlen & Hnd & Honce). repeat split.
  - by rewrite <- Hperm.
  - by rewrite <- Hperm.
  - by rewrite <- Hperm.
Qed.

Lemma optionsWellFormed_cons target incorrect :
  length incorrect = 3 → NoDup (toLowerCase <$> incorrect) →
  toLowerCase target ∉ toLowerCase <$> incorrect →
  optionsWellFormed target (target :: incorrect).
Proof.
  intros Hlen Hnd Hother. repeat split.
  - simpl. lia.
  - rewrite fmap_cons. by constructor.
  - rewrite filter_cons_True by done. simpl. f_equal.
    apply length_zero_iff_nil.
    destruct (filter _ incorrect) as [|o l] eqn:Hf; [done|].
    assert (o ∈ filter (λ o, o = target) incorrect) as Ho by (rewrite Hf; left).
    apply list_elem_of_filter in Ho as [-> Ho].
    destruct Hother. by apply list_elem_of_fmap_2.
Qed.

Lemma fisherYates_Permutation i a draws b rest :
  fisherYates i a draws = Returned b rest → b ≡ₚ a.
Proof.
  revert a draws. induction i as [|i IH]; intros a draws H; simpl in H.
  - by injection H as <- _.
  - destruct draws as [|d ds]; [discriminate|].
    rewrite (IH _ _ H). apply swap_Permutation.
Qed.

Lemma fisherYates_no_throw i a draws e rest : fisherYates i a draws ≠ Threw e rest.
Proof.
  revert a draws. induction i as [|i IH]; intros a draws; simpl; [done|].
  destruct draws; [done | apply IH].
Qed.

Lemma fisherYates_returns i a draws :
  i ≤ length draws → ∃ b, fisherYates i a draws = Returned b (drop i draws).
Proof.
  revert a draws. induction i as [|i IH]; intros a draws Hlen; simpl.
  - by exists a.
  - destruct draws as [|d ds]; simpl in *; [lia|]. apply IH. lia.
Qed.

(** What the provider path offers: the correct word and three incorrect
    options, rearranged; the options invariant holds. *)
Lemma generateMultipleChoiceOptions_spec c lv draws options rest :
  generateMultipleChoiceOptions c lv draws = Returned options rest →
  (∃ incorrect rest', incorrectOptionsFor c lv draws = Returned incorrect rest'
                      ∧ options ≡ₚ word c :: incorrect)
  ∧ optionsWellFormed (word c) options.
Proof.
  unfold generateMultipleChoiceOptions. intros H.
  destruct (incorrectOptionsFor c lv draws) as [incorrect rest'| |] eqn:Hinc;
    try discriminate.
  apply fisherYates_Permutation in H.
  split; [by exists incorrect, rest'|].
  destruct (incorrectOptionsFrom_spec _ _ _ _ _ Hinc) as (Hlen & Hnd & Hother & _).
  eapply optionsWellFormed_Permutation; [symmetry; exact H|].
  by apply optionsWellFormed_cons.
Qed.

Lemma generateMultipleChoiceOptions_no_throw c lv draws e rest :
  generateMultipleChoiceOptions c lv draws ≠ Threw e rest.
Proof.
  unfold generateMultipleChoiceOptions.
  destruct (incorrectOptionsFor c lv draws) as [incorrect rest'| |] eqn:Hinc.
  - apply fisherYates_no_throw.
  - intros [= -> ->]. by eapply incorrectOptionsFrom_no_throw.
  - done.
Qed.

(** For a correct word in lower case the generator can always return. *)
Lemma generateMultipleChoiceOptions_eventually c lv draws :
  toLowerCase (word c) = word c →
  ∃ more options rest,
    generateMultipleChoiceOptions c lv (draws ++ more) = Returned options rest.
Proof.
  intros Hlow.
  destruct (incorrectOptionsFor_eventually c lv draws) as (more & incorrect & rest & Hinc).
  { rewrite alternativesOf_lower_case by done. lia. }
  exists (more ++ [0; 0; 0]%N).
  unfold generateMultipleChoiceOptions.
  unfold incorrectOptionsFor in *. rewrite app_assoc.
  rewrite (incorrectOptionsFrom_extend _ _ _ [0; 0; 0]%N _ _
             (availableWordsOf_length c lv) Hinc).
  destruct (incorrectOptionsFrom_spec _ _ _ _ _ Hinc) as (Hlen & _).
  destruct (fisherYates_returns (length (word c :: incorrect) - 1) (word c :: incorrect)
              (rest ++ [0; 0; 0]%N)) as [b Hb].
  { simpl. rewrite length_app. simpl. lia. }
  eauto.
Qed.

End GeneratorFacts.

(** ** Starting a round *)

Module StartGameFacts.
Import JsString JsText ApiErrorHandler JsMath Oxford3000 AIService GameState App.
Import JsMathFacts StoreFacts DistractorFacts GeneratorFacts.
Import Notions Measures Samples Specimens.

Local Open Scope nat_scope.
Local Open Scope list_scope.

Lemma getRandomWord_returns (lv : option Level) (d : N) (ds : list N) :
  ∃ w, getRandomWord lv (d :: ds) = Returned (Some w) ds
       ∧ w ∈ oxford3000Words
       ∧ (∀ l, lv = Some l → level w = l).
Proof.
  unfold getRandomWord.
  set (words := match lv with Some l => getWordsByLevel l | None => oxford3000Words end).
  destruct (lookup_lt_is_Some_2 words (floorRandomTimes d (length words))) as [w Hw].
  { apply floorRandomTimes_lt. subst words. destruct lv as [l|].
    - rewrite getWordsByLevel_length. lia.
    - simpl. lia. }
  exists w. rewrite Hw. split; [reflexivity|].
  apply list_elem_of_lookup_2 in Hw. subst words. destruct lv as [l|].
  - apply list_elem_of_filter in Hw as [Hl Hin]. split; [done|]. by intros ? [= <-].
  - split; [done|]. discriminate.
Qed.

Lemma getRandomWord_cases lv draws :
  draws = [] ∧ getRandomWord lv draws = Starved
  ∨ ∃ w rest, getRandomWord lv draws = Returned (Some w) rest.
Proof.
  destruct draws as [|d ds]; [by left | right].
  destruct (getRandomWord_returns lv d ds) as (w & H & _). eauto.
Qed.

Lemma sortFrom_no_throw todo placed draws e rest :
  sortFrom todo placed draws ≠ Threw e rest.
Proof.
  revert placed draws. induction todo as [|x todo IH]; intros placed draws; simpl; [done|].
  destruct (insertLeftwards x placed draws) as [l r| |] eqn:Hins; [apply IH| |done].
  exfalso. revert draws e0 rest0 Hins. clear.
  induction placed as [|y placed IH]; intros draws e rest H; simpl in H; [done|].
  destruct draws as [|d ds]; [done|]. destruct (overHalf d); [|done].
  destruct (insertLeftwards x placed ds) eqn:Hrec; try done. by eapply IH.
Qed.

(** The fallback path never throws. *)
Lemma startGameFallback_no_throw app draws e rest :
  startGameFallback app draws ≠ Threw e rest.
Proof.
  unfold startGameFallback.
  destruct (getRandomWord_cases
              (match selectedLevel (gameState app) with ALL => None | Lv l => Some l end)
              draws) as [[_ ->] | (w & rest' & ->)]; [done|].
  destruct (sortRandomly _ rest') as [l r| e' r|] eqn:Hsort; try done.
  by apply sortFrom_no_throw in Hsort.
Qed.

(** With seven draws at hand the fallback path returns a challenge
    drawn from the store, of the requested level. *)
Lemma startGameFallback_returns app draws :
  7 ≤ length draws →
  ∃ app' rest target, startGameFallback app draws = Returned app' rest
                      ∧ fellBackTo app app' target
                      ∧ aiService app' = aiService app.
Proof.
  intros Hlen. destruct draws as [|d ds]; simpl in Hlen; [lia|].
  unfold startGameFallback.
  destruct (getRandomWord_returns
              (match selectedLevel (gameState app) with ALL => None | Lv l => Some l end)
              d ds) as (w & -> & Hin & Hlevel).
  destruct (sortFrom_returns (fallbackWords w) [] ds) as (l & rest & Hsort);
    [simpl; lia|].
  unfold sortRandomly. fold (fallbackWords w). rewrite Hsort.
  eexists _, rest, w. split; [reflexivity|]. split; [|reflexivity].
  pose proof (sortFrom_Permutation _ _ _ _ _ Hsort) as Hperm. rewrite app_nil_r in Hperm.
  unfold fellBackTo; simpl. repeat split; try done.
  - intros l' Hl'. apply Hlevel. by rewrite Hl'.
  - by rewrite Hperm.
  - rewrite Hperm. left.
Qed.

Lemma buildResponse_throw_keeps_draws lv body draws e rest :
  buildResponse lv body draws = Threw e rest → rest = draws.
Proof.
  unfold buildResponse. destruct body as [|[p|]]; try by intros [= _ <-].
  destruct (_ || _); [by intros [= _ <-]|].
  destruct (generateMultipleChoiceOptions _ lv draws) eqn:Hgen; try done.
  by apply generateMultipleChoiceOptions_no_throw in Hgen.
Qed.

(** When the provider path throws, no draw has been used. *)
Lemma fetchWordAndClue_throw_keeps_draws svc lv now later world draws e rest :
  fst (fetchWordAndClue svc lv now later world draws) = Threw e rest → rest = draws.
Proof.
  unfold fetchWordAndClue. destruct (negb (keyIsUsable _)); [by intros [= _ <-]|].
  destruct (canMakeRequest now _) as [ok rl]. destruct (negb ok).
  { destruct (getTimeUntilNextRequest _ _ rl). by intros [= _ <-]. }
  destruct (settled _) as [body|error]; [|by intros [= _ <-]].
  destruct (buildResponse lv body draws) eqn:Hbuild; simpl; try done.
  intros [= _ <-]. by eapply buildResponse_throw_keeps_draws.
Qed.

(** Against a provider that answers 401 to every request the provider
    path throws, whatever the service, the level and the clock. *)
Lemma unauthorized_provider_fails app now later clocks statusText draws :
  primaryFails app now later
    (λ k, {| clock := clocks k; reply := HttpError 401 statusText |}) draws.
Proof.
  unfold primaryFails. destruct (aiService app) as [svc|]; [|exact I].
  unfold fetchWordAndClue. destruct (negb (keyIsUsable _)); [by eexists _, _|].
  destruct (canMakeRequest now _) as [ok rl]. destruct (negb ok).
  { destruct (getTimeUntilNextRequest _ _ rl). by eexists _, _. }
  simpl. by eexists _, _.
Qed.

(** *** The options of a round *)

Lemma startGameFallback_inv app draws app' rest :
  startGameFallback app draws = Returned app' rest →
  ∃ target, fellBackTo app app' target.
Proof.
  unfold startGameFallback. destruct draws as [|d ds]; [done|].
  destruct (getRandomWord_returns
              (match selectedLevel (gameState app) with ALL => None | Lv l => Some l end)
              d ds) as (w & -> & Hin & Hlevel).
  destruct (sortRandomly _ ds) as [l r| |] eqn:Hsort; try done.
  intros [= <- <-]. exists w.
  apply sortRandomly_Permutation in Hsort.
  unfold fellBackTo; simpl. repeat split; try done.
  - intros l' Hl'. apply Hlevel. by rewrite Hl'.
  - by rewrite Hsort.
  - rewrite Hsort. left.
Qed.

Lemma store_words_not_fixed :
  Forall (λ w, word w ≠ "example" ∧ word w ≠ "question") oxford3000Words.
Proof. compute_done. Qed.

(** The fallback options are well formed for every stored word but
    [answer]. *)
Lemma fallbackWords_wellFormed target :
  target ∈ oxford3000Words → word target ≠ "answer" →
  optionsWellFormed (word target) (fallbackWords target).
Proof.
  intros Hin Hne.
  pose proof store_words_lower_case as Hlow. rewrite Forall_forall in Hlow.
  pose proof store_words_not_fixed as Hfix. rewrite Forall_forall in Hfix.
  destruct (Hfix _ Hin) as [Hex Hq]. specialize (Hlow _ Hin).
  unfold optionsWellFormed, fallbackWords. split; [reflexivity|]. split.
  - rewrite fmap_cons, Hlow. apply NoDup_cons. split; [|compute_done].
    simpl. rewrite !elem_of_cons. intros [?|[?|[?|?%elem_of_nil]]]; done.
  - rewrite filter_cons_True by done.
    rewrite !filter_cons_False by (intros ?; done). reflexivity.
Qed.

Lemma fallback_options_wellFormed app draws app' rest target :
  startGameFallback app draws = Returned app' rest →
  currentWord (gameState app') = Some target → word target ≠ "answer" →
  optionsWellFormed (word target) (multipleChoiceOptions (gameState app')).
Proof.
  intros Hrun Hcur Hne.
  destruct (startGameFallback_inv _ _ _ _ Hrun) as (w & Hw & Hin & _ & _ & Hperm & _).
  assert (w = target) as -> by congruence.
  eapply optionsWellFormed_Permutation; [symmetry; exact Hperm|].
  by apply fallbackWords_wellFormed.
Qed.

Lemma buildResponse_options_wellFormed lv body draws r rest :
  buildResponse lv body draws = Returned r rest →
  optionsWellFormed (word (r_word r)) (r_multipleChoiceOptions r).
Proof.
  unfold buildResponse. destruct body as [|[p|]]; try done.
  destruct (_ || _); [done|].
  destruct (generateMultipleChoiceOptions _ lv draws) as [options rest'| |] eqn:Hgen;
    try done.
  intros [= <- <-]. simpl.
  by destruct (generateMultipleChoiceOptions_spec _ _ _ _ _ Hgen) as [_ Hwf].
Qed.

(** The options the provider path returns are well formed. *)
Lemma fetchWordAndClue_options_wellFormed svc lv now later world draws r rest :
  fst (fetchWordAndClue svc lv now later world draws) = Returned r rest →
  optionsWellFormed (word (r_word r)) (r_multipleChoiceOptions r).
Proof.
  unfold fetchWordAndClue. destruct (negb (keyIsUsable _)); [done|].
  destruct (canMakeRequest now _) as [ok rl]. destruct (negb ok).
  { by destruct (getTimeUntilNextRequest _ _ rl). }
  destruct (settled _) as [body|error]; [|done].
  destruct (buildResponse lv body draws) eqn:Hbuild; simpl; try done.
  intros [= <- <-]. by eapply buildResponse_options_wellFormed.
Qed.

(** And the provider path can return them: with a usable key, an
    admitting limiter and a complete reply to the first request, some
    continuation of the draws yields a response. *)
Lemma fetchWordAndClue_can_return svc lv now later world p draws :
  keyIsUsable (apiKey svc) = true →
  fst (canMakeRequest now (rateLimiter svc)) = true →
  reply (world 1) = HttpOk (Content (Some p)) →
  p_word p ≠ "" → p_definition p ≠ "" → p_clue p ≠ "" →
  ∃ more r rest,
    fst (fetchWordAndClue svc lv now later world (draws ++ more)) = Returned r rest
    ∧ r_clue r = p_clue p
    ∧ word (r_word r) = toLowerCase (p_word p).
Proof.
  intros Hkey Hok Hreply Hw Hd Hc.
  set (w := {|
    word := toLowerCase (p_word p);
    level := match p_level p with
             | Some l => l
             | None => match lv with ALL => B1 | Lv l => l end
             end;
    definition := p_definition p;
    example := or_else (Some (p_example p))
                 ("This is an example with " +:+ p_word p +:+ ".");
    partOfSpeech := or_else (Some (p_partOfSpeech p)) "word" |}).
  destruct (generateMultipleChoiceOptions_eventually w lv draws)
    as (more & options & rest & Hgen); [apply JsStringFacts.toLowerCase_idem|].
  exists more. unfold fetchWordAndClue. rewrite Hkey. simpl negb. cbv iota.
  destruct (canMakeRequest now (rateLimiter svc)) as [ok rl]. simpl in Hok. subst ok.
  simpl negb. cbv iota.
  unfold retryWithBackoff, retryAttempts. simpl retryFrom.
  unfold requestCompletion at 1. rewrite Hreply. simpl settled.
  unfold buildResponse.
  apply String.eqb_neq in Hw, Hd, Hc. rewrite Hw, Hd, Hc. simpl orb. cbv iota.
  fold w. rewrite Hgen. simpl. eauto.
Qed.

Lemma store_clue_blank :
  Forall (λ w, includes "____" (fallbackClueFor w) = true
               ↔ word w ∉ ["all"; "although"; "anyone"; "according"; "agriculture"])
         oxford3000Words.
Proof. compute_done. Qed.

Lemma fallbackWords_answer_twice target options :
  word target = "answer" → options ≡ₚ fallbackWords target →
  ¬ optionsWellFormed (word target) options.
Proof.
  intros Hword Hperm (_ & _ & Honce). rewrite Hperm in Honce.
  unfold fallbackWords in Honce. rewrite Hword in Honce. simpl in Honce. lia.
Qed.

(** The challenge of the fallback path is well formed for every entry
    of the store but six. *)
Lemma fallback_challenge_wellFormed_iff target options :
  target ∈ oxford3000Words → options ≡ₚ fallbackWords target →
  challengeWellFormed target (fallbackClueFor target) options
  ↔ word target ∉ ["answer"; "all"; "although"; "anyone"; "according"; "agriculture"].
Proof.
  intros Hin Hperm.
  pose proof store_clue_blank as Hblank. rewrite Forall_forall in Hblank.
  specialize (Hblank target Hin). unfold challengeWellFormed, blank. split.
  - intros [Hwf Hfive]. apply Hblank in Hfive. apply not_elem_of_cons.
    split; [|exact Hfive].
    intros Hword. by apply (fallbackWords_answer_twice target options).
  - intros [Hne Hfive]%not_elem_of_cons. split; [|by apply Hblank].
    eapply optionsWellFormed_Permutation; [symmetry; exact Hperm|].
    by apply fallbackWords_wellFormed.
Qed.

Lemma startGame_failed_is_fallback app now later world draws :
  primaryFails app now later world draws →
  ∃ app0, startGame app now later world draws = startGameFallback app0 draws
          ∧ gameState app0 = gameState app.
Proof.
  unfold primaryFails, startGame. intros Hfail.
  destruct (aiService app) as [svc|] eqn:Hsvc; [|by exists app].
  destruct Hfail as (e & rest & Hthrow).
  pose proof (fetchWordAndClue_throw_keeps_draws _ _ _ _ _ _ _ _ Hthrow) as ->.
  destruct (fetchWordAndClue svc _ now later world draws) as [o svc']. simpl in Hthrow.
  subst o. by exists (withService (Some svc') app).
Qed.

(** C1.  When the primary path fails, whatever the error, starting a
    round does not throw (nor does the fallback path on its own), and
    with seven draws at hand (one for the word, at most six for the
    shuffle) it returns.  What it returns holds an entry of the store as
    target, of the requested level unless the level is [ALL]; the clue
    is the template around the example sentence in which the first
    occurrence of the word, letter for letter, is replaced by the
    blank; the options are the word and [example], [answer],
    [question] in some order.  This challenge is well formed (options
    distinct with the word once, a blank in the clue) exactly when the
    word is none of [answer], [all], [although], [anyone], [according],
    [agriculture]: for [answer] the options hold it twice, and for the
    other five, whose sentences begin with the word capitalised, the
    clue has no blank. *)
Theorem startGame_fallback_well_formed_but_for_six
    (app : AppModel) (now : Z) (later : Z * Z) (world : nat → Attempt)
    (draws : list N) :
  (∀ e rest, startGameFallback app draws ≠ Threw e rest)
  ∧ (primaryFails app now later world draws →
       (∀ e rest, startGame app now later world draws ≠ Threw e rest)
       ∧ (7 ≤ length draws →
            ∃ app' rest, startGame app now later world draws = Returned app' rest)
       ∧ (∀ app' rest,
            startGame app now later world draws = Returned app' rest →
            ∃ target,
              currentWord (gameState app') = Some target
              ∧ target ∈ oxford3000Words
              ∧ (∀ l, selectedLevel (gameState app) = Lv l → level target = l)
              ∧ currentClue (gameState app')
                = ("This word means " ++ dquote ++ definition target ++ dquote
                   ++ ". Complete this sentence: " ++ dquote
                   ++ replace (word target) "____" (example target) ++ dquote)%string
              ∧ multipleChoiceOptions (gameState app')
                ≡ₚ [word target; "example"; "answer"; "question"]
              ∧ (challengeWellFormed target (currentClue (gameState app'))
                   (multipleChoiceOptions (gameState app'))
                 ↔ word target
                   ∉ ["answer"; "all"; "although"; "anyone"; "according";
                      "agriculture"]))).
Proof.
  split; [intros e rest; apply startGameFallback_no_throw|].
  intros Hfail.
  destruct (startGame_failed_is_fallback _ _ _ _ _ Hfail) as (app0 & -> & Hgs).
  split; [intros e rest; apply startGameFallback_no_throw|]. split.
  - intros Hlen.
    destruct (startGameFallback_returns app0 draws Hlen) as (app' & rest & _ & Hrun & _).
    by exists app', rest.
  - intros app' rest Hrun.
    destruct (startGameFallback_inv _ _ _ _ Hrun)
      as (target & Hw & Hin & Hlevel & Hclue & Hperm & _).
    exists target. rewrite Hgs in Hlevel.
    split; [exact Hw|]. split; [exact Hin|]. split; [exact Hlevel|].
    split; [exact Hclue|]. split; [exact Hperm|].
    rewrite Hclue. by apply fallback_challenge_wellFormed_iff.
Qed.

Lemma startGame_fallback_well_formed_but_for_six_witness :
  ∃ app' rest target,
    startGame a1App 0 (0, 0)%Z unauthorizedWorld allDraws = Returned app' rest
    ∧ currentWord (gameState app') = Some target
    ∧ word target = "all"
    ∧ level target = A1
    ∧ ¬ challengeWellFormed target (currentClue (gameState app'))
          (multipleChoiceOptions (gameState app')).
Proof.
  destruct (startGame_fallback_well_formed_but_for_six a1App 0 (0, 0)%Z unauthorizedWorld
              allDraws) as [_ Hfail].
  destruct Hfail as (_ & Hret & Hshape).
  { apply unauthorized_provider_fails. }
  destruct Hret as (app' & rest & Hrun); [simpl; lia|].
  destruct (Hshape app' rest Hrun) as (target & Hw & _ & Hlevel & _ & _ & Hiff).
  exists app', rest, target.
  assert (Some target = Some allWord) as [= ->].
  { rewrite <- Hw. revert Hrun. vm_compute. by intros [= <- _]. }
  split; [exact Hrun|]. split; [exact Hw|]. split; [reflexivity|].
  split; [reflexivity|].
  rewrite Hiff. intros Hnot. apply Hnot. right. left.
Defined.

(** C2.  On the fallback path, when the word drawn from the store is
    [answer], the options hold [answer] twice: the target does not occur
    exactly once and the entries are not distinct. *)
Theorem fallback_repeats_answer
    (app app' : AppModel) (draws rest : list N) (target : Word) :
  startGameFallback app draws = Returned app' rest →
  currentWord (gameState app') = Some target →
  word target = "answer" →
  length (filter (λ o, o = word target) (multipleChoiceOptions (gameState app'))) = 2
  ∧ ¬ NoDup (toLowerCase <$> multipleChoiceOptions (gameState app'))
  ∧ ¬ optionsWellFormed (word target) (multipleChoiceOptions (gameState app')).
Proof.
  intros Hrun Hcur Hword.
  destruct (startGameFallback_inv _ _ _ _ Hrun) as (w & Hw & _ & _ & _ & Hperm & _).
  assert (w = target) as -> by congruence.
  unfold fallbackWords in Hperm. rewrite Hword in *.
  assert (length (filter (λ o, o = "answer") (multipleChoiceOptions (gameState app'))) = 2)
    as Htwice by (by rewrite Hperm).
  split; [exact Htwice|]. split.
  - rewrite Hperm. simpl. intros [Hnot _]%NoDup_cons. apply Hnot. right; left.
  - intros (_ & _ & Honce). lia.
Qed.

Lemma fallback_repeats_answer_witness :
  ∃ app' rest,
    startGameFallback a1App [7 * 2 ^ 50; 0; 0; 0; 0; 0; 0]%N = Returned app' rest
    ∧ length (filter (λ o, o = "answer") (multipleChoiceOptions (gameState app'))) = 2.
Proof.
  eexists _, _. split; [vm_compute; reflexivity|].
  lazymatch goal with
  | |- context [gameState ?a] =>
      refine (proj1 (fallback_repeats_answer a1App a [7 * 2 ^ 50; 0; 0; 0; 0; 0; 0]%N
                       [0; 0; 0]%N answerWord _ eq_refl eq_refl))
  end.
  vm_compute. reflexivity.
Defined.

End StartGameFacts.

(* ================================================================== *)
(** * Further properties *)
(* ================================================================== *)

(** ** The retry loop *)

Module RetryLoopFacts.
Import ApiErrorHandler.
Import Measures.

Local Open Scope nat_scope.
Local Open Scope list_scope.

Lemma backoffDelays_shift (baseDelay : Z) (attempt n : nat) :
  1 ≤ attempt →
  (λ i, baseDelay * 2 ^ (Z.of_nat (attempt + i) - 1))%Z <$> seq 0 (S n)
  = (baseDelay * 2 ^ (Z.of_nat attempt - 1))%Z
    :: ((λ i, baseDelay * 2 ^ (Z.of_nat (S attempt + i) - 1))%Z <$> seq 0 n).
Proof.
  intros Ha. cbn [seq fmap list_fmap]. f_equal.
  - do 2 f_equal. lia.
  - rewrite <- seq_shift, <- list_fmap_compose. apply list_fmap_ext.
    intros _ i _. simpl. do 2 f_equal. lia.
Qed.

Lemma retryFrom_invocations {St A} (fn : nat → St → Settled A * St)
    (baseDelay : Z) (attempt more : nat) (s : St) :
  1 ≤ invocations (retryFrom fn baseDelay attempt more s) ≤ S more.
Proof.
  revert attempt s. induction more as [|more IH]; intros attempt s; simpl.
  - destruct (fn attempt s) as [[a|e] s']; simpl; [lia|].
    destruct (nonRetryable e); simpl; lia.
  - destruct (fn attempt s) as [[a|e] s']; simpl; [lia|].
    destruct (nonRetryable e); simpl; [lia|].
    specialize (IH (S attempt) s'). lia.
Qed.

Lemma retryFrom_delays {St A} (fn : nat → St → Settled A * St)
    (baseDelay : Z) (attempt more : nat) (s : St) :
  1 ≤ attempt →
  delays (retryFrom fn baseDelay attempt more s)
  = (λ i, baseDelay * 2 ^ (Z.of_nat (attempt + i) - 1))%Z
      <$> seq 0 (invocations (retryFrom fn baseDelay attempt more s) - 1).
Proof.
  revert attempt s. induction more as [|more IH]; intros attempt s Ha; simpl.
  - destruct (fn attempt s) as [[a|e] s']; simpl; [done|].
    destruct (nonRetryable e); done.
  - destruct (fn attempt s) as [[a|e] s']; simpl; [done|].
    destruct (nonRetryable e); simpl; [done|].
    pose proof (retryFrom_invocations fn baseDelay (S attempt) more s') as Hn.
    rewrite IH by lia. rewrite Nat.sub_0_r.
    destruct (invocations _) as [|n]; [lia|].
    rewrite backoffDelays_shift by done. simpl. by rewrite Nat.sub_0_r.
Qed.

(** The last invocation settles the run; the ones before it were
    rejections the loop retries; a run that stops early is conclusive. *)
Lemma retryFrom_trace {St A} (fn : nat → St → Settled A * St)
    (baseDelay : Z) (attempt more : nat) (s : St) :
  let r := retryFrom fn baseDelay attempt more s in
  let n := invocations r in
  fn (attempt + (n - 1)) (runFrom fn attempt (n - 1) s) = (settled r, final r)
  ∧ (∀ k, k < n - 1 →
       ∃ e, fst (fn (attempt + k) (runFrom fn attempt k s)) = Rejected e
            ∧ nonRetryable e = false)
  ∧ (n < S more → conclusive (settled r)).
Proof.
  revert attempt s. induction more as [|more IH]; intros attempt s; simpl.
  - destruct (fn attempt s) as [[a|e] s'] eqn:Hfn;
      [|destruct (nonRetryable e) eqn:Hnr]; simpl;
      rewrite Nat.add_0_r, Hfn;
      (split; [done|]; split; [intros; lia | first [done | intros; lia]]).
  - destruct (fn attempt s) as [[a|e] s'] eqn:Hfn;
      [|destruct (nonRetryable e) eqn:Hnr]; simpl.
    1,2: rewrite Nat.add_0_r, Hfn;
      (split; [done|]; split; [intros; lia | first [done | intros; lia]]).
    pose proof (retryFrom_invocations fn baseDelay (S attempt) more s') as Hn.
    destruct (IH (S attempt) s') as (Hlast & Hbefore & Hearly).
    rewrite Nat.sub_0_r.
    destruct (invocations (retryFrom fn baseDelay (S attempt) more s'))
      as [|n'] eqn:Hinv'; [lia|].
    simpl in Hlast, Hbefore. rewrite Nat.sub_0_r in Hlast, Hbefore.
    simpl. rewrite Hfn. simpl.
    replace (attempt + S n') with (S (attempt + n')) by lia.
    split; [exact Hlast|]. split.
    + intros [|k] Hk; simpl.
      * rewrite Nat.add_0_r, Hfn. by exists e.
      * rewrite Hfn. simpl.
        replace (attempt + S k) with (S (attempt + k)) by lia.
        apply Hbefore. lia.
    + intros Hlt. apply Hearly. lia.
Qed.

(** X1.  The retry wrapper invokes the wrapped function at most
    [maxAttempts] times, at least once when [maxAttempts] is positive,
    and between two invocations it sleeps [baseDelay], then twice that,
    then four times that, and so on: one delay fewer than invocations. *)
Theorem retryWithBackoff_bounded_backoff {St A : Type}
    (fn : nat → St → Settled A * St) (maxAttempts : nat) (baseDelay : Z) (s : St) :
  let r := retryWithBackoff fn maxAttempts baseDelay s in
  invocations r ≤ maxAttempts
  ∧ Nat.min 1 maxAttempts ≤ invocations r
  ∧ delays r = backoffDelays baseDelay (invocations r - 1).
Proof.
  destruct maxAttempts as [|more]; simpl.
  - repeat split; lia.
  - pose proof (retryFrom_invocations fn baseDelay 1 more s) as Hn.
    split; [lia|]. split; [lia|].
    rewrite retryFrom_delays by lia. unfold backoffDelays.
    apply list_fmap_ext. intros _ i _. simpl. do 2 f_equal. lia.
Qed.

(** X2.  With at least one attempt allowed, the run settles as its last
    invocation did and leaves the state that invocation left; every
    invocation before the last was rejected with an error the loop
    retries; and a run that used fewer invocations than allowed ended
    in a success or in an error that is not retried. *)
Theorem retryWithBackoff_settles_as_last_invocation {St A : Type}
    (fn : nat → St → Settled A * St) (maxAttempts : nat) (baseDelay : Z) (s : St) :
  0 < maxAttempts →
  let r := retryWithBackoff fn maxAttempts baseDelay s in
  let n := invocations r in
  fn n (runFrom fn 1 (n - 1) s) = (settled r, final r)
  ∧ (∀ k, 1 ≤ k < n →
       ∃ e, fst (fn k (runFrom fn 1 (k - 1) s)) = Rejected e
            ∧ nonRetryable e = false)
  ∧ (n < maxAttempts → conclusive (settled r)).
Proof.
  intros Hpos. destruct maxAttempts as [|more]; [lia|]. simpl.
  pose proof (retryFrom_invocations fn baseDelay 1 more s) as Hn.
  destruct (retryFrom_trace fn baseDelay 1 more s) as (Hlast & Hbefore & Hearly).
  simpl in Hlast, Hbefore, Hearly.
  destruct (invocations (retryFrom fn baseDelay 1 more s)) as [|n] eqn:Hinv; [lia|].
  simpl in *. rewrite Nat.sub_0_r in *.
  split; [exact Hlast|]. split; [|exact Hearly].
  intros [|k] Hk; [lia|]. simpl. rewrite Nat.sub_0_r. apply Hbefore. lia.
Qed.

Lemma retryWithBackoff_settles_as_last_invocation_witness :
  conclusive (settled (retryWithBackoff
                         (λ k (s : nat),
                            (if k =? 3 then Fulfilled k
                             else Rejected (ThrownError (newError "busy")), s + k))
                         5 1000%Z 0)).
Proof.
  apply (retryWithBackoff_settles_as_last_invocation
           (λ k (s : nat), (if k =? 3 then Fulfilled k
                            else Rejected (ThrownError (newError "busy")), s + k))
           5 1000%Z 0 ltac:(lia)).
  vm_compute. lia.
Defined.

End RetryLoopFacts.

(** ** The two error handlers *)

Module HandlerFacts.
Import ApiErrorHandler.
Import Notions Measures.

Local Open Scope Z_scope.

Lemma classifyHttpError_nonRetryable (status : Z) :
  bool_decide (classifyHttpError status = AUTHENTICATION)
  || bool_decide (classifyHttpError status = VALIDATION)
  = bool_decide (400 ≤ status < 500 ∧ status ≠ 429).
Proof. unfold classifyHttpError. by_status. Qed.

(** X3.  Both handlers keep the error they were given as
    [originalError]; the status code they report is the one of the HTTP
    response, and there is none for a timeout or for an error without a
    response.  A timeout ([AbortError]) is classified as such whatever
    response the error carries. *)
Theorem handlers_keep_cause_and_status (error : JsError) :
  originalError (handleOpenAIError error) = Some error
  ∧ originalError (handleElevenLabsError error) = Some error
  ∧ statusCode (handleOpenAIError error)
    = (if String.eqb (name error) "AbortError" then None else statusOf error)
  ∧ statusCode (handleElevenLabsError error) = statusCode (handleOpenAIError error)
  ∧ (name error = "AbortError" →
       type (handleOpenAIError error) = TIMEOUT
       ∧ type (handleElevenLabsError error) = TIMEOUT).
Proof.
  unfold handleOpenAIError, handleElevenLabsError, statusOf.
  destruct error as [nm msg [[st d]|] req]; cbn [name response message request].
  - destruct (String.eqb nm "AbortError") eqn:Hab.
    + repeat split; reflexivity.
    + apply String.eqb_neq in Hab.
      cbn [status data fmap option_fmap option_map].
      repeat split; try (by_status; done); done.
  - destruct (String.eqb nm "AbortError") eqn:Hab.
    + repeat split; reflexivity.
    + apply String.eqb_neq in Hab.
      destruct req; repeat split; try reflexivity; done.
Qed.

Lemma handlers_keep_cause_and_status_witness :
  type (handleOpenAIError (httpFailure "AbortError" "aborted" 401
          {| error_message := None; detail_message := None; data_message := None |}
          true)) = TIMEOUT.
Proof.
  apply (handlers_keep_cause_and_status
           (httpFailure "AbortError" "aborted" 401
              {| error_message := None; detail_message := None; data_message := None |}
              true)).
  reflexivity.
Defined.

(** X4.  Which classified errors end a retry at once.  An error that
    the OpenAI handler classified is not retried exactly when it is not
    a timeout and carries a response with a status from 400 to 499 other
    than 429; for the ElevenLabs handler the status 402 is excepted as
    well.  Timeouts, network errors, rate limits, server errors and
    errors without a response are retried. *)
Theorem classified_errors_not_retried (error : JsError) :
  (nonRetryable (ThrownAPIError (handleOpenAIError error)) = true
   ↔ name error ≠ "AbortError"
     ∧ ∃ st, statusOf error = Some st ∧ 400 ≤ st < 500 ∧ st ≠ 429)
  ∧ (nonRetryable (ThrownAPIError (handleElevenLabsError error)) = true
     ↔ name error ≠ "AbortError"
       ∧ ∃ st, statusOf error = Some st ∧ 400 ≤ st < 500 ∧ st ≠ 429 ∧ st ≠ 402).
Proof.
  unfold handleOpenAIError, handleElevenLabsError, statusOf, nonRetryable.
  destruct error as [nm msg [[st d]|] req]; cbn [name response message request].
  - destruct (String.eqb nm "AbortError") eqn:Hab.
    + apply String.eqb_eq in Hab. split; (split; [done | by intros [? _]]).
    + apply String.eqb_neq in Hab.
      cbn [status data fmap option_fmap option_map]. split.
      * destruct (Z.eqb_spec st 401) as [->|H401]; cbn [type].
        { split; [intros _; split; [done|]; exists 401; split; [done | lia] | done]. }
        destruct (Z.eqb_spec st 429) as [->|H429]; cbn [type].
        { split; [done | intros [_ (st & [= <-] & _ & ?)]; lia]. }
        rewrite classifyHttpError_nonRetryable, bool_decide_eq_true. split.
        -- intros ?. split; [done|]. exists st. split; [done | lia].
        -- intros [_ (st' & [= <-] & ? & ?)]. lia.
      * destruct (Z.eqb_spec st 401) as [->|H401]; cbn [type].
        { split; [intros _; split; [done|]; exists 401; split; [done | lia] | done]. }
        destruct (Z.eqb_spec st 429) as [->|H429]; cbn [type].
        { split; [done | intros [_ (st & [= <-] & _ & ? & _)]; lia]. }
        destruct (Z.eqb_spec st 402) as [->|H402]; cbn [type].
        { split; [done | intros [_ (st & [= <-] & _ & _ & ?)]; lia]. }
        rewrite classifyHttpError_nonRetryable, bool_decide_eq_true. split.
        -- intros ?. split; [done|]. exists st. split; [done | lia].
        -- intros [_ (st' & [= <-] & ? & ? & ?)]. lia.
  - destruct (String.eqb nm "AbortError") eqn:Hab.
    + apply String.eqb_eq in Hab. split; (split; [done | by intros [? _]]).
    + destruct req; cbn [type fmap option_fmap option_map];
        split; (split; [done | by intros [_ (? & ? & _)]]).
Qed.

End HandlerFacts.

(** ** The challenge provider client *)

Module ProviderFacts.
Import JsString ApiErrorHandler JsMath Oxford3000 AIService.
Import JsStringFacts RetryFacts RateLimiterFacts RetryLoopFacts GeneratorFacts StartGameFacts.
Import Notions Measures Samples Specimens.

Local Open Scope nat_scope.
Local Open Scope list_scope.

Lemma requestCompletion_snd world k rl :
  snd (requestCompletion world k rl) = recordRequest (clock (world k)) rl.
Proof. unfold requestCompletion. by destruct (reply (world k)). Qed.

(** Every invocation of the request records its clock reading. *)
Lemma requestCompletion_records world attempt more (rl : RateLimiter) delay :
  requests (final (retryFrom (requestCompletion world) delay attempt more rl))
  = requests rl
    ++ ((λ k, clock (world k))
          <$> seq attempt
                (invocations (retryFrom (requestCompletion world) delay attempt more rl))).
Proof.
  revert attempt rl. induction more as [|more IH]; intros attempt rl; simpl.
  - pose proof (requestCompletion_snd world attempt rl) as Hsnd.
    destruct (requestCompletion world attempt rl) as [[body|e] rl']; simpl in *;
      [by subst|].
    destruct (nonRetryable e); simpl; by subst.
  - pose proof (requestCompletion_snd world attempt rl) as Hsnd.
    destruct (requestCompletion world attempt rl) as [[body|e] rl']; simpl in *;
      [by subst|].
    destruct (nonRetryable e); simpl; [by subst|].
    rewrite IH. subst rl'. simpl. by rewrite <- app_assoc.
Qed.

Lemma requestCompletion_fst world k rl :
  fst (requestCompletion world k rl)
  = match reply (world k) with
    | HttpOk body => Fulfilled body
    | _ => fst (requestCompletion world k rl)
    end.
Proof. unfold requestCompletion. by destruct (reply (world k)). Qed.

Lemma requestCompletion_rejects world k rl e :
  fst (requestCompletion world k rl) = Rejected e →
  (∃ msg, e = ThrownError msg) ∧ ∀ body, reply (world k) ≠ HttpOk body.
Proof.
  unfold requestCompletion. destruct (reply (world k)); simpl; intros [= <-];
    (split; [by eexists | done]).
Qed.

Lemma requestCompletion_fulfils world k rl body :
  fst (requestCompletion world k rl) = Fulfilled body → reply (world k) = HttpOk body.
Proof.
  unfold requestCompletion. destruct (reply (world k)); simpl; by intros [= <-].
Qed.

(** The limiter a call leaves behind when it gets as far as sending. *)
Lemma fetchWordAndClue_limiter svc lv now later world draws :
  keyIsUsable (apiKey svc) = true →
  fst (canMakeRequest now (rateLimiter svc)) = true →
  rateLimiter (snd (fetchWordAndClue svc lv now later world draws))
  = final (retryWithBackoff (requestCompletion world) retryAttempts retryDelay
             (snd (canMakeRequest now (rateLimiter svc)))).
Proof.
  intros Hkey Hok. unfold fetchWordAndClue. rewrite Hkey. cbn [negb].
  destruct (canMakeRequest now (rateLimiter svc)) as [ok rl]. simpl in Hok. subst ok.
  cbn [negb snd].
  destruct (settled _) as [body|error]; [|done].
  by destruct (buildResponse lv body draws).
Qed.

(** X5.  With a usable key and an admitting limiter, [fetchWordAndClue]
    sends between one and three requests and records the clock reading
    of each behind the timestamps still in the window: retries count
    against the limit like first attempts.  No request before the last
    got a 2xx reply with a JSON body, and when fewer than three were
    sent the last one got such a reply; a 2xx reply whose body is not
    JSON is retried like any failure. *)
Theorem fetchWordAndClue_records_every_attempt
    (svc : AIService.AIService) (lv : SelectedLevel) (now : Z) (later : Z * Z)
    (world : nat → Attempt) (draws : list N) :
  keyIsUsable (apiKey svc) = true →
  fst (canMakeRequest now (rateLimiter svc)) = true →
  ∃ n, 1 ≤ n ≤ 3
       ∧ requests (rateLimiter (snd (fetchWordAndClue svc lv now later world draws)))
         = inWindow now (requests (rateLimiter svc))
           ++ ((λ k, clock (world k)) <$> seq 1 n)
       ∧ (∀ k body, 1 ≤ k < n → reply (world k) ≠ HttpOk body)
       ∧ (n < 3 → ∃ body, reply (world n) = HttpOk body).
Proof.
  intros Hkey Hok. rewrite fetchWordAndClue_limiter by done.
  rewrite canMakeRequest_unfold. cbn [snd].
  set (rl := {| requestsPerMinute := requestsPerMinute (rateLimiter svc);
                requests := inWindow now (requests (rateLimiter svc)) |}).
  set (run := retryWithBackoff (requestCompletion world) retryAttempts retryDelay rl).
  exists (invocations run).
  pose proof (retryFrom_invocations (requestCompletion world) retryDelay 1 2 rl) as Hn.
  change (retryFrom (requestCompletion world) retryDelay 1 2 rl) with run in Hn.
  split; [lia|]. split.
  { subst run. unfold retryWithBackoff, retryAttempts.
    by rewrite requestCompletion_records. }
  destruct (retryFrom_trace (requestCompletion world) retryDelay 1 2 rl)
    as (Hlast & Hbefore & Hearly).
  change (retryFrom (requestCompletion world) retryDelay 1 2 rl) with run
    in Hlast, Hbefore, Hearly.
  split.
  - intros k body Hk.
    destruct (Hbefore (k - 1)) as (e & He & _); [lia|].
    replace (1 + (k - 1)) with k in He by lia.
    by apply requestCompletion_rejects in He as [_ He].
  - intros Hlt. specialize (Hearly ltac:(lia)).
    replace (1 + (invocations run - 1)) with (invocations run) in Hlast by lia.
    destruct (settled run) as [body|e] eqn:Hset.
    + exists body. eapply requestCompletion_fulfils. by rewrite Hlast.
    + simpl in Hearly.
      pose proof (requestCompletion_always_retryable world (invocations run)
                    (runFrom (requestCompletion world) 1 (invocations run - 1) rl)) as Hr.
      rewrite Hlast in Hr. simpl in Hr. congruence.
Qed.

Lemma fetchWordAndClue_records_every_attempt_witness :
  ∃ n, 1 ≤ n ≤ 3
       ∧ requests (rateLimiter (snd (fetchWordAndClue keyedService ALL 500 (500, 500)%Z
                                       garbledWorld spreadDraws)))
         = (λ k, clock (garbledWorld k)) <$> seq 1 n
       ∧ reply (garbledWorld 1)
         = HttpOkUnreadable {| name := "SyntaxError"; message := "Unexpected token < in JSON";
                               response := None; request := false |}
       ∧ length (requests (rateLimiter (snd (fetchWordAndClue keyedService ALL 500
                                                (500, 500)%Z garbledWorld spreadDraws)))) = 2.
Proof.
  destruct (fetchWordAndClue_records_every_attempt keyedService ALL 500 (500, 500)%Z
              garbledWorld spreadDraws eq_refl eq_refl) as (n & Hn & Hreq & _).
  exists n. split; [exact Hn|]. split; [exact Hreq|]. split; reflexivity.
Defined.


(** X6.  Without a usable key, or when the limiter refuses, the call
    throws before anything is sent: the outcome does not depend on the
    provider, no draw is read, and no request is recorded (the limiter
    holds a part of the timestamps it held). *)
Theorem fetchWordAndClue_refuses_before_sending
    (svc : AIService.AIService) (lv : SelectedLevel) (now : Z) (later : Z * Z)
    (world : nat → Attempt) (draws : list N) :
  keyIsUsable (apiKey svc) = false
  ∨ fst (canMakeRequest now (rateLimiter svc)) = false →
  (∃ msg, fst (fetchWordAndClue svc lv now later world draws)
          = Threw (ThrownError (newError msg)) draws)
  ∧ requests (rateLimiter (snd (fetchWordAndClue svc lv now later world draws)))
      `sublist_of` requests (rateLimiter svc)
  ∧ ∀ world', fetchWordAndClue svc lv now later world' draws
              = fetchWordAndClue svc lv now later world draws.
Proof.
  intros Hpre. unfold fetchWordAndClue.
  destruct (keyIsUsable (apiKey svc)) eqn:Hkey; cbn [negb].
  - destruct Hpre as [|Hno]; [done|].
    rewrite !canMakeRequest_unfold in *. cbn [fst] in Hno. rewrite Hno. cbn [negb].
    rewrite getTimeUntilNextRequest_unfold.
    cbn [fst snd requests requestsPerMinute].
    destruct (bool_decide _); simpl; (split; [by eexists|]; split; [|done]).
    all: unfold inWindow; etrans; apply sublist_filter.
  - simpl. split; [by eexists|]. split; done.
Qed.

Lemma fetchWordAndClue_refuses_before_sending_witness :
  fetchWordAndClue (newAIService "sk-short") ALL 0 (0, 0)%Z flakyWorld spreadDraws
  = fetchWordAndClue (newAIService "sk-short") ALL 0 (0, 0)%Z answeringWorld spreadDraws.
Proof.
  apply (fetchWordAndClue_refuses_before_sending (newAIService "sk-short") ALL 0 (0, 0)%Z
           answeringWorld spreadDraws).
  left. reflexivity.
Defined.

Lemma buildResponse_throws_error lv body draws e rest :
  buildResponse lv body draws = Threw e rest → ∃ err, e = ThrownError err.
Proof.
  unfold buildResponse. destruct body as [|[p|]]; try (intros [= <- _]; by eexists).
  destruct (_ || _); [intros [= <- _]; by eexists|].
  destruct (generateMultipleChoiceOptions _ lv draws) eqn:Hgen; try done.
  by apply generateMultipleChoiceOptions_no_throw in Hgen.
Qed.

Lemma retried_request_rejects world rl e :
  settled (retryWithBackoff (requestCompletion world) retryAttempts retryDelay rl)
  = Rejected e →
  ∃ err, e = ThrownError err.
Proof.
  unfold retryWithBackoff, retryAttempts. intros Hset.
  destruct (retryFrom_trace (requestCompletion world) retryDelay 1 2 rl) as (Hlast & _).
  rewrite Hset in Hlast.
  eapply (requestCompletion_rejects world). by rewrite Hlast.
Qed.

(** X7.  Whatever goes wrong in [fetchWordAndClue], what the caller
    catches is a plain [Error] that carries a message and neither a
    response nor a status code, and no draw has been read. *)
Theorem fetchWordAndClue_throws_plain_errors
    (svc : AIService.AIService) (lv : SelectedLevel) (now : Z) (later : Z * Z)
    (world : nat → Attempt) (draws rest : list N) (e : Thrown) :
  fst (fetchWordAndClue svc lv now later world draws) = Threw e rest →
  (∃ msg, e = ThrownError (newError msg)) ∧ rest = draws.
Proof.
  intros Hthrow. split; [|by eapply fetchWordAndClue_throw_keeps_draws].
  revert Hthrow. unfold fetchWordAndClue.
  destruct (negb (keyIsUsable _)); [intros [= <- _]; by eexists|].
  destruct (canMakeRequest now _) as [ok rl]. destruct (negb ok).
  { destruct (getTimeUntilNextRequest _ _ rl). intros [= <- _]. by eexists. }
  destruct (settled _) as [body|error] eqn:Hset.
  - destruct (buildResponse lv body draws) eqn:Hbuild; simpl; try done.
    intros [= <- _]. apply buildResponse_throws_error in Hbuild as [err ->].
    by eexists.
  - simpl. intros [= <- _]. apply retried_request_rejects in Hset as [err ->].
    by eexists.
Qed.

Lemma fetchWordAndClue_throws_plain_errors_witness :
  ∃ msg, ThrownError (newError
           ("OpenAI API Error: " ++ invalidKeyMessage
            ++ ". VocabAI requires a working OpenAI connection."))
         = ThrownError (newError msg).
Proof.
  apply (fetchWordAndClue_throws_plain_errors keyedService ALL 500 (500, 500)%Z unauthorizedWorld
           spreadDraws spreadDraws).
  reflexivity.
Defined.

Lemma buildResponse_shape lv body draws r rest :
  buildResponse lv body draws = Returned r rest →
  toLowerCase (word (r_word r)) = word (r_word r)
  ∧ word (r_word r) ≠ "" ∧ definition (r_word r) ≠ ""
  ∧ example (r_word r) ≠ "" ∧ partOfSpeech (r_word r) ≠ ""
  ∧ r_clue r ≠ ""
  ∧ r_difficulty r = calculateDifficulty (level (r_word r)).
Proof.
  unfold buildResponse. destruct body as [|[p|]]; try done.
  destruct (String.eqb (p_word p) "") eqn:Hw; [done|].
  destruct (String.eqb (p_definition p) "") eqn:Hd; [done|].
  destruct (String.eqb (p_clue p) "") eqn:Hc; [done|]. cbn [orb].
  destruct (generateMultipleChoiceOptions _ lv draws) as [options rest'| |]; try done.
  intros [= <- <-]. cbn [r_word r_clue r_difficulty word definition example partOfSpeech].
  apply String.eqb_neq in Hw, Hd, Hc.
  split; [apply toLowerCase_idem|]. split.
  { destruct (p_word p); [done | discriminate]. }
  split; [done|]. split.
  { unfold or_else. destruct (String.eqb (p_example p) "") eqn:He.
    - discriminate.
    - by apply String.eqb_neq in He. }
  split; [|done].
  unfold or_else. destruct (String.eqb (p_partOfSpeech p) "") eqn:He.
  - discriminate.
  - by apply String.eqb_neq in He.
Qed.

(** X8.  A challenge that [fetchWordAndClue] returns is complete (the
    reply being an object whose fields are text and whose level, when
    given, is one of the four): the word is in lower case; word,
    definition, example, part of speech and clue are not empty; the
    difficulty is the one of the word's level, from 1 to 4; and the
    options are four, distinct up to case, with the word among them
    exactly once. *)
Theorem fetchWordAndClue_returns_complete_challenge
    (svc : AIService.AIService) (lv : SelectedLevel) (now : Z) (later : Z * Z)
    (world : nat → Attempt) (draws rest : list N) (r : WordAndClueResponse) :
  fst (fetchWordAndClue svc lv now later world draws) = Returned r rest →
  toLowerCase (word (r_word r)) = word (r_word r)
  ∧ word (r_word r) ≠ "" ∧ definition (r_word r) ≠ ""
  ∧ example (r_word r) ≠ "" ∧ partOfSpeech (r_word r) ≠ ""
  ∧ r_clue r ≠ ""
  ∧ r_difficulty r = calculateDifficulty (level (r_word r))
  ∧ (1 ≤ r_difficulty r ≤ 4)%Z
  ∧ optionsWellFormed (word (r_word r)) (r_multipleChoiceOptions r).
Proof.
  intros Hret.
  pose proof (fetchWordAndClue_options_wellFormed _ _ _ _ _ _ _ _ Hret) as Hwf.
  revert Hret. unfold fetchWordAndClue.
  destruct (negb (keyIsUsable _)); [done|].
  destruct (canMakeRequest now _) as [ok rl]. destruct (negb ok).
  { by destruct (getTimeUntilNextRequest _ _ rl). }
  destruct (settled _) as [body|error]; [|done].
  destruct (buildResponse lv body draws) eqn:Hbuild; simpl; try done.
  intros [= <- <-].
  destruct (buildResponse_shape _ _ _ _ _ Hbuild) as (H1 & H2 & H3 & H4 & H5 & H6 & H7).
  repeat (split; [assumption|]). split; [|exact Hwf].
  rewrite H7. destruct (level (r_word a)); simpl; lia.
Qed.

Lemma fetchWordAndClue_returns_complete_challenge_witness :
  ∃ r rest,
    fst (fetchWordAndClue keyedService (Lv A1) 500 (500, 500)%Z flakyWorld spreadDraws)
    = Returned r rest
    ∧ word (r_word r) = "journey"
    ∧ r_difficulty r = 2%Z
    ∧ optionsWellFormed "journey" (r_multipleChoiceOptions r).
Proof.
  eexists _, _. split; [vm_compute; reflexivity|].
  split; [reflexivity|]. split; [reflexivity|].
  eapply (fetchWordAndClue_returns_complete_challenge keyedService (Lv A1) 500 (500, 500)%Z flakyWorld
            spreadDraws).
  vm_compute. reflexivity.
Defined.

End ProviderFacts.
(** ** The waiting time of the rate limiter *)

Module WaitingTimeFacts.
Import ApiErrorHandler AIService.
Import RateLimiterFacts.
Import Notions Measures Samples.

Local Open Scope Z_scope.

(** X9.  [getTimeUntilNextRequest] reads the clock in [canMakeRequest]
    ([now]) and again in its subtraction ([reading]).  For a limiter
    with a positive ceiling none of whose timestamps lies after
    [reading], the waiting time is a number between 0 and 60000 ms.  It
    is 0 when the limiter admits at [now]; when it is 0 and the limiter
    did not admit, the oldest timestamp of the window had aged out by
    [reading]; when both readings agree it is 0 exactly when the limiter
    admits.  Once the waiting time has passed, counted from [reading],
    the oldest timestamp of the window has left the window.  The number
    of seconds the services quote in their messages is at most 60. *)
Theorem waiting_time_within_a_minute (rl : RateLimiter) (now reading : Z) :
  0 < requestsPerMinute rl →
  (∀ t, t ∈ requests rl → t ≤ reading) →
  ∃ w, fst (getTimeUntilNextRequest now reading rl) = Finite w
       ∧ 0 ≤ w ≤ 60000
       ∧ (fst (canMakeRequest now rl) = true → w = 0)
       ∧ (w = 0 →
            fst (canMakeRequest now rl) = true
            ∨ ∃ oldest, mathMin (inWindow now (requests rl)) = Finite oldest
                        ∧ oldest + 60000 ≤ reading)
       ∧ (reading = now → (w = 0 ↔ fst (canMakeRequest now rl) = true))
       ∧ (w + 999) / 1000 ≤ 60
       ∧ (length (inWindow (reading + w) (requests rl))
            < length (inWindow now (requests rl))
          ∨ fst (canMakeRequest now rl) = true)%nat.
Proof.
  intros Hpos Hpast.
  rewrite getTimeUntilNextRequest_unfold, canMakeRequest_unfold. cbn [fst].
  destruct (bool_decide_reflect
              (Z.of_nat (length (inWindow now (requests rl))) < requestsPerMinute rl))
    as [Hadm|Hfull].
  - exists 0. split; [done|]. split; [lia|]. split; [done|]. split; [by left|].
    split; [done|]. split; [done|]. by right.
  - destruct (mathMin (inWindow now (requests rl))) as [oldest|] eqn:Hmin.
    + pose proof (mathMin_Finite _ _ Hmin) as [Hin _].
      pose proof Hin as [Hold Hnew]%elem_of_inWindow.
      specialize (Hpast _ Hold). cbn [waitFrom].
      exists (Z.max 0 (oldest + 60000 - reading)).
      split; [done|]. split; [lia|]. split; [done|]. split.
      { intros Hzero. right. exists oldest. split; [done | lia]. }
      split.
      { intros ->. split; [intros; exfalso; lia | done]. }
      split.
      * apply Z.lt_succ_r. apply Z.div_lt_upper_bound; lia.
      * left. apply (inWindow_shrinks now _ _ oldest Hmin). lia.
    + apply mathMin_nil_iff in Hmin. rewrite Hmin in Hfull. simpl in Hfull. lia.
Qed.

Lemma waiting_time_within_a_minute_witness :
  ∃ w, fst (getTimeUntilNextRequest 1000 1200 saturated) = Finite w ∧ 0 ≤ w ≤ 60000.
Proof.
  destruct (waiting_time_within_a_minute saturated 1000 1200) as (w & Hw & Hle & _).
  - reflexivity.
  - intros t Ht. simpl in Ht.
    apply elem_of_cons in Ht as [-> | Ht]; [lia|].
    apply list_elem_of_singleton in Ht as ->. lia.
  - exists w. split; [exact Hw | exact Hle].
Defined.

End WaitingTimeFacts.

(** ** The statistics as counts and run lengths *)

Module TallyFacts.
Import Oxford3000 AIService GameState.
Import GameStateFacts.
Import Notions Measures Samples.

Local Open Scope nat_scope.
Local Open Scope list_scope.

Lemma leadingRun_app (l1 l2 : list bool) :
  leadingRun (l1 ++ l2)
  = if decide (Forall (λ b, b = true) l1) then length l1 + leadingRun l2
    else leadingRun l1.
Proof.
  induction l1 as [|b l1 IH]; [done|].
  rewrite <- app_comm_cons. destruct b; cbn [leadingRun length].
  - rewrite IH. destruct (decide (Forall _ l1)) as [Hall|Hnot].
    + rewrite decide_True by (by constructor). done.
    + rewrite decide_False; [done|]. intros Hall. by inversion Hall.
  - rewrite decide_False; [done|]. intros Hall. by inversion Hall.
Qed.

Lemma Forall_rev_iff {A} (P : A → Prop) (l : list A) : Forall P (rev l) ↔ Forall P l.
Proof.
  split; intros H.
  - rewrite <- (rev_involutive l). by apply List.Forall_rev.
  - by apply List.Forall_rev.
Qed.

Lemma leadingRun_all (l : list bool) :
  Forall (λ b, b = true) l → leadingRun l = length l.
Proof. induction 1 as [|b l -> _ IH]; simpl; [done | by rewrite IH]. Qed.

Lemma leadingRun_le (l : list bool) : leadingRun l ≤ length l.
Proof. induction l as [|[] l IH]; simpl; lia. Qed.

Lemma longestRun_le (l : list bool) : longestRun l ≤ length l.
Proof.
  induction l as [|b l IH]; [done|].
  change (longestRun (b :: l)) with (max (leadingRun (b :: l)) (longestRun l)).
  pose proof (leadingRun_le (b :: l)). simpl in *. lia.
Qed.

Lemma trailingRun_snoc (l : list bool) (b : bool) :
  trailingRun (l ++ [b]) = if b then S (trailingRun l) else 0.
Proof. unfold trailingRun. rewrite rev_app_distr. by destruct b. Qed.

Lemma trailingRun_cons (b : bool) (l : list bool) :
  trailingRun (b :: l)
  = if decide (Forall (λ b, b = true) l) then length l + (if b then 1 else 0)
    else trailingRun l.
Proof.
  unfold trailingRun. simpl. rewrite leadingRun_app, length_rev.
  destruct (decide (Forall _ (rev l))) as [Hall|Hnot].
  - rewrite decide_True; [by destruct b|]. by apply Forall_rev_iff.
  - rewrite decide_False; [done|]. intros Hall. apply Hnot. by apply Forall_rev_iff.
Qed.

(** A correct answer lengthens the run at the end; the longest run is
    the longer of the old longest and that one. *)
Lemma longestRun_snoc_true (l : list bool) :
  longestRun (l ++ [true]) = max (longestRun l) (S (trailingRun l)).
Proof.
  induction l as [|b l IH]; [done|].
  change (longestRun ((b :: l) ++ [true]))
    with (max (leadingRun ((b :: l) ++ [true])) (longestRun (l ++ [true]))).
  change (longestRun (b :: l)) with (max (leadingRun (b :: l)) (longestRun l)).
  rewrite IH, trailingRun_cons, (leadingRun_app (b :: l)).
  destruct (decide (Forall (λ b, b = true) l)) as [Hall|Hnot].
  - pose proof (longestRun_le l). unfold trailingRun.
    rewrite (leadingRun_all (rev l)), length_rev by (by apply Forall_rev_iff).
    destruct b.
    + rewrite decide_True by (by constructor). simpl.
      rewrite (leadingRun_all l) by done. lia.
    + rewrite decide_False by (intros H'; by inversion H'). simpl. lia.
  - rewrite decide_False by (intros H'; by inversion H'). lia.
Qed.

Lemma longestRun_snoc_false (l : list bool) :
  longestRun (l ++ [false]) = longestRun l.
Proof.
  induction l as [|b l IH]; [done|].
  change (longestRun ((b :: l) ++ [false]))
    with (max (leadingRun ((b :: l) ++ [false])) (longestRun (l ++ [false]))).
  change (longestRun (b :: l)) with (max (leadingRun (b :: l)) (longestRun l)).
  rewrite IH, (leadingRun_app (b :: l)).
  destruct (decide (Forall (λ b, b = true) (b :: l))) as [Hall|Hnot]; [|done].
  rewrite (leadingRun_all (b :: l)) by done. simpl. lia.
Qed.

Lemma bumpStats_tally (b : bool) (answers : list bool) :
  bumpStats b (tally answers) = tally (answers ++ [b]).
Proof.
  unfold bumpStats, tally. cbn [totalAttempted correctAnswers incorrectAnswers
                                currentStreak bestStreak].
  rewrite !filter_app, !length_app, trailingRun_snoc.
  destruct b.
  - rewrite longestRun_snoc_true.
    rewrite filter_cons_True, filter_cons_False by done. simpl.
    f_equal; lia.
  - rewrite longestRun_snoc_false.
    rewrite filter_cons_False, filter_cons_True by done. simpl.
    f_equal; lia.
Qed.

Lemma answersSinceReset_snoc (history : list Action) (a : Action) :
  answersSinceReset (history ++ [a])
  = match a with
    | UpdateStats b => answersSinceReset history ++ [b]
    | ResetGame => []
    | _ => answersSinceReset history
    end.
Proof. unfold answersSinceReset. by rewrite foldl_snoc. Qed.

(** X10.  Through any history of updates the statistics are those of
    the verdicts recorded since the last reset: the number of verdicts,
    the numbers of correct and of incorrect ones, the length of the run
    of correct verdicts at the end, and the length of the longest run
    of correct verdicts. *)
Theorem stats_count_verdicts_and_runs
    (savedSpeechMode : option SpeechMode) (history : list Action) :
  gameStats (stateAfter savedSpeechMode history) = tally (answersSinceReset history).
Proof.
  induction history as [|a history IH] using rev_ind; [reflexivity|].
  rewrite stateAfter_snoc, answersSinceReset_snoc.
  destruct a; simpl; try exact IH.
  - rewrite IH. apply bumpStats_tally.
  - reflexivity.
Qed.

End TallyFacts.

(** ** The saved speech mode *)

Module PersistenceFacts.
Import Oxford3000 AIService GameState Persistence.
Import GameStateFacts.
Import Notions Measures Samples.

Lemma session_snoc storage history a :
  session storage (history ++ [a])
  = (applyAction (fst (session storage history)) a,
     store a (fst (session storage history)) (snd (session storage history))).
Proof.
  unfold session. rewrite foldl_snoc.
  by destruct (foldl _ _ history) as [gs st].
Qed.

(** X11.  Whatever the stored item at the start (none, or one of the
    three modes) and whatever updates a session performs, a session
    started afterwards from the stored item begins in the speech mode
    the earlier one ended in; nothing else of the state is carried
    over. *)
Theorem speechMode_survives_reload (storage : Storage) (history : list Action) :
  fst (session storage history) = stateAfter storage history
  ∧ speechMode (startState (snd (session storage history)))
    = speechMode (stateAfter storage history)
  ∧ startState (snd (session storage history))
    = resetGame (stateAfter storage history).
Proof.
  assert (fst (session storage history) = stateAfter storage history
          ∧ default disabled (snd (session storage history))
            = speechMode (stateAfter storage history)) as [Hfst Hmode].
  { induction history as [|a history [IH1 IH2]] using rev_ind; [done|].
    rewrite session_snoc, stateAfter_snoc. cbn [fst snd]. rewrite IH1.
    split; [done|].
    destruct a; simpl; try exact IH2.
    destruct (decide (mode ≠ speechMode (stateAfter storage history))) as [|Heq];
      [done|].
    apply dec_stable in Heq. by rewrite IH2. }
  split; [done|]. split; [done|].
  unfold startState, resetGame. by rewrite Hmode.
Qed.

End PersistenceFacts.

(** ** Starting a round *)

Module RoundFacts.
Import JsString ApiErrorHandler JsMath Oxford3000 AIService GameState App.
Import JsStringFacts GeneratorFacts StartGameFacts.
Import Notions Measures Samples Specimens.

Local Open Scope nat_scope.
Local Open Scope list_scope.

Lemma optionsWellFormed_elem target options :
  optionsWellFormed target options → length options = 4 ∧ target ∈ options.
Proof.
  intros (Hlen & _ & Hone). split; [done|].
  destruct (filter (λ o, o = target) options) as [|o l] eqn:Hf; [done|].
  assert (o ∈ filter (λ o, o = target) options) as Ho by (rewrite Hf; left).
  by apply list_elem_of_filter in Ho as [-> Ho].
Qed.

Lemma fellBackTo_laidOut app app' target :
  fellBackTo app app' target →
  showAnswer (gameState app') = false →
  lastAnswer (gameState app') = "" →
  selectedChoice (gameState app') = None →
  speechMode (gameState app') = speechMode (gameState app) →
  roundLaidOut app' ∧ sameSettings (gameState app) (gameState app').
Proof.
  intros (Hw & _ & _ & _ & _ & Hlen & Hin & Hplay & Hcor & Hstats & Hlv & Hst) ? ? ? ?.
  split; [|done]. repeat (split; [done|]). by exists target.
Qed.

Lemma startGameFallback_laidOut app draws app' rest :
  startGameFallback app draws = Returned app' rest →
  roundLaidOut app' ∧ sameSettings (gameState app) (gameState app').
Proof.
  intros Hrun.
  destruct (startGameFallback_inv _ _ _ _ Hrun) as [target Hfell].
  apply (fellBackTo_laidOut _ _ _ Hfell); revert Hrun; unfold startGameFallback.
  all: destruct (getRandomWord _ draws) as [[w|] r| |]; try done.
  all: destruct (sortRandomly _ r); try done.
  all: by intros [= <- _].
Qed.

Lemma startGame_no_throw app now later world draws e rest :
  startGame app now later world draws ≠ Threw e rest.
Proof.
  unfold startGame. destruct (aiService app) as [svc|];
    [|apply startGameFallback_no_throw].
  destruct (fetchWordAndClue svc (selectedLevel (gameState app)) now later world draws)
    as [[r rest0|e0 rest0|] svc']; [done | apply startGameFallback_no_throw | done].
Qed.

Lemma startGame_laidOut app now later world draws app' rest :
  startGame app now later world draws = Returned app' rest →
  roundLaidOut app' ∧ sameSettings (gameState app) (gameState app').
Proof.
  unfold startGame. destruct (aiService app) as [svc|];
    [|apply startGameFallback_laidOut].
  destruct (fetchWordAndClue svc (selectedLevel (gameState app)) now later world draws)
    as [[r rest0|e0 rest0|] svc'] eqn:Hfetch.
  - intros [= <- <-].
    assert (fst (fetchWordAndClue svc (selectedLevel (gameState app)) now later world draws)
            = Returned r rest0) as Hret by (by rewrite Hfetch).
    apply fetchWordAndClue_options_wellFormed in Hret.
    apply optionsWellFormed_elem in Hret as [Hlen Hin].
    split; [|done]. repeat (split; [done|]). by exists (r_word r).
  - intros Hrun. by apply startGameFallback_laidOut in Hrun.
  - done.
Qed.

(** The provider path either returns once the draws are continued, or
    throws whatever the draws. *)
Lemma fetchWordAndClue_eventually svc lv now later world draws :
  (∃ more r rest svc',
     fetchWordAndClue svc lv now later world (draws ++ more) = (Returned r rest, svc'))
  ∨ (∀ draws', ∃ e svc',
       fetchWordAndClue svc lv now later world draws' = (Threw e draws', svc')).
Proof.
  unfold fetchWordAndClue.
  destruct (negb (keyIsUsable _)); [right; intros; by eexists _, _|].
  destruct (canMakeRequest now _) as [ok rl]. destruct (negb ok).
  { right. intros. destruct (getTimeUntilNextRequest _ _ rl). by eexists _, _. }
  destruct (settled _) as [body|error]; [|right; intros; by eexists _, _].
  unfold buildResponse.
  destruct body as [|[p|]]; [right; intros; by eexists _, _| |right; intros; by eexists _, _].
  destruct (_ || _); [right; intros; by eexists _, _|].
  left.
  match goal with
  | |- context [generateMultipleChoiceOptions ?w lv _] =>
      destruct (generateMultipleChoiceOptions_eventually w lv draws)
        as (more & options & rest & Hgen); [apply toLowerCase_idem|]
  end.
  exists more. rewrite Hgen. by eexists _, _, _.
Qed.

(** Any supply of draws can be continued so that [startGame] returns. *)
Lemma startGame_eventually app now later world draws :
  ∃ more app' rest, startGame app now later world (draws ++ more) = Returned app' rest.
Proof.
  unfold startGame. destruct (aiService app) as [svc|].
  - destruct (fetchWordAndClue_eventually svc (selectedLevel (gameState app)) now later
                world draws) as [(more & r & rest & svc' & Hret) | Hthrow].
    + exists more. rewrite Hret. by eexists _, _.
    + exists (replicate 7 0%N).
      destruct (Hthrow (draws ++ replicate 7 0%N)) as (e & svc' & ->).
      destruct (startGameFallback_returns (withService (Some svc') app)
                  (draws ++ replicate 7 0%N)) as (app' & rest & _ & Hrun & _).
      { rewrite length_app. simpl. lia. }
      by eexists _, _.
  - exists (replicate 7 0%N).
    destruct (startGameFallback_returns app (draws ++ replicate 7 0%N))
      as (app' & rest & _ & Hrun & _).
    { rewrite length_app. simpl. lia. }
    by eexists _, _.
Qed.

(** X12.  [startGame] never throws, whatever the service, the provider
    and the draws; and when it returns, a round is laid out: the
    application listens for an answer, a word is set, the four options
    hold it, nothing is answered yet, and the statistics, the level and
    the speech mode are the ones from before. *)
Theorem startGame_lays_out_a_round
    (app : AppModel) (now : Z) (later : Z * Z) (world : nat → Attempt) (draws : list N) :
  (∀ e rest, startGame app now later world draws ≠ Threw e rest)
  ∧ (∀ app' rest,
       startGame app now later world draws = Returned app' rest →
       roundLaidOut app' ∧ sameSettings (gameState app) (gameState app')).
Proof.
  split.
  - intros e rest. apply startGame_no_throw.
  - intros app' rest. apply startGame_laidOut.
Qed.

Lemma startGame_lays_out_a_round_witness :
  ∃ app' rest,
    startGame a1App 500 (500, 500)%Z unauthorizedWorld spreadDraws = Returned app' rest
    ∧ roundLaidOut app'.
Proof.
  eexists _, _. split; [vm_compute; reflexivity|].
  eapply (proj2 (startGame_lays_out_a_round a1App 500 (500, 500)%Z unauthorizedWorld spreadDraws)).
  vm_compute. reflexivity.
Defined.

End RoundFacts.

(** ** Voice commands, feedback and the input guards *)

Module JsTextFacts.
Import JsString JsText JsStringFacts.

Lemma prefix_app (needle rest : string) : String.prefix needle (needle ++ rest) = true.
Proof.
  induction needle as [|c needle IH]; simpl; [by destruct rest|].
  by destruct (ascii_dec c c).
Qed.

Lemma includes_prefix (needle hay : string) :
  String.prefix needle hay = true → includes needle hay = true.
Proof. intros H. destruct hay; simpl in *; by rewrite H. Qed.

Lemma includes_here (needle rest : string) : includes needle (needle ++ rest) = true.
Proof. apply includes_prefix, prefix_app. Qed.

Lemma includes_app_r (needle before rest : string) :
  includes needle rest = true → includes needle (before ++ rest) = true.
Proof.
  intros H. induction before as [|c before IH]; [done|].
  change (includes needle (String c before ++ rest))
    with (String.prefix needle (String c (before ++ rest))
          || includes needle (before ++ rest)).
  rewrite IH. apply orb_true_r.
Qed.

(** A string that occurs between two others is included. *)
Lemma includes_middle (needle before rest : string) :
  includes needle (before ++ needle ++ rest) = true.
Proof. apply includes_app_r, includes_here. Qed.

Lemma trimStart_idem (s : string) : trimStart (trimStart s) = trimStart s.
Proof.
  induction s as [|c s IH]; [done|]. simpl.
  destruct (is_space c) eqn:Hc; [done|]. simpl. by rewrite Hc.
Qed.

Lemma trimEnd_idem (s : string) : trimEnd (trimEnd s) = trimEnd s.
Proof.
  induction s as [|c s IH]; [done|]. simpl.
  destruct (trimEnd s) as [|c' s'] eqn:Hs.
  - destruct (is_space c) eqn:Hc; [done|]. simpl. by rewrite Hc.
  - cbn [trimEnd] in *. by rewrite IH.
Qed.

Lemma trimStart_trimEnd (s : string) :
  trimStart s = s → trimStart (trimEnd s) = trimEnd s.
Proof.
  destruct s as [|c s]; [done|]. simpl.
  destruct (is_space c) eqn:Hc.
  - intros Heq. exfalso.
    assert (String.length (trimStart s) ≤ String.length s)%nat as Hle.
    { clear. induction s as [|c s IH]; simpl; [lia|].
      destruct (is_space c); simpl; lia. }
    rewrite Heq in Hle. simpl in Hle. lia.
  - intros _. destruct (trimEnd s); simpl; by rewrite Hc.
Qed.

Lemma trim_idem (s : string) : trim (trim s) = trim s.
Proof.
  unfold trim. rewrite trimStart_trimEnd by apply trimStart_idem.
  apply trimEnd_idem.
Qed.

End JsTextFacts.

Module FlowFacts.
Import JsString JsText ApiErrorHandler JsMath Oxford3000 AIService GameState App AppFlow.
Import JsStringFacts JsTextFacts GradingFacts StartGameFacts RoundFacts.
Import Notions Measures Samples Specimens.

Local Open Scope nat_scope.
Local Open Scope list_scope.

(** X13.  Listening for a command never throws, and whatever is
    heard the speech mode stays.  In a speaking mode, with the
    transcript lower-cased and trimmed: when it includes [next word]
    while the application listens for a command, the next round is
    started, also when [go home] is included as well, and the
    statistics and the level stay; the application is reset exactly
    when the transcript includes [go home] and it does not include
    [next word] while listening for a command; and when neither
    applies the game state stays and the not-understood instruction is
    shown.  So the statistics and the level change by the reset only,
    and capitals in what was heard make no difference. *)
Theorem voice_command_effects
    (heard : Settled string) (app : AppModel) (now : Z) (later : Z * Z)
    (world : nat → Attempt) (draws : list N) :
  (∀ e rest, startListeningForCommand heard app now later world draws ≠ Threw e rest)
  ∧ (∀ app' rest,
       startListeningForCommand heard app now later world draws = Returned app' rest →
       speechMode (gameState app') = speechMode (gameState app)
       ∧ (sameSettings (gameState app) (gameState app')
          ∨ app' = handleCompleteReset app ∧ rest = draws))
  ∧ (∀ transcript,
       heard = Fulfilled transcript →
       speechMode (gameState app) ≠ disabled →
       (includes "next word" (trim (toLowerCase transcript)) = true →
        appState app = listening_for_command →
        startListeningForCommand heard app now later world draws
        = handleNextWord app now later world draws
        ∧ ∀ app' rest,
            startListeningForCommand heard app now later world draws = Returned app' rest →
            app' ≠ handleCompleteReset app
            ∧ roundLaidOut app'
            ∧ sameSettings (gameState app) (gameState app'))
       ∧ ((∃ rest, startListeningForCommand heard app now later world draws
                   = Returned (handleCompleteReset app) rest)
          ↔ includes "go home" (trim (toLowerCase transcript)) = true
            ∧ (includes "next word" (trim (toLowerCase transcript)) = false
               ∨ appState app ≠ listening_for_command))
       ∧ (includes "go home" (trim (toLowerCase transcript)) = false →
          includes "next word" (trim (toLowerCase transcript)) = false
          ∨ appState app ≠ listening_for_command →
          startListeningForCommand heard app now later world draws
          = Returned {| appState := listening_for_command;
                        gameState := gameState app;
                        aiService := aiService app;
                        currentInstruction := notUnderstood (speechMode (gameState app)) |}
                     draws))
  ∧ (∀ transcript,
       heard = Fulfilled transcript →
       startListeningForCommand (Fulfilled (toLowerCase transcript)) app now later world draws
       = startListeningForCommand heard app now later world draws).
Proof.
  unfold startListeningForCommand.
  split; [|split; [|split]].
  - intros e rest. destruct (bool_decide _); [done|].
    destruct heard as [transcript|err]; [|done].
    destruct (_ && _); [apply startGame_no_throw|].
    by destruct (includes "go home" _).
  - intros app' rest. destruct (bool_decide _).
    { intros [= <- _]. split; [done|]. by left. }
    destruct heard as [transcript|err].
    2:{ intros [= <- _]. split; [done|]. by left. }
    destruct (_ && _).
    { unfold handleNextWord. intros Hrun.
      apply startGame_laidOut in Hrun as [_ (Hstats & Hlv & Hmode)].
      split; [done|]. by left. }
    destruct (includes "go home" _) eqn:Hhome; intros [= <- <-].
    + split; [done|]. by right.
    + split; [done|]. by left.
  - intros transcript -> Hmode. rewrite bool_decide_false by done.
    assert (∀ s, isListeningForCommand s = true ↔ s = listening_for_command) as Hlisten.
    { intros []; split; done. }
    split; [|split].
    + intros -> Hst. rewrite (proj2 (Hlisten _) Hst). cbn [andb].
      split; [done|]. intros app' rest Hrun. unfold handleNextWord in Hrun.
      apply startGame_laidOut in Hrun as [Hlaid Hsame].
      split; [|by split].
      intros ->. by destruct Hlaid as [? _].
    + destruct (includes "next word" _) eqn:Hnext;
        destruct (isListeningForCommand (appState app)) eqn:Hl; cbn [andb].
      * split.
        -- intros [rest Hrun]. exfalso. unfold handleNextWord in Hrun.
           apply startGame_laidOut in Hrun as [[? _] _]. done.
        -- intros [_ [? | Hst]]; [done|]. exfalso. by apply Hst, Hlisten.
      * destruct (includes "go home" _).
        -- split; [|by eexists]. intros _. split; [done|]. right.
           intros Hst%Hlisten. congruence.
        -- split; [by intros [rest [=]] | by intros [? _]].
      * destruct (includes "go home" _).
        -- split; [|by eexists]. intros _. split; [done|]. by left.
        -- split; [by intros [rest [=]] | by intros [? _]].
      * destruct (includes "go home" _).
        -- split; [|by eexists]. intros _. split; [done|]. by left.
        -- split; [by intros [rest [=]] | by intros [? _]].
    + intros -> [-> | Hst]; [done|].
      destruct (isListeningForCommand (appState app)) eqn:Hl;
        [by apply Hlisten in Hl | by rewrite andb_false_r].
  - intros transcript ->. by rewrite toLowerCase_idem.
Qed.

Lemma voice_command_effects_witness :
  ∃ app' rest,
    startListeningForCommand (Fulfilled "Next word, or GO HOME") spokenRound 0 (0, 0)%Z
      unauthorizedWorld spreadDraws = Returned app' rest
    ∧ appState app' = listening_for_answer
    ∧ gameStats (gameState app') = gameStats (gameState spokenRound).
Proof.
  destruct (voice_command_effects (Fulfilled "Next word, or GO HOME") spokenRound
              0 (0, 0)%Z unauthorizedWorld spreadDraws) as (_ & _ & Hcases & _).
  destruct (Hcases "Next word, or GO HOME" eq_refl ltac:(discriminate))
    as ((Hrun & Hkept) & _); [reflexivity | reflexivity |].
  eexists _, _. split; [vm_compute; reflexivity|].
  split; [reflexivity|].
  eapply Hkept. vm_compute. reflexivity.
Defined.

Lemma feedbackText_includes_word gs isCorrect w :
  currentWord gs = Some w → includes (word w) (feedbackText gs isCorrect) = true.
Proof.
  intros Hw. unfold feedbackText, wordText. rewrite Hw.
  destruct (speechMode gs), isCorrect; apply includes_middle.
Qed.

Lemma feedbackText_names_commands gs isCorrect :
  speechMode gs ≠ disabled →
  includes "next word" (feedbackText gs isCorrect) = true
  ∧ includes "go home" (feedbackText gs isCorrect) = true.
Proof.
  intros Hmode. unfold feedbackText.
  destruct (speechMode gs), isCorrect; try done;
    split; do 2 apply includes_app_r; reflexivity.
Qed.

(** X14.  Once an answer is graded, the feedback step leaves the game
    state alone, moves on to listening for a command, and shows an
    instruction that contains the correct word, whatever the verdict
    and the speech mode; in the two speaking modes the instruction also
    names both commands. *)
Theorem feedback_reveals_the_word (app : AppModel) (w : Word) (verdict : bool) :
  appState app = feedback →
  isCorrect (gameState app) = Some verdict →
  currentWord (gameState app) = Some w →
  appState (feedbackStep app) = listening_for_command
  ∧ gameState (feedbackStep app) = gameState app
  ∧ includes (word w) (currentInstruction (feedbackStep app)) = true
  ∧ (speechMode (gameState app) ≠ disabled →
       includes "next word" (currentInstruction (feedbackStep app)) = true
       ∧ includes "go home" (currentInstruction (feedbackStep app)) = true).
Proof.
  intros Hst Hv Hw. unfold feedbackStep. rewrite Hst, Hv. cbn [appState gameState currentInstruction].
  split; [done|]. split; [done|]. split.
  - by apply feedbackText_includes_word.
  - apply feedbackText_names_commands.
Qed.

Lemma feedback_reveals_the_word_witness :
  includes "example"
    (currentInstruction (feedbackStep (handleMultipleChoiceAnswer "about" exampleApp)))
  = true.
Proof.
  apply (feedback_reveals_the_word (handleMultipleChoiceAnswer "about" exampleApp)
           exampleWord false); reflexivity.
Defined.


(** X16.  Submitting the text field: an entry that is blank once
    trimmed (spaces, tabs, line ends, no-break spaces), or an entry
    while no word is set, changes nothing; otherwise the field is
    cleared and, in the silent mode, the entry is graded as the
    untrimmed text would be and is stored trimmed. *)
Theorem manual_submit_trims (manualAnswer : string) (app : AppModel) :
  (trim manualAnswer = "" ∨ currentWord (gameState app) = None →
     handleManualSubmit manualAnswer app = (manualAnswer, app))
  ∧ (∀ w, trim manualAnswer ≠ "" →
          currentWord (gameState app) = Some w →
          speechMode (gameState app) = disabled →
          handleManualSubmit manualAnswer app
          = ("", graded (gradeAnswer w manualAnswer) (trim manualAnswer) app)
          ∧ lastAnswer (gameState (snd (handleManualSubmit manualAnswer app)))
            = trim manualAnswer).
Proof.
  unfold handleManualSubmit. split.
  - intros [Hblank | Hnone].
    + by rewrite Hblank.
    + rewrite Hnone. by rewrite orb_true_r.
  - intros w Hne Hw Hmode. apply String.eqb_neq in Hne. rewrite Hne, Hw. cbn [orb].
    unfold handleManualAnswer. rewrite Hw, Hmode.
    rewrite decide_False by (intros H; by apply H).
    assert (gradeAnswer w (trim manualAnswer) = gradeAnswer w manualAnswer) as ->.
    { unfold gradeAnswer. by rewrite !trim_toLowerCase, trim_idem. }
    split; reflexivity.
Qed.

Lemma manual_submit_trims_witness :
  handleManualSubmit "  Example " exampleApp
  = ("", graded (gradeAnswer exampleWord "  Example ") "Example" exampleApp)
  ∧ handleManualSubmit nbsp exampleApp = (nbsp, exampleApp).
Proof.
  split.
  - apply (proj2 (manual_submit_trims "  Example " exampleApp) exampleWord).
    + discriminate.
    + reflexivity.
    + reflexivity.
  - apply (proj1 (manual_submit_trims nbsp exampleApp)). left. reflexivity.
Defined.


(** X28.  An answer that is heard is graded as a click on the same
    text would be, as long as a word is set.  With no word set a click
    is ignored, but what is heard still counts as an incorrect attempt.
    When the recognition fails nothing is counted and the application
    listens again. *)
Theorem heard_answer_is_graded_like_a_click
    (transcript : string) (e : Thrown) (app : AppModel) :
  speechMode (gameState app) ≠ disabled →
  (∀ w, currentWord (gameState app) = Some w →
        startListeningForAnswer (Fulfilled transcript) app
        = handleMultipleChoiceAnswer transcript app)
  ∧ (currentWord (gameState app) = None →
       handleMultipleChoiceAnswer transcript app = app
       ∧ appState (startListeningForAnswer (Fulfilled transcript) app) = feedback
       ∧ gameStats (gameState (startListeningForAnswer (Fulfilled transcript) app))
         = bumpStats false (gameStats (gameState app)))
  ∧ gameState (startListeningForAnswer (Rejected e) app) = gameState app
  ∧ appState (startListeningForAnswer (Rejected e) app) = listening_for_answer.
Proof.
  intros Hmode. unfold startListeningForAnswer.
  rewrite bool_decide_false by done.
  unfold heardAnswer, handleMultipleChoiceAnswer.
  split; [|split; [|split]]; try done.
  - by intros w ->.
  - by intros ->.
Qed.

Lemma heard_answer_is_graded_like_a_click_witness :
  startListeningForAnswer (Fulfilled "About") spokenRound
  = handleMultipleChoiceAnswer "About" spokenRound.
Proof.
  apply (proj1 (heard_answer_is_graded_like_a_click "About" ThrownUndefined spokenRound
                  ltac:(discriminate)) aboutWord).
  reflexivity.
Defined.

(** X29.  A whole round: from a round that is laid out, one click,
    the feedback step and the step to the next word do not throw, and
    any supply of random numbers can be continued so that they return;
    without a service seven random numbers are enough.  What they
    return is the next round laid out; the statistics have counted
    exactly the one answer, with the verdict of the clicked option, and
    the level and the speech mode are unchanged. *)
Theorem round_counts_one_answer
    (app : AppModel) (w : Word) (option : string)
    (now : Z) (later : Z * Z) (world : nat → Attempt) (draws : list N) :
  roundLaidOut app →
  currentWord (gameState app) = Some w →
  (∀ e rest,
     handleNextWord (feedbackStep (handleMultipleChoiceClick option app)) now later world draws
     ≠ Threw e rest)
  ∧ (∃ more app' rest,
       handleNextWord (feedbackStep (handleMultipleChoiceClick option app)) now later world
         (draws ++ more) = Returned app' rest)
  ∧ (aiService app = None → 7 ≤ length draws →
     ∃ app' rest,
       handleNextWord (feedbackStep (handleMultipleChoiceClick option app)) now later world
         draws = Returned app' rest)
  ∧ (∀ app' rest,
       handleNextWord (feedbackStep (handleMultipleChoiceClick option app)) now later world
         draws = Returned app' rest →
       roundLaidOut app'
       ∧ gameStats (gameState app')
         = bumpStats (gradeAnswer w option) (gameStats (gameState app))
       ∧ selectedLevel (gameState app') = selectedLevel (gameState app)
       ∧ speechMode (gameState app') = speechMode (gameState app)).
Proof.
  intros (Hstate & _) Hw.
  unfold handleMultipleChoiceClick, showAnswerProp. rewrite Hstate.
  unfold handleMultipleChoiceAnswer. rewrite Hw.
  unfold feedbackStep, graded. cbn [appState gameState isCorrect updateStats
                                    aiService currentInstruction].
  unfold handleNextWord. cbn [appState gameState aiService currentInstruction].
  split; [intros e rest; apply startGame_no_throw|].
  split; [apply startGame_eventually|]. split.
  - intros Hnone Hlen. unfold startGame. cbn [aiService]. rewrite Hnone.
    match goal with
    | |- context [startGameFallback ?a draws] =>
        destruct (startGameFallback_returns a draws Hlen) as (app' & rest & _ & Hrun & _)
    end.
    by eexists _, _.
  - intros app' rest Hrun.
    apply startGame_laidOut in Hrun as [Hlaid (Hstats & Hlv & Hmode)].
    split; [exact Hlaid|]. split; [exact Hstats|]. split; [exact Hlv | exact Hmode].
Qed.

Lemma round_counts_one_answer_witness :
  ∃ app' rest,
    handleNextWord (feedbackStep (handleMultipleChoiceClick "about" exampleApp)) 0 (0, 0)%Z
      unauthorizedWorld spreadDraws = Returned app' rest
    ∧ totalAttempted (gameStats (gameState app')) = 1%Z
    ∧ correctAnswers (gameStats (gameState app')) = 0%Z.
Proof.
  destruct (round_counts_one_answer exampleApp exampleWord "about" 0 (0, 0)%Z
              unauthorizedWorld spreadDraws
              ltac:(vm_compute; repeat split; eexists; repeat split; set_solver)
              eq_refl) as (_ & _ & Hruns & Hround).
  destruct (Hruns eq_refl ltac:(vm_compute; lia)) as (app' & rest & Hrun).
  exists app', rest. split; [exact Hrun|].
  destruct (Hround app' rest Hrun) as (_ & Hstats & _).
  rewrite Hstats. split; reflexivity.
Defined.

End FlowFacts.

(** ** What the random choices can yield *)

Module ShuffleFacts.
Import JsString ApiErrorHandler JsMath Oxford3000 AIService.
Import JsMathFacts StoreFacts GeneratorFacts StartGameFacts.
Import Notions Measures Samples Specimens.

Local Open Scope nat_scope.
Local Open Scope list_scope.

Lemma snoc_cases {A} (l : list A) : l = [] ∨ ∃ l' x, l = l' ++ [x].
Proof. induction l as [|x l _] using rev_ind; [by left | right; eauto]. Qed.

Lemma swap_last (p suf : list string) (z y : string) (j : nat) :
  p !! j = Some y →
  swap ((p ++ [z]) ++ suf) (length p) j = (<[j := z]> p ++ [y]) ++ suf.
Proof.
  intros Hj. pose proof (lookup_lt_Some _ _ _ Hj) as Hlt.
  unfold swap.
  rewrite (lookup_app_l _ suf) by (rewrite length_app; simpl; lia).
  rewrite (lookup_app_r p [z]) by lia. rewrite Nat.sub_diag. simpl.
  rewrite (lookup_app_l _ suf) by (rewrite length_app; simpl; lia).
  rewrite (lookup_app_l p [z]) by lia. rewrite Hj.
  rewrite (insert_app_l _ suf) by (rewrite length_app; simpl; lia).
  rewrite (insert_app_r_alt p [z]) by lia. rewrite Nat.sub_diag. simpl.
  rewrite (insert_app_l _ suf) by (rewrite length_app; simpl; lia).
  by rewrite (insert_app_l p [y]) by lia.
Qed.

Lemma swap_same (a : list string) (i : nat) : swap a i i = a.
Proof.
  unfold swap. destruct (a !! i) as [x|] eqn:Hi; [|done].
  rewrite (list_insert_id a i x Hi). by rewrite (list_insert_id a i x Hi).
Qed.

(** The loop can turn the first [i + 1] entries into any rearrangement
    of them, and leaves the entries behind them alone. *)
Lemma fisherYates_reaches (i : nat) :
  ∀ pre pre' suf : list string,
    length pre = S i → pre' ≡ₚ pre → (N.of_nat (S i) ≤ 2 ^ 53)%N →
    ∃ draws, length draws = i
             ∧ fisherYates i (pre ++ suf) draws = Returned (pre' ++ suf) [].
Proof.
  induction i as [|i IH]; intros pre pre' suf Hlen Hperm Hsmall.
  - destruct pre as [|x [|? ?]]; try done.
    apply Permutation_singleton_r in Hperm as ->. by exists [].
  - destruct (snoc_cases pre) as [-> | (p & z & ->)]; [done|].
    destruct (snoc_cases pre') as [-> | (q & y & ->)].
    { apply Permutation_nil_l in Hperm. by destruct p. }
    rewrite length_app in Hlen. simpl in Hlen.
    assert (length p = S i) as Hp by lia.
    assert (y ∈ p ++ [z]) as Hy.
    { rewrite <- Hperm. apply elem_of_app. right. left. }
    apply list_elem_of_lookup_1 in Hy as [j Hj].
    pose proof (lookup_lt_Some _ _ _ Hj) as Hjlt.
    rewrite length_app in Hjlt. simpl in Hjlt.
    destruct (floorRandomTimes_onto (S i + 1) j) as [d Hd]; [lia | |].
    { replace (S i + 1) with (S (S i)) by lia. exact Hsmall. }
    destruct (decide (j = length p)) as [-> | Hne].
    + rewrite lookup_app_r in Hj by lia. rewrite Nat.sub_diag in Hj.
      injection Hj as <-.
      apply Permutation_app_inv_r in Hperm.
      destruct (IH p q (z :: suf) Hp Hperm) as (draws & Hdl & Hrun); [lia|].
      exists (d :: draws). split; [simpl; lia|].
      cbn [fisherYates]. rewrite Hd, <- Hp, swap_same.
      rewrite <- !app_assoc. simpl. exact Hrun.
    + rewrite lookup_app_l in Hj by lia.
      assert (q ≡ₚ <[j := z]> p) as Hq.
      { rewrite insert_Permutation_delete by lia.
        apply (Permutation_app_inv_r [y]).
        rewrite Hperm. rewrite (delete_Permutation p j y Hj) at 1.
        simpl. rewrite <- Permutation_cons_append.
        by rewrite (Permutation_cons_append (z :: delete j p)). }
      destruct (IH (<[j := z]> p) q (y :: suf)) as (draws & Hdl & Hrun);
        [by rewrite length_insert | done | lia |].
      exists (d :: draws). split; [simpl; lia|].
      cbn [fisherYates]. rewrite Hd, <- Hp, (swap_last p suf z y j Hj).
      rewrite <- !app_assoc. simpl. exact Hrun.
Qed.

(** X17.  The Fisher-Yates loop over the options returns a
    rearrangement of them and reads one draw per position but the
    first; and every rearrangement is the outcome of some draws: the
    correct option can end up anywhere. *)
Theorem fisherYates_reaches_every_arrangement (allOptions : list string) :
  (N.of_nat (length allOptions) ≤ 2 ^ 53)%N →
  (∀ draws shuffled rest,
     fisherYates (length allOptions - 1) allOptions draws = Returned shuffled rest →
     shuffled ≡ₚ allOptions
     ∧ length draws = length rest + (length allOptions - 1))
  ∧ (∀ arrangement,
       arrangement ≡ₚ allOptions →
       ∃ draws, length draws = length allOptions - 1
                ∧ fisherYates (length allOptions - 1) allOptions draws
                  = Returned arrangement []).
Proof.
  intros Hsmall. split.
  - intros draws shuffled rest Hrun. split; [by eapply fisherYates_Permutation|].
    revert Hrun. generalize (length allOptions - 1). intros i. revert allOptions Hsmall draws.
    induction i as [|i IH]; intros a Hsmall draws; simpl.
    + intros [= _ <-]. lia.
    + destruct draws as [|d ds]; [done|]. intros Hrun.
      apply IH in Hrun; [simpl; lia|].
      by rewrite (Permutation_length (swap_Permutation a (S i) _)).
  - intros arrangement Hperm.
    destruct allOptions as [|x a].
    { apply Permutation_nil_r in Hperm as ->. by exists []. }
    destruct (fisherYates_reaches (length a) (x :: a) arrangement []) as (draws & ? & Hrun);
      [done | done | exact Hsmall |].
    rewrite !app_nil_r in Hrun. exists draws. simpl. rewrite Nat.sub_0_r. done.
Qed.

Lemma fisherYates_reaches_every_arrangement_witness :
  ∃ draws, length draws = 3
           ∧ fisherYates 3 ["about"; "example"; "answer"; "question"] draws
             = Returned ["question"; "answer"; "example"; "about"] [].
Proof.
  apply (proj2 (fisherYates_reaches_every_arrangement
                  ["about"; "example"; "answer"; "question"] ltac:(done))
               ["question"; "answer"; "example"; "about"]).
  change (rev ["about"; "example"; "answer"; "question"]
          ≡ₚ ["about"; "example"; "answer"; "question"]).
  symmetry. apply Permutation_rev.
Defined.

Lemma pool_small (lv : option Level) :
  let pool := match lv with Some l => getWordsByLevel l | None => oxford3000Words end in
  0 < length pool ∧ (N.of_nat (length pool) ≤ 2 ^ 53)%N.
Proof.
  destruct lv as [l|]; simpl.
  - rewrite getWordsByLevel_length. split; [lia | done].
  - split; [lia | done].
Qed.

(** X18.  [getRandomWord] reads one draw and returns an entry of the
    store, of the requested level when one is given; and every such
    entry is returned for some draw. *)
Theorem getRandomWord_covers_the_level (lv : option Level) :
  (∀ d ds, ∃ w, getRandomWord lv (d :: ds) = Returned (Some w) ds
                ∧ w ∈ oxford3000Words
                ∧ ∀ l, lv = Some l → level w = l)
  ∧ (∀ w, w ∈ oxford3000Words → (∀ l, lv = Some l → level w = l) →
          ∃ d, ∀ ds, getRandomWord lv (d :: ds) = Returned (Some w) ds).
Proof.
  split; [apply getRandomWord_returns|].
  intros w Hin Hlevel. unfold getRandomWord.
  set (pool := match lv with Some l => getWordsByLevel l | None => oxford3000Words end).
  assert (w ∈ pool) as Hw.
  { subst pool. destruct lv as [l|]; [|done].
    apply list_elem_of_filter. split; [by apply Hlevel | done]. }
  apply list_elem_of_lookup_1 in Hw as [i Hi].
  destruct (pool_small lv) as [_ Hsmall]. fold pool in Hsmall.
  destruct (floorRandomTimes_onto (length pool) i) as [d Hd];
    [by eapply lookup_lt_Some | done |].
  exists d. intros ds. by rewrite Hd, Hi.
Qed.

Lemma getRandomWord_covers_the_level_witness :
  ∃ d, ∀ ds, getRandomWord (Some A1) (d :: ds) = Returned (Some answerWord) ds.
Proof.
  apply (proj2 (getRandomWord_covers_the_level (Some A1)) answerWord).
  - unfold answerWord, oxford3000Words.
    repeat first [apply list_elem_of_here | apply list_elem_of_further].
  - by intros l [= <-].
Defined.

End ShuffleFacts.

(** ** The fallback clue *)

Module ClueFacts.
Import JsString JsText Oxford3000 App.
Import JsStringFacts JsTextFacts.
Import Notions Measures Samples Specimens.

Local Open Scope list_scope.

Lemma replace_absent (pat rep s : string) :
  includes pat s = false → replace pat rep s = s.
Proof.
  induction s as [|c s IH]; simpl.
  - rewrite orb_false_r. by intros ->.
  - intros [Hpre Hrest]%orb_false_iff. rewrite Hpre. by rewrite IH.
Qed.

(** X19.  The fallback clue blanks the word out of the example
    sentence only where the sentence holds the word letter for letter.
    When it does not, the sentence is shown as it is; in the store this
    happens for five entries, whose sentences begin with the word
    capitalised, so that the clue has no blank and shows the answer. *)
Theorem fallbackClue_blank (w : Word) :
  (includes (word w) (example w) = false →
     fallbackClueFor w
     = ("This word means " ++ dquote ++ definition w ++ dquote
        ++ ". Complete this sentence: " ++ dquote ++ example w ++ dquote)%string)
  ∧ (w ∈ oxford3000Words →
       (includes "____" (fallbackClueFor w) = false
        ↔ word w ∈ ["all"; "although"; "anyone"; "according"; "agriculture"])
       ∧ (includes "____" (fallbackClueFor w) = false →
            includes (word w) (toLowerCase (fallbackClueFor w)) = true)).
Proof.
  split.
  - intros Habsent. unfold fallbackClueFor. by rewrite replace_absent.
  - revert w. apply Forall_forall. compute_done.
Qed.

Lemma fallbackClue_blank_witness :
  includes "____" (fallbackClueFor allWord) = false.
Proof.
  rewrite (proj1 (fallbackClue_blank allWord)); reflexivity.
Defined.

End ClueFacts.

(** ** The speech service *)

Module SpeechFacts.
Import JsString JsText ApiErrorHandler GameState ElevenLabsConfig SpeechService.
Import RateLimiterFacts RetryLoopFacts.
Import Notions Measures Samples SpeechSpecimens.

Local Open Scope nat_scope.
Local Open Scope list_scope.

Lemma generateAudioBlob_frame call svc :
  audioCache (snd (generateAudioBlob call svc)) = audioCache svc
  ∧ apiKey (snd (generateAudioBlob call svc)) = apiKey svc
  ∧ speechMode (snd (generateAudioBlob call svc)) = speechMode svc.
Proof.
  unfold generateAudioBlob.
  destruct (canMakeRequest _ _) as [ok rl]. destruct (negb ok).
  - by destruct (getTimeUntilNextRequest _ _ rl).
  - by destruct (settled _).
Qed.

Lemma cachePhrase_grows text call svc :
  audioCache svc ⊆ audioCache (cachePhrase text call svc)
  ∧ (∀ k, is_Some (audioCache (cachePhrase text call svc) !! k) →
          k = text ∨ is_Some (audioCache svc !! k))
  ∧ apiKey (cachePhrase text call svc) = apiKey svc
  ∧ speechMode (cachePhrase text call svc) = speechMode svc.
Proof.
  unfold cachePhrase. destruct (audioCache svc !! text) as [b|] eqn:Hget.
  { repeat split; [done | by right]. }
  destruct (generateAudioBlob_frame call svc) as (Hcache & Hkey & Hmode).
  destruct (generateAudioBlob call svc) as [[blob|e] svc']; simpl in *.
  - rewrite Hcache. split; [by apply insert_subseteq|]. split; [|done].
    intros k [x Hk]. destruct (decide (k = text)) as [->|Hne]; [by left|].
    right. rewrite lookup_insert_ne in Hk by done. by exists x.
  - rewrite Hcache. repeat split; [done | by right | done | done].
Qed.

Lemma cacheEach_grows phrases i calls svc :
  audioCache svc ⊆ audioCache (cacheEach phrases i calls svc)
  ∧ (∀ k, is_Some (audioCache (cacheEach phrases i calls svc) !! k) →
          k ∈ phrases ∨ is_Some (audioCache svc !! k))
  ∧ apiKey (cacheEach phrases i calls svc) = apiKey svc
  ∧ speechMode (cacheEach phrases i calls svc) = speechMode svc.
Proof.
  revert i svc. induction phrases as [|p phrases IH]; intros i svc; simpl.
  { repeat split; [done | by right]. }
  destruct (IH (S i) (cachePhrase p (calls i) svc)) as (Hsub & Hkeys & Hkey & Hmode).
  destruct (cachePhrase_grows p (calls i) svc) as (Hsub' & Hkeys' & Hkey' & Hmode').
  split; [by etrans|]. split; [|split; congruence].
  intros k Hk. destruct (Hkeys k Hk) as [Hin | Hold].
  - left. by right.
  - destruct (Hkeys' k Hold) as [-> | Hold']; [left; left | by right].
Qed.

Lemma exactMatch_Some text phrase :
  exactMatch text = Some phrase → phrase = text ∧ text ∈ commonPhrases.
Proof.
  unfold exactMatch. destruct (list_find _ commonPhrases) as [[i p]|] eqn:Hfind; [|done].
  intros [= <-]. apply list_find_Some in Hfind as (Hi & -> & _).
  split; [done|]. by eapply list_elem_of_lookup_2.
Qed.

Lemma speakWithElevenLabs_grows text call playback svc :
  audioCache svc ⊆ audioCache (snd (speakWithElevenLabs text call playback svc))
  ∧ (∀ k, is_Some (audioCache (snd (speakWithElevenLabs text call playback svc)) !! k) →
          k ∈ commonPhrases ∨ is_Some (audioCache svc !! k)).
Proof.
  unfold speakWithElevenLabs.
  destruct (generateAudioBlob_frame call svc) as (Hcache & _).
  destruct (generateAudioBlob call svc) as [[blob|e] svc']; simpl in *.
  2:{ rewrite Hcache. split; [done | by right]. }
  assert (audioCache svc
            ⊆ audioCache
                match exactMatch text with
                | Some phrase =>
                    match audioCache svc' !! phrase with
                    | Some _ => svc'
                    | None => withCache (<[phrase:=blob]> (audioCache svc')) svc'
                    end
                | None => svc'
                end
          ∧ ∀ k, is_Some (audioCache
                            match exactMatch text with
                            | Some phrase =>
                                match audioCache svc' !! phrase with
                                | Some _ => svc'
                                | None => withCache (<[phrase:=blob]> (audioCache svc')) svc'
                                end
                            | None => svc'
                            end !! k) →
                 k ∈ commonPhrases ∨ is_Some (audioCache svc !! k)) as Hgoal.
  { destruct (exactMatch text) as [phrase|] eqn:Hmatch.
    2:{ rewrite Hcache. split; [done | by right]. }
    apply exactMatch_Some in Hmatch as [-> Hin].
    destruct (audioCache svc' !! text) as [b|] eqn:Hget.
    { rewrite Hcache. split; [done | by right]. }
    simpl. rewrite Hcache in *. split; [by apply insert_subseteq|].
    intros k [x Hk]. destruct (decide (k = text)) as [->|Hne]; [by left|].
    right. rewrite lookup_insert_ne in Hk by done. by exists x. }
  by destruct playback.
Qed.

Lemma speakText_grows rewriteConcise text call cachePlayback apiPlayback svc :
  audioCache svc
    ⊆ audioCache (snd (speakText rewriteConcise text call cachePlayback apiPlayback svc))
  ∧ (∀ k, is_Some (audioCache
                     (snd (speakText rewriteConcise text call cachePlayback apiPlayback svc))
                   !! k) →
          k ∈ commonPhrases ∨ is_Some (audioCache svc !! k)).
Proof.
  unfold speakText. destruct (bool_decide _); [split; [done | by right]|].
  unfold speakOptimized. destruct (String.eqb _ ""); [split; [done | by right]|].
  match goal with |- context [if ?c then (Fulfilled (), svc) else _] => destruct c end;
    [split; [done | by right]|].
  destruct (negb _); [split; [done | by right]|].
  pose proof (speakWithElevenLabs_grows
                (optimizeTextForSpeech rewriteConcise text svc) call apiPlayback svc) as H.
  by destruct (speakWithElevenLabs _ call apiPlayback svc) as [[u|e] svc'].
Qed.

Lemma preCacheCommonPhrases_grows calls svc :
  audioCache svc ⊆ audioCache (preCacheCommonPhrases calls svc)
  ∧ (∀ k, is_Some (audioCache (preCacheCommonPhrases calls svc) !! k) →
          k ∈ commonPhrases ∨ is_Some (audioCache svc !! k)).
Proof.
  unfold preCacheCommonPhrases. destruct (_ || _); [split; [done | by right]|].
  destruct (cacheEach_grows priorityPhrases 0 calls svc) as (Hsub & Hkeys & _).
  split; [done|]. intros k Hk. destruct (Hkeys k Hk) as [Hin | Hold]; [left | by right].
  clear Hk. revert k Hin. apply Forall_forall. compute_done.
Qed.

(** X20.  What the cache holds it keeps: pre-caching and speaking only
    add entries and never replace the audio stored for a phrase; only
    [clearCache] empties it. *)
Theorem audio_cache_only_grows
    (svc : SpeechService.SpeechService) (calls : nat → Call) (call : Call)
    (rewriteConcise : string → string) (text : string)
    (cachePlayback apiPlayback : option Thrown) :
  audioCache svc ⊆ audioCache (preCacheCommonPhrases calls svc)
  ∧ audioCache svc
      ⊆ audioCache (snd (speakText rewriteConcise text call cachePlayback apiPlayback svc))
  ∧ audioCache (clearCache svc) = ∅.
Proof.
  split; [apply preCacheCommonPhrases_grows|]. split; [apply speakText_grows | done].
Qed.

Lemma commonPhrases_NoDup : NoDup commonPhrases.
Proof. compute_done. Qed.

(** X21.  The cache holds audio for common phrases only: pre-caching
    and speaking keep it that way, so the cache never holds more than
    the sixteen phrases, whatever is spoken. *)
Theorem audio_cache_holds_common_phrases
    (svc : SpeechService.SpeechService) (calls : nat → Call) (call : Call)
    (rewriteConcise : string → string) (text : string)
    (cachePlayback apiPlayback : option Thrown) :
  holdsCommonPhrases svc →
  holdsCommonPhrases (preCacheCommonPhrases calls svc)
  ∧ holdsCommonPhrases
      (snd (speakText rewriteConcise text call cachePlayback apiPlayback svc))
  ∧ fst (getCacheStats svc) ≤ 16.
Proof.
  intros Hinv. split; [|split].
  - intros k Hk. destruct (proj2 (preCacheCommonPhrases_grows calls svc) k Hk); auto.
  - intros k Hk.
    destruct (proj2 (speakText_grows rewriteConcise text call cachePlayback apiPlayback svc)
                k Hk); auto.
  - unfold getCacheStats. cbn [fst].
    rewrite <- size_dom.
    assert (dom (audioCache svc) ⊆ (list_to_set commonPhrases : gset string)) as Hsub.
    { intros k Hk. apply elem_of_dom in Hk. apply elem_of_list_to_set. by apply Hinv. }
    apply subseteq_size in Hsub.
    rewrite size_list_to_set in Hsub by apply commonPhrases_NoDup. exact Hsub.
Qed.

Lemma audio_cache_holds_common_phrases_witness :
  fst (getCacheStats keyedSpeech) ≤ 16.
Proof.
  apply (audio_cache_holds_common_phrases keyedSpeech (λ _, deliveringCall)
           deliveringCall id "Excellent!" None None).
  intros k [x Hk]. unfold keyedSpeech, newSpeechService in Hk.
  cbn [audioCache] in Hk. by rewrite lookup_empty in Hk.
Defined.

End SpeechFacts.

(** ** Requests of the speech service *)

Module SynthesisFacts.
Import JsString JsText ApiErrorHandler GameState ElevenLabsConfig SpeechService.
Import RateLimiterFacts RetryLoopFacts SpeechFacts.
Import Notions Measures Samples SpeechSpecimens.

Local Open Scope nat_scope.
Local Open Scope list_scope.

Lemma requestSpeech_snd world k rl :
  snd (requestSpeech world k rl) = recordRequest (s_clock (world k)) rl.
Proof. unfold requestSpeech. by destruct (s_reply (world k)). Qed.

Lemma requestSpeech_fails world k rl :
  (∀ body, s_reply (world k) ≠ SpeechOk body) →
  ∃ err, fst (requestSpeech world k rl) = Rejected (ThrownError err).
Proof.
  intros Hno. unfold requestSpeech.
  destruct (s_reply (world k)) as [e|st txt|body]; simpl; [by eexists..|].
  by destruct (Hno body).
Qed.

(** Against an endpoint that never delivers, the loop uses every
    attempt it is given. *)
Lemma requestSpeech_exhausts world delay (more attempt : nat) (rl : RateLimiter) :
  (∀ k body, s_reply (world k) ≠ SpeechOk body) →
  let r := retryFrom (requestSpeech world) delay attempt more rl in
  invocations r = S more
  ∧ (∃ err, settled r = Rejected (ThrownError err))
  ∧ requests (final r)
    = requests rl ++ ((λ k, s_clock (world k)) <$> seq attempt (S more)).
Proof.
  intros Hno. revert attempt rl.
  induction more as [|more IH]; intros attempt rl; simpl.
  - pose proof (requestSpeech_snd world attempt rl) as Hsnd.
    destruct (requestSpeech_fails world attempt rl (Hno attempt)) as [err Hfst].
    destruct (requestSpeech world attempt rl) as [res rl']. simpl in *. subst.
    simpl. repeat split. by eexists.
  - pose proof (requestSpeech_snd world attempt rl) as Hsnd.
    destruct (requestSpeech_fails world attempt rl (Hno attempt)) as [err Hfst].
    destruct (requestSpeech world attempt rl) as [res rl']. simpl in *. subst.
    simpl. destruct (IH (S attempt) (recordRequest (s_clock (world attempt)) rl))
      as (Hinv & Hset & Hreq).
    rewrite Hinv. split; [done|]. split; [done|].
    rewrite Hreq. simpl. by rewrite <- app_assoc.
Qed.

(** X22.  With the speech mode disabled, or without a usable key,
    [speakText] sends nothing and leaves the service as it was.  In the
    disabled mode it resolves at once; without a usable key it resolves
    (nothing to say, or played from the cache) or rejects with the
    message that asks for a key. *)
Theorem speakText_without_request
    (rewriteConcise : string → string) (text : string) (call : Call)
    (cachePlayback apiPlayback : option Thrown) (svc : SpeechService.SpeechService) :
  speechMode svc = disabled ∨ keyIsUsable (apiKey svc) = false →
  let result := speakText rewriteConcise text call cachePlayback apiPlayback svc in
  snd result = svc
  ∧ (speechMode svc = disabled → fst result = Fulfilled ())
  ∧ (fst result = Fulfilled ()
     ∨ fst result
       = Rejected (ThrownError (newError
           "Valid ElevenLabs API key is required for high-quality speech synthesis."))).
Proof.
  intros Hpre. unfold speakText.
  destruct (bool_decide_reflect (speechMode svc = disabled)) as [Hdis|Hen].
  { simpl. split; [done|]. split; [done | by left]. }
  destruct Hpre as [|Hkey]; [done|].
  unfold speakOptimized. rewrite Hkey. cbn [negb].
  destruct (String.eqb _ ""); [simpl; split; [done|]; split; [done | by left]|].
  match goal with |- context [if ?c then (Fulfilled (), svc) else _] => destruct c end;
    simpl; (split; [done|]; split; [done|]); [by left | by right].
Qed.

Lemma speakText_without_request_witness :
  snd (speakText id "Well done!" deliveringCall None None (newSpeechService "short" None))
  = newSpeechService "short" None.
Proof.
  apply (speakText_without_request id "Well done!" deliveringCall None None
           (newSpeechService "short" None)).
  right. reflexivity.
Defined.

(** X23.  When the synthesis endpoint never delivers (every request is
    refused, answered with an error status, whichever, or fails), one
    call of [generateAudioBlob] that the limiter admits sends five
    requests, sleeping 1.5, 3, 6 and 12 seconds in between, records all
    five with the limiter, and rejects with a plain error. *)
Theorem generateAudioBlob_retries_five_times
    (call : Call) (svc : SpeechService.SpeechService) :
  fst (canMakeRequest (c_now call) (rateLimiter svc)) = true →
  (∀ k body, s_reply (c_world call k) ≠ SpeechOk body) →
  let run := retryWithBackoff (requestSpeech (c_world call)) retryAttempts retryDelay
               (snd (canMakeRequest (c_now call) (rateLimiter svc))) in
  invocations run = 5
  ∧ delays run = [1500; 3000; 6000; 12000]%Z
  ∧ (∃ err, fst (generateAudioBlob call svc) = Rejected (ThrownError err))
  ∧ requests (rateLimiter (snd (generateAudioBlob call svc)))
    = inWindow (c_now call) (requests (rateLimiter svc))
      ++ ((λ k, s_clock (c_world call k)) <$> [1; 2; 3; 4; 5]).
Proof.
  intros Hok Hno run. subst run.
  unfold generateAudioBlob.
  rewrite canMakeRequest_unfold in *. cbn [fst snd] in *. rewrite Hok. cbn [negb].
  set (rl := {| requestsPerMinute := requestsPerMinute (rateLimiter svc);
                requests := inWindow (c_now call) (requests (rateLimiter svc)) |}).
  unfold retryWithBackoff, retryAttempts.
  destruct (requestSpeech_exhausts (c_world call) retryDelay 4 1 rl Hno)
    as (Hinv & [err Hset] & Hreq).
  split; [exact Hinv|]. split.
  { rewrite retryFrom_delays by lia. rewrite Hinv. reflexivity. }
  rewrite Hset. cbn [fst snd]. split; [by eexists|].
  cbn [rateLimiter withLimiter]. exact Hreq.
Qed.

Lemma generateAudioBlob_retries_five_times_witness :
  requests (rateLimiter (snd (generateAudioBlob refusingCall keyedSpeech)))
  = [1000; 2000; 3000; 4000; 5000]%Z.
Proof.
  apply (generateAudioBlob_retries_five_times refusingCall keyedSpeech).
  - reflexivity.
  - intros k body. discriminate.
Defined.

Lemma requestSpeech_first_ok world delay attempt more rl body :
  s_reply (world attempt) = SpeechOk body →
  retryFrom (requestSpeech world) delay attempt more rl
  = {| settled := Fulfilled body; invocations := 1; delays := [];
       final := recordRequest (s_clock (world attempt)) rl |}.
Proof.
  intros Hreply. destruct more; simpl; unfold requestSpeech; by rewrite Hreply.
Qed.

Lemma cachePhrase_delivers text call svc blob :
  audioCache svc !! text = None →
  requestsPerMinute (rateLimiter svc) = 60%Z →
  length (requests (rateLimiter svc)) < 60 →
  s_reply (c_world call 1) = SpeechOk (Fulfilled blob) →
  audioCache (cachePhrase text call svc) = <[text := blob]> (audioCache svc)
  ∧ requestsPerMinute (rateLimiter (cachePhrase text call svc)) = 60%Z
  ∧ length (requests (rateLimiter (cachePhrase text call svc)))
    ≤ S (length (requests (rateLimiter svc))).
Proof.
  intros Hnone Hrpm Hlen Hreply. unfold cachePhrase. rewrite Hnone.
  unfold generateAudioBlob. rewrite canMakeRequest_unfold.
  pose proof (length_filter (λ timestamp, (timestamp > c_now call - 60000)%Z)
                (requests (rateLimiter svc))) as Hfilter.
  fold (inWindow (c_now call) (requests (rateLimiter svc))) in Hfilter.
  rewrite bool_decide_true by lia. cbn [negb].
  unfold retryWithBackoff, retryAttempts.
  rewrite (requestSpeech_first_ok _ _ _ _ _ _ Hreply). simpl.
  split; [done|]. split; [done|]. rewrite length_app. simpl. lia.
Qed.

Lemma cacheEach_delivers phrases :
  ∀ i calls svc,
    NoDup phrases →
    (∀ p, p ∈ phrases → audioCache svc !! p = None) →
    requestsPerMinute (rateLimiter svc) = 60%Z →
    length (requests (rateLimiter svc)) + length phrases ≤ 60 →
    (∀ i, ∃ blob, s_reply (c_world (calls i) 1) = SpeechOk (Fulfilled blob)) →
    (∀ p, is_Some (audioCache (cacheEach phrases i calls svc) !! p)
          ↔ p ∈ phrases ∨ is_Some (audioCache svc !! p))
    ∧ length (requests (rateLimiter (cacheEach phrases i calls svc)))
      ≤ length (requests (rateLimiter svc)) + length phrases.
Proof.
  induction phrases as [|p phrases IH]; intros i calls svc Hnd Hfresh Hrpm Hlen Hok; simpl.
  { split; [|lia]. intros p. split; [by right|]. by intros [?%elem_of_nil|]. }
  apply NoDup_cons in Hnd as [Hp Hnd].
  destruct (Hok i) as [blob Hreply].
  destruct (cachePhrase_delivers p (calls i) svc blob) as (Hcache & Hrpm' & Hlen');
    [apply Hfresh; left | done | simpl in Hlen; lia | done |].
  destruct (IH (S i) calls (cachePhrase p (calls i) svc)) as [Hkeys Hreqs];
    [done | | done | simpl in Hlen; lia | done |].
  { intros q Hq. rewrite Hcache, lookup_insert_ne by (by intros ->).
    apply Hfresh. by right. }
  split; [|simpl in *; lia].
  intros q. rewrite Hkeys, Hcache, lookup_insert_is_Some, elem_of_cons.
  destruct (decide (p = q)) as [->|Hne]; [tauto|].
  split; [intros [?|[?|[_ ?]]] | intros [[?|?]|?]]; auto; congruence.
Qed.

Lemma exactMatch_common :
  Forall (λ p, exactMatch p = Some p ∧ p ≠ "") commonPhrases.
Proof. compute_done. Qed.

Lemma priorityPhrases_common : Forall (λ p, p ∈ commonPhrases) priorityPhrases.
Proof. compute_done. Qed.

(** X24.  When the endpoint delivers, a service created with a usable
    key in a speaking mode ends its pre-caching with audio for exactly
    the six priority phrases, having sent at most six requests; and in
    the full mode speaking one of them plays the cached audio: nothing
    is sent and the service stays as it is. *)
Theorem precached_phrases_play_from_cache
    (key : string) (mode : option SpeechMode) (calls : nat → Call) :
  keyIsUsable key = true →
  mode ≠ Some disabled →
  (∀ i, ∃ blob, s_reply (c_world (calls i) 1) = SpeechOk (Fulfilled blob)) →
  let svc := preCacheCommonPhrases calls (newSpeechService key mode) in
  (∀ p, is_Some (audioCache svc !! p) ↔ p ∈ priorityPhrases)
  ∧ length (requests (rateLimiter svc)) ≤ 6
  ∧ (speechMode svc = full →
       ∀ p rewriteConcise call apiPlayback,
         p ∈ priorityPhrases →
         speakText rewriteConcise p call None apiPlayback svc = (Fulfilled (), svc)).
Proof.
  intros Hkey Hmode Hok svc.
  assert (svc = cacheEach priorityPhrases 0 calls (newSpeechService key mode)) as Hsvc.
  { subst svc. unfold preCacheCommonPhrases. cbn [apiKey newSpeechService speechMode].
    rewrite Hkey. cbn [negb orb].
    rewrite bool_decide_false; [done|].
    destruct mode as [[]|]; simpl; congruence. }
  destruct (cacheEach_delivers priorityPhrases 0 calls (newSpeechService key mode))
    as [Hkeys Hreqs]; [compute_done | done | done | simpl; lia | done |].
  rewrite <- Hsvc in Hkeys, Hreqs.
  split; [|split].
  - intros p. rewrite Hkeys. cbn [audioCache newSpeechService].
    rewrite lookup_empty. split; [intros [?|[? ?]]; done | by left].
  - simpl in Hreqs. lia.
  - intros Hfull p rewriteConcise call apiPlayback Hp.
    unfold speakText. rewrite Hfull. rewrite bool_decide_false by done.
    unfold optimizeTextForSpeech. rewrite Hfull. unfold speakOptimized.
    pose proof priorityPhrases_common as Hcommon. rewrite Forall_forall in Hcommon.
    pose proof exactMatch_common as Hmatch. rewrite Forall_forall in Hmatch.
    pose proof (Hmatch p (Hcommon p Hp)) as [Hex Hne]. apply String.eqb_neq in Hne.
    rewrite Hne, Hex.
    destruct (proj2 (Hkeys p) (or_introl Hp)) as [blob ->]. reflexivity.
Qed.

Lemma precached_phrases_play_from_cache_witness :
  speakText id "Excellent!" refusingCall None None
    (preCacheCommonPhrases (λ _, deliveringCall) keyedSpeech)
  = (Fulfilled (), preCacheCommonPhrases (λ _, deliveringCall) keyedSpeech).
Proof.
  apply (precached_phrases_play_from_cache "0123456789" None (λ _, deliveringCall)
           eq_refl ltac:(discriminate) ltac:(intros i; by eexists)).
  - vm_compute. reflexivity.
  - unfold priorityPhrases. left.
Defined.

End SynthesisFacts.

(** ** Voices and environment *)

Module ConfigFacts.
Import JsString JsText ElevenLabsConfig EnvironmentConfig.
Import JsStringFacts JsTextFacts.
Import EnvNotions.

Local Open Scope nat_scope.
Local Open Scope list_scope.

(** X25.  [getVoiceConfig] finds a voice by its name whatever the
    capitals, and by its identifier as written; any other text yields
    the default voice, Rachel, except that text which reads
    [constructor] or [__proto__] when put in lower case yields the
    member every object inherits under that name, which is no voice.
    With no argument the result is Rachel. *)
Theorem getVoiceConfig_lookup (voiceIdentifier : string) :
  (∀ key v, (key, v) ∈ voices →
     (toLowerCase voiceIdentifier = key →
        getVoiceConfig (Some voiceIdentifier) = OwnVoice v)
     ∧ getVoiceConfig (Some (v_id v)) = OwnVoice v)
  ∧ ((∀ key v, (key, v) ∈ voices →
        toLowerCase voiceIdentifier ≠ key ∧ voiceIdentifier ≠ v_id v) →
     getVoiceConfig (Some voiceIdentifier)
     = if bool_decide (toLowerCase voiceIdentifier ∈ ["constructor"; "__proto__"])
       then Inherited (toLowerCase voiceIdentifier)
       else OwnVoice rachel)
  ∧ getVoiceConfig None = OwnVoice rachel.
Proof.
  split; [|split; [|reflexivity]].
  - intros key v Hin. unfold voices in Hin.
    repeat (apply elem_of_cons in Hin as [[= -> ->] | Hin]);
      try (by apply elem_of_nil in Hin).
    all: split; [|reflexivity].
    all: intros Hlow; unfold getVoiceConfig; cbv zeta;
      change (default "rachel" (Some voiceIdentifier)) with voiceIdentifier;
      by rewrite Hlow.
  - intros Hother. unfold getVoiceConfig, voicesAt. cbv zeta.
    change (default "rachel" (Some voiceIdentifier)) with voiceIdentifier.
    assert (toLowerCase voiceIdentifier ≠ "rachel"
            ∧ toLowerCase voiceIdentifier ≠ "adam"
            ∧ toLowerCase voiceIdentifier ≠ "bella") as (Hr & Ha & Hb).
    { repeat split; intros Heq.
      - by destruct (Hother "rachel" rachel ltac:(unfold voices; set_solver)).
      - by destruct (Hother "adam" adam ltac:(unfold voices; set_solver)).
      - by destruct (Hother "bella" bella ltac:(unfold voices; set_solver)). }
    assert (voiceIdentifier ≠ v_id rachel ∧ voiceIdentifier ≠ v_id adam
            ∧ voiceIdentifier ≠ v_id bella) as (Hir & Hia & Hib).
    { repeat split.
      - by destruct (Hother "rachel" rachel ltac:(unfold voices; set_solver)).
      - by destruct (Hother "adam" adam ltac:(unfold voices; set_solver)).
      - by destruct (Hother "bella" bella ltac:(unfold voices; set_solver)). }
    assert (list_find (λ kv : string * Voice, fst kv = toLowerCase voiceIdentifier) voices
            = None) as ->.
    { apply list_find_None. unfold voices. rewrite !Forall_cons, Forall_nil.
      simpl in *. repeat split; congruence. }
    assert (list_find (λ kv : string * Voice, v_id (snd kv) = voiceIdentifier) voices
            = None) as ->.
    { apply list_find_None. unfold voices. rewrite !Forall_cons, Forall_nil.
      simpl in *. repeat split; congruence. }
    destruct (String.eqb_spec (toLowerCase voiceIdentifier) "constructor") as [Hc|Hc].
    { rewrite Hc. reflexivity. }
    destruct (String.eqb_spec (toLowerCase voiceIdentifier) "__proto__") as [Hp|Hp].
    { rewrite Hp. reflexivity. }
    cbn [orb]. rewrite bool_decide_false; [done|].
    rewrite !elem_of_cons, elem_of_nil. tauto.
Qed.

Lemma getVoiceConfig_lookup_witness :
  getVoiceConfig (Some "BELLA") = OwnVoice bella
  ∧ getVoiceConfig (Some "Constructor") = Inherited "constructor".
Proof.
  split.
  - destruct (proj1 (getVoiceConfig_lookup "BELLA") "bella" bella) as [Hname _].
    + unfold voices. set_solver.
    + apply Hname. reflexivity.
  - apply (proj1 (proj2 (getVoiceConfig_lookup "Constructor"))).
    intros key v Hin. unfold voices in Hin.
    repeat (apply elem_of_cons in Hin as [[= -> ->] | Hin]);
      try (by apply elem_of_nil in Hin); split; discriminate.
Defined.


Lemma includes_nil (needle : string) : needle ≠ "" → includes needle "" = false.
Proof. intros Hne. by destruct needle. Qed.

Lemma checkEntry_optional env errs warns spec :
  e_required spec = false →
  checkEntry env (errs, warns) spec
  = (errs,
     if includes "API_KEY" (e_key spec) && isPlaceholder (vars env !! e_key spec)
     then warns ++ [placeholderWarning (e_key spec)] else warns).
Proof.
  intros Hopt. unfold checkEntry. rewrite Hopt. cbn [andb].
  destruct (includes "API_KEY" (e_key spec)); [|done]. cbn [andb].
  destruct (vars env !! e_key spec) as [v|]; [|done]. cbn [truthy isPlaceholder default].
  destruct (String.eqb_spec v "") as [->|Hne]; [done|]. cbn [negb andb id].
  by destruct (includes "your_" v || includes "_here" v).
Qed.

(** X26.  Validating the environment never reports an error and
    always finds it valid, also with nothing set: no variable of the
    schema is required.  The warnings are, in this order, one for the
    OpenAI key and one for the ElevenLabs key, each given when the
    value holds [your_] or [_here]. *)
Theorem validateEnvironment_never_fails (env : Env) :
  isValid (validateEnvironment env) = true
  ∧ errors (validateEnvironment env) = []
  ∧ warnings (validateEnvironment env)
    = placeholderWarning
        <$> filter (λ key, isPlaceholder (vars env !! key) = true)
              ["VITE_OPENAI_API_KEY"; "VITE_ELEVENLABS_API_KEY"].
Proof.
  unfold validateEnvironment, validateAgainst, envSchema. cbn [foldl].
  rewrite !checkEntry_optional by reflexivity. cbn [e_key].
  change (includes "API_KEY" "VITE_OPENAI_API_KEY") with true.
  change (includes "API_KEY" "VITE_ELEVENLABS_API_KEY") with true.
  change (includes "API_KEY" "VITE_APP_NAME") with false.
  change (includes "API_KEY" "VITE_APP_VERSION") with false.
  change (includes "API_KEY" "VITE_ENVIRONMENT") with false.
  cbn [andb].
  destruct (isPlaceholder (vars env !! "VITE_OPENAI_API_KEY")) eqn:Ho;
    destruct (isPlaceholder (vars env !! "VITE_ELEVENLABS_API_KEY")) eqn:He.
  - rewrite filter_cons_True, filter_cons_True by done. done.
  - rewrite filter_cons_True, filter_cons_False by (done || congruence). done.
  - rewrite filter_cons_False, filter_cons_True by (done || congruence). done.
  - rewrite filter_cons_False, filter_cons_False by (done || congruence). done.
Qed.

(** X27.  The settings object has a name, a version and an environment
    whatever is set, the environment being what [getEnvironment]
    answers; and a key that is not set, or set to the empty text, is
    [null] in it.  When [isDevelopment] answers yes, the build is a
    development build or [getEnvironment] answers [development]; the
    converse fails: with [VITE_ENVIRONMENT] not set, [getEnvironment]
    answers [development] while [isDevelopment] and [isProduction]
    follow the flags of the build alone. *)
Theorem getEnvironmentConfig_defaults (env : Env) :
  (∃ name version,
     name ≠ "" ∧ version ≠ "" ∧ getEnvironment env ≠ ""
     ∧ getEnvironmentConfig env
       = [("VITE_OPENAI_API_KEY",
           if truthy (vars env !! "VITE_OPENAI_API_KEY")
           then vars env !! "VITE_OPENAI_API_KEY" else None);
          ("VITE_ELEVENLABS_API_KEY",
           if truthy (vars env !! "VITE_ELEVENLABS_API_KEY")
           then vars env !! "VITE_ELEVENLABS_API_KEY" else None);
          ("VITE_APP_NAME", Some name);
          ("VITE_APP_VERSION", Some version);
          ("VITE_ENVIRONMENT", Some (getEnvironment env))])
  ∧ (isDevelopment env = true →
       DEV env = true ∨ getEnvironment env = "development")
  ∧ (truthy (vars env !! "VITE_ENVIRONMENT") = false →
       getEnvironment env = "development"
       ∧ isDevelopment env = DEV env
       ∧ isProduction env = PROD env).
Proof.
  split; [|split].
  - exists (if truthy (vars env !! "VITE_APP_NAME")
            then default "" (vars env !! "VITE_APP_NAME") else "VocAIbulary"),
           (if truthy (vars env !! "VITE_APP_VERSION")
            then default "" (vars env !! "VITE_APP_VERSION") else "1.0.0").
    unfold getEnvironmentConfig, getEnvironment, envSchema, configValue.
    cbn [fmap list_fmap e_key e_default truthy].
    destruct (vars env !! "VITE_APP_NAME") as [n|];
      destruct (vars env !! "VITE_APP_VERSION") as [v|];
      destruct (vars env !! "VITE_ENVIRONMENT") as [e|]; cbn [truthy default].
    all: repeat match goal with
                | |- context [String.eqb ?x ""] =>
                    destruct (String.eqb_spec x ""); cbn [negb]
                end.
    all: repeat split; done.
  - unfold isDevelopment, getEnvironment. intros [H|H]%orb_true_iff; [by left|].
    apply bool_decide_eq_true in H. rewrite H. by right.
  - unfold isDevelopment, isProduction, getEnvironment. intros Hunset. rewrite Hunset.
    split; [done|].
    assert (vars env !! "VITE_ENVIRONMENT" ≠ Some "development"
            ∧ vars env !! "VITE_ENVIRONMENT" ≠ Some "production") as [Hd Hp].
    { destruct (vars env !! "VITE_ENVIRONMENT") as [value|]; [|done].
      split; intros [= ->]; discriminate. }
    rewrite !bool_decide_false by done. by rewrite !orb_false_r.
Qed.

Lemma getEnvironmentConfig_defaults_witness :
  getEnvironment bareProduction = "development"
  ∧ isDevelopment bareProduction = false
  ∧ isProduction bareProduction = true.
Proof.
  apply (proj2 (proj2 (getEnvironmentConfig_defaults bareProduction))). reflexivity.
Defined.

End ConfigFacts.
